(** * uiCA: a shallow embedding of the pipeline model of [uiCA.py]

    The simulator is a single-threaded Python program working on mutable
    objects ([Uop], [FusedUop], [StoreBufferEntry], [RenamedOperand], ...)
    around a global [clock].  Objects that are mutated through several
    references live in an explicit object store ([Heap]); methods become
    functions in a state-and-exception monad over that store.  Python
    integers are unbounded and are modelled by [Z]; [None] is [option]'s
    [None]; a Python exception is the failure of the monad. *)

From Stdlib Require Import ZArith QArith Lia Bool.
From stdpp Require Import base option list gmap strings sorting.

Open Scope Z_scope.

(** ** Static data *)

(** Port labels are the one-character strings ['0'] ... ['9']. *)
Definition Port := string.

(** Operands ([RegOperand], [FlagOperand], [MemOperand], [PseudoOperand])
    define neither [__eq__] nor [__hash__]: as dictionary keys they are
    compared by identity.  An operand is therefore named by an index. *)
Definition OperandId := nat.

(** The memory fingerprint built by [Renamer.getStoreBufferKey]:
    [(abstract base, abstract index, scale, displacement)]. *)
Definition AbstractAddress := (Z * Z * Z * Z)%type.

(** [MicroArchConfig], restricted to the fields read by the modelled code. *)
Record MicroArchConfig := {
  IQWidth : Z;
  IDQWidth : Z;
  RBWidth : Z;
  RSWidth : Z;
  issueWidth : Z;
  retireWidth : Z;
  preDecodeWidth : Z;
  DSBWidth : Z;
  issueDispatchDelay : Z;
  allPorts : list Port;
  stackSyncUopPorts : list Port
}.

(** The symbolic address of a memory operand (built by [getMemAddr]). *)
Record MemAddr := {
  base : option string;
  index : option string;
  scale : Z;
  displacement : Z
}.

Record RegOperand := {
  reg_id : OperandId;
  reg : string;
  isImplicitStackOperand : bool
}.

Record FlagOperand := {
  flag_id : OperandId;
  flags : string
}.

Record MemOperand := {
  mem_id : OperandId;
  mo_memAddr : MemAddr
}.

(** The operands that appear in the operand lists of a uop. *)
Inductive Operand :=
  | OpReg (r : RegOperand)
  | OpFlag (f : FlagOperand)
  | OpMem (m : MemOperand)
  | PseudoOperand (id : OperandId).

Definition operand_id (o : Operand) : OperandId :=
  match o with
  | OpReg r => reg_id r
  | OpFlag f => flag_id f
  | OpMem m => mem_id m
  | PseudoOperand id => id
  end.

(** [UopProperties]; the back reference [instr] is kept next to the
    properties wherever the code follows it. [possiblePorts] is [None] for
    the portless uops that pad an instruction to its retire slots. *)
Record UopProperties := {
  possiblePorts : option (list Port);
  inputOperands : list Operand;
  outputOperands : list Operand;
  latencies : gmap OperandId Z;
  divCycles : Z;
  isLoadUop : bool;
  isStoreAddressUop : bool;
  memAddr : option MemAddr;
  isStoreDataUop : bool;
  isFirstUopOfInstr : bool;
  isLastUopOfInstr : bool;
  isRegMergeUop : bool
}.

(** [Instr]: one entry of the program, built once by [getInstructions].
    [isUnknownInstr] is the class tag ([isinstance(instr, UnknownInstr)]);
    [portData] is a dictionary iterated in insertion order. *)
Record Instr := {
  asm : string;
  opcode : string;
  posNominalOpcode : Z;
  instrStr : string;
  portData : list (string * Z);
  instr_uops : Z;
  retireSlots : Z;
  uopsMITE : Z;
  uopsMS : Z;
  instr_divCycles : Z;
  inputRegOperands : list RegOperand;
  inputFlagOperands : list FlagOperand;
  inputMemOperands : list MemOperand;
  outputRegOperands : list RegOperand;
  outputFlagOperands : list FlagOperand;
  outputMemOperands : list MemOperand;
  memAddrOperands : list RegOperand;
  agenOperands : list MemOperand;
  instr_latencies : gmap (OperandId * OperandId) Z;
  TP : option Z;
  immediate : option Z;
  lcpStall : bool;
  implicitRSPChange : Z;
  mayBeEliminated : bool;
  complexDecoder : bool;
  nAvailableSimpleDecoders : option Z;
  hasLockPrefix : bool;
  isBranchInstr : bool;
  isSerializingInstr : bool;
  isLoadSerializing : bool;
  isStoreSerializing : bool;
  macroFusibleWith : list string;
  macroFusedWithPrevInstr : bool;
  macroFusedWithNextInstr : bool;
  UopPropertiesList : list UopProperties;
  regMergeUopPropertiesList : list UopProperties;
  isFirstInstruction : bool;
  isUnknownInstr : bool
}.

(** [UnknownInstr.__init__]. *)
Definition UnknownInstr (asm opcode : string) (posNominalOpcode : Z) : Instr :=
  {| asm := asm; opcode := opcode; posNominalOpcode := posNominalOpcode;
     instrStr := ""; portData := []; instr_uops := 0; retireSlots := 1;
     uopsMITE := 1; uopsMS := 0; instr_divCycles := 0;
     inputRegOperands := []; inputFlagOperands := []; inputMemOperands := [];
     outputRegOperands := []; outputFlagOperands := [];
     outputMemOperands := []; memAddrOperands := []; agenOperands := [];
     instr_latencies := ∅; TP := None; immediate := Some 0;
     lcpStall := false; implicitRSPChange := 0; mayBeEliminated := false;
     complexDecoder := false; nAvailableSimpleDecoders := None;
     hasLockPrefix := false; isBranchInstr := false;
     isSerializingInstr := false; isLoadSerializing := false;
     isStoreSerializing := false; macroFusibleWith := [];
     macroFusedWithPrevInstr := false; macroFusedWithNextInstr := false;
     UopPropertiesList := []; regMergeUopPropertiesList := [];
     isFirstInstruction := false; isUnknownInstr := true |}.

(** ** The lamination tree, as the front end sees it

    The front end only looks at a uop (its properties and its place in the
    tree) and never changes it, so the tree is kept by value; the fields that
    the back end changes live in the object store under the uop's [idx]. *)
Record UopNode := {
  u_idx : nat;
  u_prop : UopProperties;
  u_instr : Instr;
  u_instrI : nat;
  isStackSyncUop : bool
}.

Definition FusedNode := list UopNode.

Record LaminatedUop := {
  getFusedUops : list FusedNode;
  addedToIDQ : option Z;
  uopSource : option string
}.

(** [LaminatedUop.getUnfusedUops]. *)
Definition getUnfusedUops (l : LaminatedUop) : list UopNode :=
  concat (getFusedUops l).

(** [InstrInstance]; [ii_id] is its position among the generated instances. *)
Record InstrInstance := {
  ii_id : nat;
  ii_instr : Instr;
  address : Z;
  rnd : Z;
  ii_uops : list LaminatedUop;
  predecoded : option Z;
  removedFromIQ : option Z
}.

(** ** The object store *)

(** A [Uop] is referenced by its [idx], which the class counter
    [Uop.idx_iter] makes unique; the other objects by an allocation index. *)
Record Uop := {
  prop : UopProperties;
  fusedUop : nat;
  actualPort : option Port;
  eliminated : bool;
  renamedInputOperands : list nat;
  renamedOutputOperands : list nat;
  storeBufferEntry : option nat;
  readyForDispatch : option Z;
  dispatched : option Z;
  executed : option Z
}.

Record FusedUop := {
  fu_uops : list nat;
  issued : option Z;
  retired : option Z;
  retireIdx : option Z
}.

Record StoreBufferEntry := {
  abstractAddress : option AbstractAddress;
  sb_uops : list nat;
  addressReadyCycle : option Z;
  dataReadyCycle : option Z
}.

Record RenamedOperand := {
  nonRenamedOperand : option OperandId;
  ro_uop : option nat;
  ro_ready : option Z
}.

Record Heap := {
  h_uops : gmap nat Uop;
  h_fused : gmap nat FusedUop;
  h_sb : gmap nat StoreBufferEntry;
  h_ren : gmap nat RenamedOperand
}.

(** ** Methods as state transformers that may raise *)

Definition M (A : Type) : Type := Heap -> option (A * Heap).

Definition ret {A} (a : A) : M A := fun h => Some (a, h).

Definition raise {A} : M A := fun _ => None.

Definition bind {A B} (m : M A) (f : A -> M B) : M B :=
  fun h => match m h with
           | Some (a, h') => f a h'
           | None => None
           end.

Notation "'let*' x ':=' m 'in' k" := (bind m (fun x => k))
  (at level 10, x name, m at level 100, k at level 200).

Definition get_uop (u : nat) : M Uop :=
  fun h => match h_uops h !! u with Some o => Some (o, h) | None => None end.

Definition get_fused (f : nat) : M FusedUop :=
  fun h => match h_fused h !! f with Some o => Some (o, h) | None => None end.

Definition get_sb (s : nat) : M StoreBufferEntry :=
  fun h => match h_sb h !! s with Some o => Some (o, h) | None => None end.

Definition get_ren (r : nat) : M RenamedOperand :=
  fun h => match h_ren h !! r with Some o => Some (o, h) | None => None end.

Definition put_uop (u : nat) (o : Uop) : M unit :=
  fun h => Some (tt, {| h_uops := <[u := o]> (h_uops h); h_fused := h_fused h;
                        h_sb := h_sb h; h_ren := h_ren h |}).

Definition put_fused (f : nat) (o : FusedUop) : M unit :=
  fun h => Some (tt, {| h_uops := h_uops h; h_fused := <[f := o]> (h_fused h);
                        h_sb := h_sb h; h_ren := h_ren h |}).

Definition with_ren (r : nat) (o : RenamedOperand) (h : Heap) : Heap :=
  {| h_uops := h_uops h; h_fused := h_fused h;
     h_sb := h_sb h; h_ren := <[r := o]> (h_ren h) |}.

Definition put_ren (r : nat) (o : RenamedOperand) : M unit :=
  fun h => Some (tt, with_ren r o h).

(** ** [RenamedOperand.getReadyCycle] *)

(** [self.__ready = c]. *)
Definition set_ready (o : RenamedOperand) (c : Z) : RenamedOperand :=
  {| nonRenamedOperand := nonRenamedOperand o; ro_uop := ro_uop o;
     ro_ready := Some c |}.

(** [self.uop.prop.latencies.get(self.nonRenamedOperand, 1)]. *)
Definition latency_of (p : UopProperties) (op : option OperandId) : Z :=
  match op with
  | Some k => default 1 (latencies p !! k)
  | None => 1
  end.

(** The constant [4] added to the store's ready cycle (store forwarding). *)
Definition forwardLatency : Z := 4.

Definition getReadyCycle (self : nat) : M (option Z) :=
  let* o := get_ren self in
  match ro_ready o with
  | Some c => ret (Some c)
  | None =>
    match ro_uop o with
    | None =>
      let* _ := put_ren self (set_ready o (-1)) in
      ret (Some (-1))
    | Some u =>
      let* uo := get_uop u in
      match dispatched uo with
      | None => ret None
      | Some d =>
        let lat := latency_of (prop uo) (nonRenamedOperand o) in
        match isLoadUop (prop uo), storeBufferEntry uo with
        | true, Some s =>
          let* sb := get_sb s in
          match addressReadyCycle sb, dataReadyCycle sb with
          | Some a, Some dr =>
            let memReady := Z.max a dr + forwardLatency in
            let r := Z.max (d + lat) memReady in
            let* _ := put_ren self (set_ready o r) in
            ret (Some r)
          | _, _ => ret None
          end
        | _, _ =>
          let r := d + lat in
          let* _ := put_ren self (set_ready o r) in
          ret (Some r)
        end
      end
    end
  end.

(** ** [Scheduler.getReadyForDispatchCycle] *)

(** The loop over [uop.renamedInputOperands]; [getReadyCycle] is called
    twice per operand, as in the source.  [max(opReadyCycle, None)] raises. *)
Fixpoint inputsReadyCycle (ops : list nat) (opReadyCycle : Z) : M (option Z) :=
  match ops with
  | [] => ret (Some opReadyCycle)
  | renInpOp :: rest =>
    let* c1 := getReadyCycle renInpOp in
    match c1 with
    | None => ret None
    | Some _ =>
      let* c2 := getReadyCycle renInpOp in
      match c2 with
      | None => raise
      | Some c => inputsReadyCycle rest (Z.max opReadyCycle c)
      end
    end
  end.

Definition getReadyForDispatchCycle (cfg : MicroArchConfig) (clock : Z)
    (u : nat) : M (option Z) :=
  let* uo := get_uop u in
  let* r := inputsReadyCycle (renamedInputOperands uo) (-1) in
  match r with
  | None => ret None
  | Some opReadyCycle =>
    let* f := get_fused (fusedUop uo) in
    match issued f with
    | None => raise
    | Some iss =>
      let readyCycle :=
        if opReadyCycle <? iss + issueDispatchDelay cfg
        then iss + issueDispatchDelay cfg
        else if (opReadyCycle =? iss + issueDispatchDelay cfg)
                || (opReadyCycle =? iss + issueDispatchDelay cfg + 1)
             then opReadyCycle + 1
             else opReadyCycle in
      ret (Some (Z.max (clock + 1) readyCycle))
    end
  end.

(** What a query of [getReadyCycle] answers in a given store. *)
Definition readyView (h : Heap) (r : nat) : option (option Z) :=
  match getReadyCycle r h with
  | Some (c, _) => Some c
  | None => None
  end.

(** [max] over the input ready cycles, starting from [opReadyCycle = -1]. *)
Definition maxInputReady (cs : list Z) : Z := foldl Z.max (-1) cs.

(** The readiness formula as the specification words it: the bump applies
    exactly at the dispatch-delay boundary. *)
Definition spec_readyForDispatch (clock : Z) (cs : list Z) (boundary : Z) : Z :=
  let m := maxInputReady cs in
  Z.max (clock + 1) (Z.max m boundary + (if m =? boundary then 1 else 0)).

(** ** The stack engine: [FrontEnd.addStackSyncUop] *)

(** The part of [FrontEnd] that the stack engine reads and writes.
    [stackSyncUops] collects [instrI.stackSyncUops] per instruction
    instance; [idx_iter] is the class counter [Uop.idx_iter] and [op_iter]
    numbers the operand objects created so far. *)
Record FrontEnd := {
  IDQ : list LaminatedUop;
  RSPOffset : Z;
  stackSyncUops : gmap nat (list LaminatedUop);
  idx_iter : nat;
  op_iter : nat
}.

(** [StackSyncUop.__init__]. *)
Definition StackSyncUop (cfg : MicroArchConfig) (fe : FrontEnd)
    (instr : Instr) (instrI : nat) : UopNode :=
  let inOp := {| reg_id := op_iter fe; reg := "RSP";
                 isImplicitStackOperand := false |} in
  let outOp := {| reg_id := S (op_iter fe); reg := "RSP";
                  isImplicitStackOperand := false |} in
  {| u_idx := idx_iter fe;
     u_prop := {| possiblePorts := Some (stackSyncUopPorts cfg);
                  inputOperands := [OpReg inOp];
                  outputOperands := [OpReg outOp];
                  latencies := {[ reg_id outOp := 1 ]};
                  divCycles := 0; isLoadUop := false;
                  isStoreAddressUop := false; memAddr := None;
                  isStoreDataUop := false; isFirstUopOfInstr := true;
                  isLastUopOfInstr := false; isRegMergeUop := false |};
     u_instr := instr; u_instrI := instrI; isStackSyncUop := true |}.

Section StackEngine.

(** [getCanonicalReg] comes from [x64_lib], which is not part of the
    sources at hand. *)
Variable getCanonicalReg : string -> string.

Definition isRSP (op : RegOperand) : bool :=
  String.eqb (getCanonicalReg (reg op)) "RSP".

(** [any(... for op in instr.inputRegOperands+instr.memAddrOperands
         if not op.isImplicitStackOperand)]. *)
Definition readsRSP (instr : Instr) : bool :=
  existsb isRSP
    (filter (fun op => isImplicitStackOperand op = false)
            (inputRegOperands instr ++ memAddrOperands instr)).

Definition writesRSP (instr : Instr) : bool :=
  existsb isRSP (outputRegOperands instr).

Definition addStackSyncUop (cfg : MicroArchConfig) (clock : Z)
    (uop : UopNode) (fe : FrontEnd) : FrontEnd :=
  if negb (isFirstUopOfInstr (u_prop uop)) then fe
  else
    let instr := u_instr uop in
    let '(requiresSyncUop, off) :=
      if negb (RSPOffset fe =? 0) && readsRSP instr
      then (true, 0) else (false, RSPOffset fe) in
    let off := off + implicitRSPChange instr in
    let '(requiresSyncUop, off) :=
      if off >? 192 then (true, 0) else (requiresSyncUop, off) in
    let off := if writesRSP instr then 0 else off in
    if requiresSyncUop then
      let stackSyncUop := StackSyncUop cfg fe instr (u_instrI uop) in
      let lamUop := {| getFusedUops := [[stackSyncUop]];
                       addedToIDQ := Some clock;
                       uopSource := Some "SE" |} in
      {| IDQ := IDQ fe ++ [lamUop];
         RSPOffset := off;
         stackSyncUops :=
           <[ u_instrI uop :=
                default [] (stackSyncUops fe !! u_instrI uop) ++ [lamUop] ]>
             (stackSyncUops fe);
         idx_iter := S (idx_iter fe);
         op_iter := S (S (op_iter fe)) |}
    else
      {| IDQ := IDQ fe; RSPOffset := off;
         stackSyncUops := stackSyncUops fe;
         idx_iter := idx_iter fe; op_iter := op_iter fe |}.

End StackEngine.

(** ** The predecoder *)

(** [instrInstanceCrosses16ByteBoundary]: the source compares
    [(address % 16) + len(opcode)/2 > 16] with a true division; doubling both
    sides keeps the comparison within the integers. *)
Definition instrInstanceCrosses16ByteBoundary (instrI : InstrInstance) : bool :=
  2 * (address instrI `mod` 16) + Z.of_nat (String.length (opcode (ii_instr instrI)))
  >? 32.

Record PreDecoder := {
  B16BlockQueue : list (list InstrInstance);
  instructionQueue : list InstrInstance;
  preDecQueue : list InstrInstance;
  stalled : Z;
  partialInstrI : option InstrInstance
}.

(** The loop [while curBlock and len(self.preDecQueue) < preDecodeWidth]. *)
Fixpoint preDecodeBlock (cfg : MicroArchConfig) (curBlock : list InstrInstance)
    (preDecQueue : list InstrInstance)
    : list InstrInstance * list InstrInstance :=
  match curBlock with
  | [] => (curBlock, preDecQueue)
  | instrI :: rest =>
    if Z.of_nat (length preDecQueue) <? preDecodeWidth cfg then
      if instrInstanceCrosses16ByteBoundary instrI then (curBlock, preDecQueue)
      else preDecodeBlock cfg rest (preDecQueue ++ [instrI])
    else (curBlock, preDecQueue)
  end.

(** [(instrI.address % 16) + instrI.instr.posNominalOpcode]. *)
Definition offsetOfNominalOpcode (instrI : InstrInstance) : Z :=
  address instrI `mod` 16 + posNominalOpcode (ii_instr instrI).

Definition set_predecoded (clock : Z) (instrI : InstrInstance) : InstrInstance :=
  {| ii_id := ii_id instrI; ii_instr := ii_instr instrI;
     address := address instrI; rnd := rnd instrI; ii_uops := ii_uops instrI;
     predecoded := Some clock; removedFromIQ := removedFromIQ instrI |}.

(** [sum(3 for ii in self.preDecQueue if ii.instr.lcpStall)]. *)
Definition lcpStallCycles (q : list InstrInstance) : Z :=
  3 * Z.of_nat (length (filter (fun ii => lcpStall (ii_instr ii) = true) q)).

(** The part of [PreDecoder.cycle] that takes instructions from the 16-byte
    blocks (the body of the [if] at the top of the method). *)
Definition preDecodeGroup (cfg : MicroArchConfig) (pd : PreDecoder) : PreDecoder :=
  let preDecQueue :=
    match partialInstrI pd with
    | Some instrI => preDecQueue pd ++ [instrI]
    | None => preDecQueue pd
    end in
  let '(blocks, preDecQueue, partialInstrI) :=
    match B16BlockQueue pd with
    | [] => ([], preDecQueue, None)
    | curBlock :: rest =>
      let '(curBlock, preDecQueue) := preDecodeBlock cfg curBlock preDecQueue in
      let '(curBlock, partialInstrI) :=
        match curBlock with
        | [instrI] =>
          if instrInstanceCrosses16ByteBoundary instrI
             && ((Z.of_nat (length preDecQueue) <? 5)
                 || (offsetOfNominalOpcode instrI >=? 16))
          then ([], Some instrI)
          else (curBlock, None)
        | _ => (curBlock, None)
        end in
      match curBlock with
      | [] => (rest, preDecQueue, partialInstrI)
      | _ => (curBlock :: rest, preDecQueue, partialInstrI)
      end
    end in
  {| B16BlockQueue := blocks;
     instructionQueue := instructionQueue pd;
     preDecQueue := preDecQueue;
     stalled := lcpStallCycles preDecQueue;
     partialInstrI := partialInstrI |}.

(** [PreDecoder.cycle]. *)
Definition PreDecoder_cycle (cfg : MicroArchConfig) (clock : Z)
    (pd : PreDecoder) : PreDecoder :=
  let pd :=
    if stalled pd =? 0 then
      let pd :=
        if bool_decide (preDecQueue pd = [])
           && (negb (bool_decide (B16BlockQueue pd = []))
               || bool_decide (is_Some (partialInstrI pd)))
           && (Z.of_nat (length (instructionQueue pd)) + preDecodeWidth cfg
               <=? IQWidth cfg)
        then preDecodeGroup cfg pd
        else pd in
      if stalled pd =? 0 then
        {| B16BlockQueue := B16BlockQueue pd;
           instructionQueue :=
             instructionQueue pd ++ map (set_predecoded clock) (preDecQueue pd);
           preDecQueue := [];
           stalled := stalled pd;
           partialInstrI := partialInstrI pd |}
      else pd
    else pd in
  {| B16BlockQueue := B16BlockQueue pd;
     instructionQueue := instructionQueue pd;
     preDecQueue := preDecQueue pd;
     stalled := Z.max 0 (stalled pd - 1);
     partialInstrI := partialInstrI pd |}.

(** The boundary rule of the predecoder as the specification words it: the
    instruction is held exactly when at least five instructions have been
    predecoded in the cycle and its nominal opcode lies in the next block;
    otherwise it is predecoded in this very cycle. *)
Definition predecodedInCycle (clock : Z) (pd' : PreDecoder)
    (instrI : InstrInstance) : Prop :=
  instrI ∈ preDecQueue pd' \/ set_predecoded clock instrI ∈ instructionQueue pd'.

Definition spec_boundary_rule : Prop :=
  forall (cfg : MicroArchConfig) (clock : Z) (pd : PreDecoder)
         (curBlock : list InstrInstance) (rest : list (list InstrInstance))
         (pre : list InstrInstance) (instrI : InstrInstance),
    stalled pd = 0 -> preDecQueue pd = [] ->
    B16BlockQueue pd = curBlock :: rest ->
    Z.of_nat (length (instructionQueue pd)) + preDecodeWidth cfg <= IQWidth cfg ->
    preDecodeBlock cfg curBlock (option_list (partialInstrI pd)) = ([instrI], pre) ->
    instrInstanceCrosses16ByteBoundary instrI = true ->
    let pd' := PreDecoder_cycle cfg clock pd in
    let held := (5 <= length pre)%nat /\ 16 <= offsetOfNominalOpcode instrI in
    (held -> ~ predecodedInCycle clock pd' instrI)
    /\ (~ held -> predecodedInCycle clock pd' instrI).

(** ** The reorder buffer *)

Module ReorderBuffer.

(** [uops] is the deque of fused uops in flight, [retireQueue] the deque
    shared with [main], which empties it after every cycle. *)
Record t := {
  uops : list nat;
  retireQueue : list nat
}.

(** [ReorderBuffer.__init__] with the empty deque that [main] passes. *)
Definition init : t := {| uops := []; retireQueue := [] |}.

Definition isEmpty (rb : t) : bool := bool_decide (uops rb = []).

Definition isFull (cfg : MicroArchConfig) (rb : t) : bool :=
  Z.of_nat (length (uops rb)) + issueWidth cfg >? RBWidth cfg.

(** [u.executed is not None and u.executed < clock]. *)
Definition executedBefore (clock : Z) (u : nat) : M bool :=
  let* uo := get_uop u in
  ret (match executed uo with
       | Some e => e <? clock
       | None => false
       end).

(** [all(... for u in unfusedUops)], which stops at the first failure. *)
Fixpoint allExecutedBefore (clock : Z) (us : list nat) : M bool :=
  match us with
  | [] => ret true
  | u :: rest =>
    let* b := executedBefore clock u in
    if b then allExecutedBefore clock rest else ret false
  end.

Definition set_retired (fo : FusedUop) (clock n : Z) : FusedUop :=
  {| fu_uops := fu_uops fo; issued := issued fo;
     retired := Some clock; retireIdx := Some n |}.

(** The loop [for _ in range(0, uArchConfig.retireWidth)] of [retireUops];
    [n] counts the iterations that are left. *)
Fixpoint retireLoop (n : nat) (clock nRetiredInSameCycle : Z) (rb : t) : M t :=
  match n with
  | O => ret rb
  | S n' =>
    match uops rb with
    | [] => ret rb
    | fusedUop :: rest =>
      let* fo := get_fused fusedUop in
      let* ok := allExecutedBefore clock (fu_uops fo) in
      if ok then
        let* _ := put_fused fusedUop (set_retired fo clock nRetiredInSameCycle) in
        retireLoop n' clock (nRetiredInSameCycle + 1)
          {| uops := rest; retireQueue := retireQueue rb ++ [fusedUop] |}
      else ret rb
    end
  end.

Definition retireUops (cfg : MicroArchConfig) (clock : Z) (rb : t) : M t :=
  retireLoop (Z.to_nat (retireWidth cfg)) clock 0 rb.

Definition set_executed (uo : Uop) (clock : Z) : Uop :=
  {| prop := prop uo; fusedUop := fusedUop uo; actualPort := actualPort uo;
     eliminated := eliminated uo;
     renamedInputOperands := renamedInputOperands uo;
     renamedOutputOperands := renamedOutputOperands uo;
     storeBufferEntry := storeBufferEntry uo;
     readyForDispatch := readyForDispatch uo;
     dispatched := dispatched uo; executed := Some clock |}.

(** [not uop.prop.possiblePorts]: no list, or an empty one. *)
Definition noPossiblePorts (p : UopProperties) : bool :=
  match possiblePorts p with
  | None | Some [] => true
  | Some (_ :: _) => false
  end.

(** The inner loop of [addUops] over the unfused uops of one fused uop. *)
Fixpoint markExecuted (clock : Z) (us : list nat) : M unit :=
  match us with
  | [] => ret tt
  | u :: rest =>
    let* uo := get_uop u in
    let* _ := if noPossiblePorts (prop uo) || eliminated uo
              then put_uop u (set_executed uo clock) else ret tt in
    markExecuted clock rest
  end.

Fixpoint addUops (clock : Z) (newUops : list nat) (rb : t) : M t :=
  match newUops with
  | [] => ret rb
  | fusedUop :: rest =>
    let* fo := get_fused fusedUop in
    let* _ := markExecuted clock (fu_uops fo) in
    addUops clock rest
      {| uops := uops rb ++ [fusedUop]; retireQueue := retireQueue rb |}
  end.

Definition cycle (cfg : MicroArchConfig) (clock : Z) (newUops : list nat)
    (rb : t) : M t :=
  let* rb := retireUops cfg clock rb in
  addUops clock newUops rb.

End ReorderBuffer.

(** *** The reorder buffer over several cycles

    Between two calls of [ReorderBuffer.cycle] the renamer, the scheduler and
    the front end work on the store; none of them writes [retired] or
    [retireIdx], and none of them changes the uops of a fused uop. *)
Definition preservesRetirement (env : Heap -> Heap) : Prop :=
  forall (h : Heap) (f : nat) (fo : FusedUop),
    h_fused h !! f = Some fo ->
    exists fo', h_fused (env h) !! f = Some fo'
                /\ retired fo' = retired fo /\ retireIdx fo' = retireIdx fo.

(** One entry per cycle: what the other components did to the store since
    the last cycle, and the fused uops the renamer issues in this cycle.
    [simulate] follows the loop of [main]: the clock goes up by one per
    cycle, and the retire queue is emptied into [log] after every cycle. *)
Fixpoint simulate (cfg : MicroArchConfig) (clock : Z)
    (steps : list ((Heap -> Heap) * list nat))
    (rb : ReorderBuffer.t) (log : list nat)
    : M (ReorderBuffer.t * list nat) :=
  match steps with
  | [] => ret (rb, log)
  | (env, issueUops) :: rest =>
    fun h =>
      match ReorderBuffer.cycle cfg clock issueUops rb (env h) with
      | Some (rb', h') =>
        simulate cfg (clock + 1) rest
          {| ReorderBuffer.uops := ReorderBuffer.uops rb';
             ReorderBuffer.retireQueue := [] |}
          (log ++ ReorderBuffer.retireQueue rb') h'
      | None => None
      end
  end.

(** Every unfused uop of the fused uop [f] has executed before [clock]. *)
Definition executedStrictlyBefore (h : Heap) (clock : Z) (f : nat) : Prop :=
  exists fo, h_fused h !! f = Some fo
    /\ Forall (fun u => exists uo e, h_uops h !! u = Some uo
                                     /\ executed uo = Some e /\ e < clock)
              (fu_uops fo).

(** [(retired, retireIdx)] of [f1] comes before that of [f2]. *)
Definition retiresBefore (h : Heap) (f1 f2 : nat) : Prop :=
  exists fo1 fo2 r1 k1 r2 k2,
    h_fused h !! f1 = Some fo1 /\ h_fused h !! f2 = Some fo2
    /\ retired fo1 = Some r1 /\ retireIdx fo1 = Some k1
    /\ retired fo2 = Some r2 /\ retireIdx fo2 = Some k2
    /\ (r1 < r2 \/ (r1 = r2 /\ k1 < k2)).

(** [f] has been retired, in a cycle before [clock]. *)
Definition retiredBy (h : Heap) (clock : Z) (f : nat) : Prop :=
  exists fo r k, h_fused h !! f = Some fo
    /\ retired fo = Some r /\ retireIdx fo = Some k /\ r < clock.

(** ** The loop of [main] *)

Module Main.

(** What the loop reads of a fused uop taken from the retire queue: the
    instruction (by its position in [instructions]) and the round of its
    first unfused uop, if it has one. *)
Record RetiredUop := {
  r_fusedUop : nat;
  r_first : option (nat * nat)
}.

Section Loop.

(** The simulator proper: [frontEnd.cycle()] works on the state of the front
    end, the reorder buffer and the scheduler at the current clock, and
    leaves in the retire queue the fused uops retired in this cycle; it may
    raise. *)
Variable Sim : Type.
Variable frontEnd_cycle : Z -> Sim -> option (Sim * list RetiredUop).

(** [len(instructions)]. *)
Variable nInstructions : nat.

Record LoopState := {
  sim : Sim;
  uopsForRound : list (gmap nat (list nat));
  rnd : nat;
  clock : Z
}.

(** [{instr: [] for instr in instructions}]. *)
Definition emptyRound : gmap nat (list nat) :=
  list_to_map (map (fun i => (i, [])) (seq 0 nInstructions)).

(** One iteration of [while retireQueue]; the [for] loop over the unfused
    uops is left at its first element. *)
Definition recordRetired (fusedUop : RetiredUop)
    (st : list (gmap nat (list nat)) * nat)
    : option (list (gmap nat (list nat)) * nat) :=
  match r_first fusedUop with
  | None => Some st
  | Some (instr, rnd) =>
    let uopsForRound :=
      if (length st.1 <=? rnd)%nat then st.1 ++ [emptyRound] else st.1 in
    match uopsForRound !! rnd with
    | None => None
    | Some d =>
      match d !! instr with
      | None => None
      | Some l =>
        Some (<[ rnd := <[ instr := l ++ [r_fusedUop fusedUop] ]> d ]> uopsForRound,
              rnd)
      end
    end
  end.

Fixpoint drainRetireQueue (retireQueue : list RetiredUop)
    (st : list (gmap nat (list nat)) * nat)
    : option (list (gmap nat (list nat)) * nat) :=
  match retireQueue with
  | [] => Some st
  | fusedUop :: rest =>
    match recordRetired fusedUop st with
    | Some st' => drainRetireQueue rest st'
    | None => None
    end
  end.

(** The body of the loop up to its exit test. *)
Definition body (st : LoopState) : option LoopState :=
  match frontEnd_cycle (clock st) (sim st) with
  | None => None
  | Some (sim', retireQueue) =>
    match drainRetireQueue retireQueue (uopsForRound st, rnd st) with
    | None => None
    | Some (uopsForRound', rnd') =>
      Some {| sim := sim'; uopsForRound := uopsForRound'; rnd := rnd';
              clock := clock st |}
    end
  end.

(** [rnd >= 10 and clock > 500]. *)
Definition exitCondition (st : LoopState) : bool :=
  (10 <=? rnd st)%nat && (clock st >? 500).

(** [clock += 1]. *)
Definition tick (st : LoopState) : LoopState :=
  {| sim := sim st; uopsForRound := uopsForRound st; rnd := rnd st;
     clock := clock st + 1 |}.

Inductive Outcome :=
  | Exited (st : LoopState)
  | Raised
  | Running.

(** [while True: ...], run for at most [fuel] iterations. *)
Fixpoint mainLoop (fuel : nat) (st : LoopState) : Outcome :=
  match fuel with
  | O => Running
  | S fuel' =>
    match body st with
    | None => Raised
    | Some st' =>
      if exitCondition st' then Exited st'
      else mainLoop fuel' (tick st')
    end
  end.

(** The state at the head of the loop after [k] iterations that neither
    raised nor left the loop. *)
Fixpoint loopHead (k : nat) (st : LoopState) : option LoopState :=
  match k with
  | O => Some st
  | S k' =>
    match body st with
    | None => None
    | Some st' =>
      if exitCondition st' then None else loopHead k' (tick st')
    end
  end.

(** The round of the last fused uop of the queue that has an unfused uop. *)
Definition lastRetiredRound (retireQueue : list RetiredUop) (rnd0 : nat) : nat :=
  default rnd0 (last (omap (fun f => snd <$> r_first f) retireQueue)).

End Loop.

End Main.

(** ** The scheduler *)

(** *** [heapq]

    The ready queues are lists kept in heap order by [heappush] and
    [heappop] of the standard library; their entries are the pairs
    [(uop.idx, uop)], which here are the references themselves.  [heappop]
    follows the library's algorithm: the last element replaces the root and
    is sifted to its place. *)
Module heapq.

Definition item (heap : list nat) (i : nat) : nat := default 0%nat (heap !! i).

(** The first loop of [_siftup]: the smaller child moves up until a leaf is
    reached; returns the heap and the position of the hole. *)
Fixpoint siftup_loop (fuel : nat) (heap : list nat) (pos : nat) : list nat * nat :=
  match fuel with
  | O => (heap, pos)
  | S fuel' =>
    let childpos := (2 * pos + 1)%nat in
    if (childpos <? length heap)%nat then
      let rightpos := (childpos + 1)%nat in
      let childpos :=
        if (rightpos <? length heap)%nat
           && negb (item heap childpos <? item heap rightpos)%nat
        then rightpos else childpos in
      siftup_loop fuel' (<[pos := item heap childpos]> heap) childpos
    else (heap, pos)
  end.

(** [_siftdown]: [newitem] moves up from [pos] while its parent is bigger. *)
Fixpoint siftdown_loop (fuel : nat) (heap : list nat) (startpos pos newitem : nat)
    : list nat :=
  match fuel with
  | O => <[pos := newitem]> heap
  | S fuel' =>
    if (startpos <? pos)%nat then
      let parentpos := ((pos - 1) / 2)%nat in
      let parent := item heap parentpos in
      if (newitem <? parent)%nat
      then siftdown_loop fuel' (<[pos := parent]> heap) startpos parentpos newitem
      else <[pos := newitem]> heap
    else <[pos := newitem]> heap
  end.

Definition siftup (heap : list nat) (pos : nat) : list nat :=
  let newitem := item heap pos in
  let '(heap, hole) := siftup_loop (length heap) heap pos in
  siftdown_loop (length heap) (<[hole := newitem]> heap) pos hole newitem.

(** [heappop]; [None] on the empty heap, which the caller never pops. *)
Definition heappop (heap : list nat) : option (nat * list nat) :=
  match heap with
  | [] => None
  | [lastelt] => Some (lastelt, [])
  | returnitem :: rest =>
    let lastelt := List.last rest returnitem in
    Some (returnitem, siftup (lastelt :: removelast rest) 0)
  end.

End heapq.

Module Scheduler.

(** The fields of [Scheduler] that issue and dispatch work on. *)
Record t := {
  uops : gset nat;
  portUsage : gmap Port Z;
  uopsDispatchedInPrevCycle : list nat;
  divBusy : Z;
  readyQueue : gmap Port (list nat);
  readyDivUops : list nat;
  pendingUops : gset nat
}.

Definition isFull (cfg : MicroArchConfig) (s : t) : bool :=
  Z.of_nat (size (uops s)) + issueWidth cfg >? RSWidth cfg.

(** [uop.storeBufferEntry.abstractAddress]; it raises when the uop has no
    store-buffer entry. *)
Definition fingerprint (u : nat) : M (option AbstractAddress) :=
  let* uo := get_uop u in
  match storeBufferEntry uo with
  | None => raise
  | Some s =>
    let* sb := get_sb s in
    ret (abstractAddress sb)
  end.

(** The test of the paired-store rule: the two fingerprints are there and
    differ in base, index or scale, or their displacements are at least 64
    apart. *)
Definition differentCacheLines (addr4 addr9 : option AbstractAddress) : bool :=
  match addr4, addr9 with
  | Some (b4, i4, s4, d4), Some (b9, i9, s9, d9) =>
    negb (b4 =? b9) || negb (i4 =? i9) || negb (s4 =? s9)
    || (Z.abs (d4 - d9) >=? 64)
  | _, _ => false
  end.

(** [applicablePorts.remove(p)]: the first occurrence goes. *)
Fixpoint remove_first (p : Port) (ports : list Port) : list Port :=
  match ports with
  | [] => []
  | q :: rest => if String.eqb p q then rest else q :: remove_first p rest
  end.

Definition isPort (p q : Port) : bool := String.eqb p q.

(** The first part of [dispatchUops]: the ports that may dispatch. *)
Definition applicablePorts (cfg : MicroArchConfig) (s : t) : M (list Port) :=
  let ports := allPorts cfg in
  if existsb (isPort "4") ports && existsb (isPort "9") ports then
    match readyQueue s !! "4"%string with
    | None => raise
    | Some q4 =>
      match q4 with
      | [] => ret ports
      | uop4 :: _ =>
        match readyQueue s !! "9"%string with
        | None => raise
        | Some q9 =>
          match q9 with
          | [] => ret ports
          | uop9 :: _ =>
            let* addr4 := fingerprint uop4 in
            let* addr9 := fingerprint uop9 in
            if differentCacheLines addr4 addr9 then
              if (uop4 <=? uop9)%nat then ret (remove_first "9" ports)
              else ret (remove_first "4" ports)
            else ret ports
          end
        end
      end
    end
  else ret ports.

Definition set_dispatched (uo : Uop) (clock : Z) : Uop :=
  {| prop := prop uo; fusedUop := fusedUop uo; actualPort := actualPort uo;
     eliminated := eliminated uo;
     renamedInputOperands := renamedInputOperands uo;
     renamedOutputOperands := renamedOutputOperands uo;
     storeBufferEntry := storeBufferEntry uo;
     readyForDispatch := readyForDispatch uo;
     dispatched := Some clock; executed := executed uo |}.

(** The test that sends the divider's oldest uop through port 0. *)
Definition divUopGoes (port : Port) (s : t) (queue : list nat) : bool :=
  isPort port "0" && (divBusy s =? 0)
  && match readyDivUops s with
     | [] => false
     | d :: _ =>
       match queue with
       | [] => true
       | u :: _ => (d <? u)%nat
       end
     end.

(** The loop [for port in applicablePorts]; next to each dispatched uop the
    list that is built keeps the port of the iteration that dispatched it
    ([uopsDispatched] is its second projection). *)
Fixpoint dispatchLoop (clock : Z) (ports : list Port) (s : t)
    (uopsDispatched : list (Port * nat)) : M (t * list (Port * nat)) :=
  match ports with
  | [] => ret (s, uopsDispatched)
  | port :: rest =>
    match readyQueue s !! port with
    | None => raise
    | Some q =>
      let viaDiv := divUopGoes port s q in
      let queue := if viaDiv then readyDivUops s else q in
      match heapq.heappop queue with
      | None => dispatchLoop clock rest s uopsDispatched
      | Some (uop, queue') =>
        let* uo := get_uop uop in
        let* _ := put_uop uop (set_dispatched uo clock) in
        if bool_decide (uop ∈ uops s) then
          dispatchLoop clock rest
            {| uops := uops s ∖ {[uop]};
               portUsage := portUsage s;
               uopsDispatchedInPrevCycle := uopsDispatchedInPrevCycle s;
               divBusy := divBusy s + divCycles (prop uo);
               readyQueue := if viaDiv then readyQueue s
                             else <[port := queue']> (readyQueue s);
               readyDivUops := if viaDiv then queue' else readyDivUops s;
               pendingUops := pendingUops s ∪ {[uop]} |}
            (uopsDispatched ++ [(port, uop)])
        else raise
      end
    end
  end.

(** [for uop in self.uopsDispatchedInPrevCycle:
       self.portUsage[uop.actualPort] -= 1]. *)
Fixpoint releasePorts (us : list nat) (usage : gmap Port Z) : M (gmap Port Z) :=
  match us with
  | [] => ret usage
  | u :: rest =>
    let* uo := get_uop u in
    match actualPort uo with
    | None => raise
    | Some p =>
      match usage !! p with
      | None => raise
      | Some n => releasePorts rest (<[p := n - 1]> usage)
      end
    end
  end.

Definition dispatchUops (cfg : MicroArchConfig) (clock : Z) (s : t)
    : M (t * list (Port * nat)) :=
  let* ports := applicablePorts cfg s in
  let* r := dispatchLoop clock ports s [] in
  let s := r.1 in
  let uopsDispatched := r.2 in
  let* usage := releasePorts (uopsDispatchedInPrevCycle s) (portUsage s) in
  ret ({| uops := uops s; portUsage := usage;
          uopsDispatchedInPrevCycle := uopsDispatched.*2;
          divBusy := divBusy s; readyQueue := readyQueue s;
          readyDivUops := readyDivUops s; pendingUops := pendingUops s |},
       uopsDispatched).



(** Two fingerprints name the same cache line. *)
Definition sameCacheLine (addr4 addr9 : AbstractAddress) : Prop :=
  let '(b4, i4, s4, d4) := addr4 in
  let '(b9, i9, s9, d9) := addr9 in
  b4 = b9 /\ i4 = i9 /\ s4 = s9 /\ Z.abs (d4 - d9) < 64.

End Scheduler.

(** The fingerprints differ in base, index or scale, or the displacements
    are at least 64 apart. *)
Definition indicateDifferentLines (addr4 addr9 : AbstractAddress) : Prop :=
  let '(b4, i4, s4, d4) := addr4 in
  let '(b9, i9, s9, d9) := addr9 in
  b4 <> b9 \/ i4 <> i9 \/ s4 <> s9 \/ 64 <= Z.abs (d4 - d9).

(** ** [computeUopProperties] *)

(** [UopProperties.__init__] with the flags it defaults to [False]. *)
Definition newUopProperties (ports : option (list Port))
    (inputOperands outputOperands : list Operand) (lat : gmap OperandId Z)
    (div : Z) (isLoad isStoreAddress : bool) (addr : option MemAddr)
    (isStoreData : bool) : UopProperties :=
  {| possiblePorts := ports; inputOperands := inputOperands;
     outputOperands := outputOperands; latencies := lat; divCycles := div;
     isLoadUop := isLoad; isStoreAddressUop := isStoreAddress;
     memAddr := addr; isStoreDataUop := isStoreData;
     isFirstUopOfInstr := false; isLastUopOfInstr := false;
     isRegMergeUop := false |}.

(** [list(pc)]: the port combination, a string, as the list of its
    characters. *)
Definition portsOf (pc : string) : list Port :=
  (fun c => String c EmptyString) <$> String.list_ascii_of_string pc.

(** [any((p in ports) for p in ps)]. *)
Definition anyPort (ps ports : list Port) : bool :=
  existsb (fun p => bool_decide (p ∈ ports)) ps.

Record PortCombinations := {
  loadPcs : list (list Port);
  storeAddressPcs : list (list Port);
  storeDataPcs : list (list Port);
  nonMemPcs : list (list Port)
}.

(** The loop [for pc, n in instr.portData.items()]. *)
Definition classifyPorts (portData : list (string * Z)) : PortCombinations :=
  foldl (fun pcs '(pc, n) =>
           let ports := portsOf pc in
           let copies := replicate (Z.to_nat n) ports in
           if anyPort ["7"; "8"]%string ports then
             {| loadPcs := loadPcs pcs;
                storeAddressPcs := storeAddressPcs pcs ++ copies;
                storeDataPcs := storeDataPcs pcs; nonMemPcs := nonMemPcs pcs |}
           else if anyPort ["2"; "3"]%string ports then
             {| loadPcs := loadPcs pcs ++ copies;
                storeAddressPcs := storeAddressPcs pcs;
                storeDataPcs := storeDataPcs pcs; nonMemPcs := nonMemPcs pcs |}
           else if anyPort ["4"; "9"]%string ports then
             {| loadPcs := loadPcs pcs;
                storeAddressPcs := storeAddressPcs pcs;
                storeDataPcs := storeDataPcs pcs ++ copies;
                nonMemPcs := nonMemPcs pcs |}
           else
             {| loadPcs := loadPcs pcs;
                storeAddressPcs := storeAddressPcs pcs;
                storeDataPcs := storeDataPcs pcs;
                nonMemPcs := nonMemPcs pcs ++ copies |})
        {| loadPcs := []; storeAddressPcs := []; storeDataPcs := [];
           nonMemPcs := [] |}
        portData.

(** The loop [while len(storeDataPcs) > len(storeAddressPcs)]; every
    iteration brings the two lengths one closer, so [fuel] iterations are
    enough when [fuel] is the length of [storeDataPcs]. *)
Fixpoint balanceStores (fuel : nat) (pcs : PortCombinations) : PortCombinations :=
  match fuel with
  | O => pcs
  | S fuel' =>
    if (length (storeAddressPcs pcs) <? length (storeDataPcs pcs))%nat then
      match last (loadPcs pcs) with
      | Some pc =>
        balanceStores fuel'
          {| loadPcs := removelast (loadPcs pcs);
             storeAddressPcs := storeAddressPcs pcs ++ [pc];
             storeDataPcs := storeDataPcs pcs; nonMemPcs := nonMemPcs pcs |}
      | None =>
        balanceStores fuel'
          {| loadPcs := loadPcs pcs;
             storeAddressPcs := storeAddressPcs pcs;
             storeDataPcs := removelast (storeDataPcs pcs);
             nonMemPcs := nonMemPcs pcs |}
      end
    else pcs
  end.

(** [ops[min(i, len(ops) - 1)].memAddr], or [None] on the empty list. *)
Definition memAddrAt (ops : list MemOperand) (i : nat) : option MemAddr :=
  mo_memAddr <$> ops !! (i `min` (length ops - 1))%nat.

(** [{op: v for op in ops}]. *)
Definition constLatencies (ops : list Operand) (v : Z) : gmap OperandId Z :=
  list_to_map ((fun op => (operand_id op, v)) <$> ops).

(** The loop over [loadPcs]; [next] numbers the pseudo operands created. *)
Fixpoint loadUops (instr : Instr) (hasNonMem : bool) (pcs : list (list Port))
    (i next : nat) : list UopProperties * list Operand * nat :=
  match pcs with
  | [] => ([], [], next)
  | pc :: rest =>
    let '(outputOperands, pseudo, next) :=
      if hasNonMem then ([PseudoOperand next], [PseudoOperand next], S next)
      else (OpReg <$> outputRegOperands instr, [], next) in
    let p := newUopProperties (Some pc) (OpReg <$> memAddrOperands instr)
               outputOperands (constLatencies outputOperands 5) 0
               true false (memAddrAt (inputMemOperands instr) i) false in
    let '(ps, pseudos, next) := loadUops instr hasNonMem rest (S i) next in
    (p :: ps, pseudo ++ pseudos, next)
  end.

(** The loop over [zip(storeAddressPcs, storeDataPcs)]. *)
Fixpoint storeUops (instr : Instr) (hasNonMem : bool)
    (pcs : list (list Port * list Port)) (i next : nat)
    : list UopProperties * list Operand * nat :=
  match pcs with
  | [] => ([], [], next)
  | (stAPc, stDPc) :: rest =>
    let stA := newUopProperties (Some stAPc) (OpReg <$> memAddrOperands instr)
                 [] ∅ 0 false true (memAddrAt (outputMemOperands instr) i)
                 false in
    let '(staDInputOperands, pseudo, next) :=
      if hasNonMem then ([PseudoOperand next], [PseudoOperand next], S next)
      else ((OpReg <$> inputRegOperands instr)
              ++ (OpFlag <$> inputFlagOperands instr), [], next) in
    let stD := newUopProperties (Some stDPc) staDInputOperands [] ∅ 0
                 false false None true in
    let '(ps, pseudos, next) := storeUops instr hasNonMem rest (S i) next in
    (stA :: stD :: ps, pseudo ++ pseudos, next)
  end.

(** [instr.latencies.get((inOp, outOp), 1)]. *)
Definition latencyBetween (instr : Instr) (inOp outOp : OperandId) : Z :=
  default 1 (instr_latencies instr !! (inOp, outOp)).

(** [all(instr.latencies.get((i,o)) == v for i in ins for o in outs)]. *)
Definition allLatencies (instr : Instr) (ins outs : list OperandId) (v : Z) : bool :=
  forallb (fun i =>
    forallb (fun o => bool_decide (instr_latencies instr !! (i, o) = Some v))
            outs) ins.

(** [max(xs or [1])] for a list built from values that are at least 1. *)
Definition maxOr1 (xs : list Z) : Z :=
  match xs with
  | [] => 1
  | x :: rest => foldl Z.max x rest
  end.

(** The special case for instructions like [SHL (R64, CL)]. *)
Definition isShiftLike (instr : Instr) (nonMem : list (list Port)) : bool :=
  let inR := reg_id <$> inputRegOperands instr in
  let outR := reg_id <$> outputRegOperands instr in
  let inF := flag_id <$> inputFlagOperands instr in
  let outF := flag_id <$> outputFlagOperands instr in
  bool_decide (memAddrOperands instr = [])
  && bool_decide (length nonMem = 3%nat)
  && negb (bool_decide (inR = [])) && negb (bool_decide (outR = []))
  && negb (bool_decide (inF = [])) && negb (bool_decide (outF = []))
  && allLatencies instr inR outR 1 && allLatencies instr inR outF 2
  && allLatencies instr inF outR 0 && allLatencies instr inF outF 2.

(** The dictionary [adjustedLatencies], filled by the four nested loops. *)
Definition adjustedLatencies (instr : Instr)
    (loadPseudoOps storePseudoOps : list Operand)
    : gmap (OperandId * OperandId) Z :=
  let regFlagIn :=
    (OpReg <$> inputRegOperands instr) ++ (OpFlag <$> inputFlagOperands instr)
    ++ (match agenOperands instr with
        | [] => []
        | _ => OpReg <$> memAddrOperands instr
        end) in
  let regFlagOut :=
    (OpReg <$> outputRegOperands instr)
    ++ (OpFlag <$> outputFlagOperands instr) in
  let outMem := mem_id <$> outputMemOperands instr in
  let d1 :=
    foldl (fun d inOp =>
      let d :=
        foldl (fun d outOp =>
                 <[ (operand_id inOp, operand_id outOp) :=
                      latencyBetween instr (operand_id inOp) (operand_id outOp) ]> d)
              d regFlagOut in
      foldl (fun d storePseudoOp =>
               <[ (operand_id inOp, operand_id storePseudoOp) :=
                    maxOr1 ((fun o => Z.max 1
                               (latencyBetween instr (operand_id inOp) o - 4))
                            <$> outMem) ]> d)
            d storePseudoOps)
      ∅ regFlagIn in
  let d2 :=
    foldl (fun d inMemAddrOp =>
      foldl (fun d loadPseudoOp =>
        foldl (fun d outOp =>
                 <[ (operand_id loadPseudoOp, operand_id outOp) :=
                      Z.max 1 (latencyBetween instr (reg_id inMemAddrOp)
                                 (operand_id outOp) - 5) ]> d)
              d regFlagOut)
        d loadPseudoOps)
      d1 (match agenOperands instr with
          | [] => memAddrOperands instr
          | _ => []
          end) in
  foldl (fun d inMemOp =>
    foldl (fun d loadPseudoOp =>
      foldl (fun d storePseudoOp =>
               <[ (operand_id loadPseudoOp, operand_id storePseudoOp) :=
                    maxOr1 ((fun o => Z.max 1
                               (latencyBetween instr (mem_id inMemOp) o - 5))
                            <$> outMem) ]> d)
            d storePseudoOps)
      d loadPseudoOps)
    d2 (inputMemOperands instr).

(** The dictionary [latClasses]: the inputs grouped by their largest latency
    to an output, each group in the order of the inputs. *)
Definition latClasses (adjusted : gmap (OperandId * OperandId) Z)
    (nonMemInputOperands nonMemOutputOperands : list Operand)
    : gmap Z (list Operand) :=
  foldl (fun classes inOp =>
           let latValues :=
             (fun outOp =>
                default 1 (adjusted !! (operand_id inOp, operand_id outOp)))
             <$> nonMemOutputOperands in
           let minLat := maxOr1 latValues in
           <[ minLat := default [] (classes !! minLat) ++ [inOp] ]> classes)
        ∅ nonMemInputOperands.

(** The loop over [nonMemPcs[1:]]: a uop per remaining latency class goes to
    the front, the others to the back; returns the uops put in front (the
    last one first), those put at the back, the pseudo operands that the base
    uop receives as inputs, and the counter. *)
Fixpoint otherNonMemUops (classes : gmap Z (list Operand))
    (nonMemInputOperands : list Operand) (minLatLevel : Z)
    (pcs : list (list Port)) (levels : list Z) (next : nat)
    : list UopProperties * list UopProperties * list Operand * nat :=
  match pcs with
  | [] => ([], [], [], next)
  | pc :: rest =>
    match levels with
    | latLevel :: levels' =>
      let pseudoOp := PseudoOperand next in
      let p := newUopProperties (Some pc) (default [] (classes !! latLevel))
                 [pseudoOp] {[ next := latLevel - minLatLevel ]} 0
                 false false None false in
      let '(front, back, pseudos, next') :=
        otherNonMemUops classes nonMemInputOperands minLatLevel rest levels'
          (S next) in
      (front ++ [p], back, pseudoOp :: pseudos, next')
    | [] =>
      let p := newUopProperties (Some pc) nonMemInputOperands [] ∅ 0
                 false false None false in
      let '(front, back, pseudos, next') :=
        otherNonMemUops classes nonMemInputOperands minLatLevel rest [] next in
      (front, p :: back, pseudos, next')
    end
  end.

(** The uops of the non-memory port combinations ([if nonMemPcs:]). *)
Definition nonMemUops (instr : Instr) (nonMem : list (list Port))
    (loadPseudoOps storePseudoOps : list Operand) (next : nat)
    : list UopProperties * nat :=
  match nonMem with
  | [] => ([], next)
  | pc0 :: others =>
    if isShiftLike instr nonMem then
      let rPseudoOp := PseudoOperand next in
      let fPseudoOp := PseudoOperand (S next) in
      let rOutputOperands := (OpReg <$> outputRegOperands instr) ++ [rPseudoOp] in
      let outF := OpFlag <$> outputFlagOperands instr in
      ([ newUopProperties (Some pc0) (OpReg <$> inputRegOperands instr)
           rOutputOperands (constLatencies rOutputOperands 1) 0
           false false None false;
         newUopProperties (nonMem !! 1%nat) (OpFlag <$> inputFlagOperands instr)
           [fPseudoOp] (constLatencies [fPseudoOp] 1) 0 false false None false;
         newUopProperties (nonMem !! 2%nat) [rPseudoOp; fPseudoOp]
           outF (constLatencies outF 1) 0 false false None false ],
       S (S next))
    else
      let nonMemInputOperands :=
        (OpReg <$> inputRegOperands instr)
        ++ (OpFlag <$> inputFlagOperands instr)
        ++ (match agenOperands instr with
            | [] => []
            | _ => OpReg <$> memAddrOperands instr
            end)
        ++ loadPseudoOps in
      let nonMemOutputOperands :=
        (OpReg <$> outputRegOperands instr)
        ++ (OpFlag <$> outputFlagOperands instr) ++ storePseudoOps in
      let adjusted := adjustedLatencies instr loadPseudoOps storePseudoOps in
      let classes := latClasses adjusted nonMemInputOperands nonMemOutputOperands in
      let levels := merge_sort Z.le (map_to_list classes).*1 in
      let '(minLatLevel, remainingLatClassLevels) :=
        match levels with
        | [] => (1, [])
        | l :: ls => (l, ls)
        end in
      let minLatClass := default [] (classes !! minLatLevel) in
      let baseUopLatencies : gmap OperandId Z :=
        list_to_map
          ((fun outOp =>
              (operand_id outOp,
               match minLatClass with
               | [] => 1
               | _ => maxOr1 ((fun inOp =>
                                 default 1 (adjusted !! (operand_id inOp,
                                                         operand_id outOp)))
                              <$> minLatClass)
               end))
           <$> nonMemOutputOperands) in
      let '(front, back, pseudos, next') :=
        otherNonMemUops classes nonMemInputOperands minLatLevel others
          remainingLatClassLevels next in
      let baseUopProp :=
        newUopProperties (Some pc0) (minLatClass ++ pseudos)
          nonMemOutputOperands baseUopLatencies (instr_divCycles instr)
          false false None false in
      (front ++ [baseUopProp] ++ back, next')
  end.

(** The uops of an instruction before padding and flagging:
    [loadUopProps + list(nonMemUopProps) + storeUopProps]. *)
Definition uopPropertiesOf (instr : Instr) (next : nat)
    : list UopProperties * nat :=
  let pcs0 := classifyPorts (portData instr) in
  let pcs := balanceStores (length (storeDataPcs pcs0)) pcs0 in
  let hasNonMem := negb (bool_decide (nonMemPcs pcs = [])) in
  let '(loadUopProps, loadPseudoOps, next) :=
    loadUops instr hasNonMem (loadPcs pcs) 0 next in
  let '(storeUopProps, storePseudoOps, next) :=
    storeUops instr hasNonMem (zip (storeAddressPcs pcs) (storeDataPcs pcs))
      0 next in
  let '(nonMemUopProps, next) :=
    nonMemUops instr (nonMemPcs pcs) loadPseudoOps storePseudoOps next in
  (loadUopProps ++ nonMemUopProps ++ storeUopProps, next).

(** [UopProperties(instr, None, [], [], {})]. *)
Definition portlessUop : UopProperties :=
  newUopProperties None [] [] ∅ 0 false false None false.

Definition set_isFirstUopOfInstr (p : UopProperties) : UopProperties :=
  {| possiblePorts := possiblePorts p; inputOperands := inputOperands p;
     outputOperands := outputOperands p; latencies := latencies p;
     divCycles := divCycles p; isLoadUop := isLoadUop p;
     isStoreAddressUop := isStoreAddressUop p; memAddr := memAddr p;
     isStoreDataUop := isStoreDataUop p; isFirstUopOfInstr := true;
     isLastUopOfInstr := isLastUopOfInstr p;
     isRegMergeUop := isRegMergeUop p |}.

Definition set_isLastUopOfInstr (p : UopProperties) : UopProperties :=
  {| possiblePorts := possiblePorts p; inputOperands := inputOperands p;
     outputOperands := outputOperands p; latencies := latencies p;
     divCycles := divCycles p; isLoadUop := isLoadUop p;
     isStoreAddressUop := isStoreAddressUop p; memAddr := memAddr p;
     isStoreDataUop := isStoreDataUop p;
     isFirstUopOfInstr := isFirstUopOfInstr p; isLastUopOfInstr := true;
     isRegMergeUop := isRegMergeUop p |}.

Definition set_UopPropertiesList (instr : Instr) (l : list UopProperties) : Instr :=
  {| asm := asm instr; opcode := opcode instr;
     posNominalOpcode := posNominalOpcode instr; instrStr := instrStr instr;
     portData := portData instr; instr_uops := instr_uops instr;
     retireSlots := retireSlots instr; uopsMITE := uopsMITE instr;
     uopsMS := uopsMS instr; instr_divCycles := instr_divCycles instr;
     inputRegOperands := inputRegOperands instr;
     inputFlagOperands := inputFlagOperands instr;
     inputMemOperands := inputMemOperands instr;
     outputRegOperands := outputRegOperands instr;
     outputFlagOperands := outputFlagOperands instr;
     outputMemOperands := outputMemOperands instr;
     memAddrOperands := memAddrOperands instr;
     agenOperands := agenOperands instr;
     instr_latencies := instr_latencies instr; TP := TP instr;
     immediate := immediate instr; lcpStall := lcpStall instr;
     implicitRSPChange := implicitRSPChange instr;
     mayBeEliminated := mayBeEliminated instr;
     complexDecoder := complexDecoder instr;
     nAvailableSimpleDecoders := nAvailableSimpleDecoders instr;
     hasLockPrefix := hasLockPrefix instr; isBranchInstr := isBranchInstr instr;
     isSerializingInstr := isSerializingInstr instr;
     isLoadSerializing := isLoadSerializing instr;
     isStoreSerializing := isStoreSerializing instr;
     macroFusibleWith := macroFusibleWith instr;
     macroFusedWithPrevInstr := macroFusedWithPrevInstr instr;
     macroFusedWithNextInstr := macroFusedWithNextInstr instr;
     UopPropertiesList := l;
     regMergeUopPropertiesList := regMergeUopPropertiesList instr;
     isFirstInstruction := isFirstInstruction instr;
     isUnknownInstr := isUnknownInstr instr |}.

(** The end of the loop body: padding to [retireSlots] and the two flags;
    [UopPropertiesList[0]] raises on the empty list. *)
Definition padAndFlag (slots : Z) (l : list UopProperties)
    : option (list UopProperties) :=
  let l := l ++ replicate (Z.to_nat (slots - Z.of_nat (length l))) portlessUop in
  match l with
  | [] => None
  | _ =>
    let l := alter set_isFirstUopOfInstr 0%nat l in
    Some (alter set_isLastUopOfInstr (length l - 1)%nat l)
  end.

(** The body of the loop of [computeUopProperties] for one instruction that
    is not fused with its predecessor. *)
Definition computeUopPropertiesOf (instr : Instr) (next : nat)
    : option (Instr * nat) :=
  let '(l, next) := uopPropertiesOf instr next in
  match padAndFlag (retireSlots instr) l with
  | None => None
  | Some l => Some (set_UopPropertiesList instr l, next)
  end.

Fixpoint computeUopProperties (instructions : list Instr) (next : nat)
    : option (list Instr * nat) :=
  match instructions with
  | [] => Some ([], next)
  | instr :: rest =>
    if macroFusedWithPrevInstr instr then
      match computeUopProperties rest next with
      | Some (rest', next') => Some (instr :: rest', next')
      | None => None
      end
    else
      match computeUopPropertiesOf instr next with
      | None => None
      | Some (instr', next) =>
        match computeUopProperties rest next with
        | Some (rest', next') => Some (instr' :: rest', next')
        | None => None
        end
      end
  end.

(** *** What [computeUopProperties] leaves in [UopPropertiesList] *)

(** The constructor leaves both flags unset. *)
Definition unflagged (p : UopProperties) : Prop :=
  isFirstUopOfInstr p = false /\ isLastUopOfInstr p = false.

(** A uop's properties with the two flags as the constructor leaves them. *)
Definition clearFlags (p : UopProperties) : UopProperties :=
  {| possiblePorts := possiblePorts p; inputOperands := inputOperands p;
     outputOperands := outputOperands p; latencies := latencies p;
     divCycles := divCycles p; isLoadUop := isLoadUop p;
     isStoreAddressUop := isStoreAddressUop p; memAddr := memAddr p;
     isStoreDataUop := isStoreDataUop p; isFirstUopOfInstr := false;
     isLastUopOfInstr := false; isRegMergeUop := isRegMergeUop p |}.

(** At least [slots] entries; the first entry and no other is flagged as the
    first uop, the last entry and no other as the last uop. *)
Definition firstAndLastFlagged (slots : Z) (l : list UopProperties) : Prop :=
  slots <= Z.of_nat (length l)
  /\ (0 < length l)%nat
  /\ forall i p, l !! i = Some p ->
       (isFirstUopOfInstr p = true <-> i = 0%nat)
       /\ (isLastUopOfInstr p = true <-> i = (length l - 1)%nat).

(** The list is [base] followed by portless uops up to [slots] entries, the
    flags apart. *)
Definition paddedFrom (slots : Z) (base l : list UopProperties) : Prop :=
  clearFlags <$> l
  = base ++ replicate (Z.to_nat (slots - Z.of_nat (length base))) portlessUop.

(** What the loop body does to one instruction. *)
Definition uopPropertiesComputed (instr instr' : Instr) : Prop :=
  if macroFusedWithPrevInstr instr then instr' = instr
  else
    exists next l,
      instr' = set_UopPropertiesList instr l
      /\ firstAndLastFlagged (retireSlots instr) l
      /\ paddedFrom (retireSlots instr) (uopPropertiesOf instr next).1 l.

(** ** [getInstructions]: looking an instruction up *)

(** Dictionaries whose order matters ([dict], [OrderedDict]), as association
    lists: a key is looked up and replaced at its first occurrence, a new key
    goes to the end. *)
Section Dict.

Context {K V : Type} `{EqDecision K}.

Definition dict_get (k : K) (d : list (K * V)) : option V :=
  snd <$> find (fun kv => bool_decide (kv.1 = k)) d.

Fixpoint dict_set (k : K) (v : V) (d : list (K * V)) : list (K * V) :=
  match d with
  | [] => [(k, v)]
  | (k', v') :: rest =>
    if decide (k' = k) then (k, v) :: rest else (k', v') :: dict_set k v rest
  end.

Definition dict_del (k : K) (d : list (K * V)) : list (K * V) :=
  filter (fun kv => kv.1 <> k) d.

End Dict.

(** Folding a step that may raise. *)
Fixpoint foldlO {A B : Type} (f : B -> A -> option B) (l : list A) (b : B)
    : option B :=
  match l with
  | [] => Some b
  | x :: rest =>
    match f b x with
    | Some b' => foldlO f rest b'
    | None => None
    end
  end.

(** The fields of an instruction that are assigned after its constructor
    has run. *)
Definition updateInstr (instr : Instr) (portData' : list (string * Z))
    (uops' : Z) (fusedWithPrev fusedWithNext first : bool) : Instr :=
  {| asm := asm instr; opcode := opcode instr;
     posNominalOpcode := posNominalOpcode instr; instrStr := instrStr instr;
     portData := portData'; instr_uops := uops';
     retireSlots := retireSlots instr; uopsMITE := uopsMITE instr;
     uopsMS := uopsMS instr; instr_divCycles := instr_divCycles instr;
     inputRegOperands := inputRegOperands instr;
     inputFlagOperands := inputFlagOperands instr;
     inputMemOperands := inputMemOperands instr;
     outputRegOperands := outputRegOperands instr;
     outputFlagOperands := outputFlagOperands instr;
     outputMemOperands := outputMemOperands instr;
     memAddrOperands := memAddrOperands instr;
     agenOperands := agenOperands instr;
     instr_latencies := instr_latencies instr; TP := TP instr;
     immediate := immediate instr; lcpStall := lcpStall instr;
     implicitRSPChange := implicitRSPChange instr;
     mayBeEliminated := mayBeEliminated instr;
     complexDecoder := complexDecoder instr;
     nAvailableSimpleDecoders := nAvailableSimpleDecoders instr;
     hasLockPrefix := hasLockPrefix instr; isBranchInstr := isBranchInstr instr;
     isSerializingInstr := isSerializingInstr instr;
     isLoadSerializing := isLoadSerializing instr;
     isStoreSerializing := isStoreSerializing instr;
     macroFusibleWith := macroFusibleWith instr;
     macroFusedWithPrevInstr := fusedWithPrev;
     macroFusedWithNextInstr := fusedWithNext;
     UopPropertiesList := UopPropertiesList instr;
     regMergeUopPropertiesList := regMergeUopPropertiesList instr;
     isFirstInstruction := first;
     isUnknownInstr := isUnknownInstr instr |}.

(** [instruction.isFirstInstruction = True]. *)
Definition set_isFirstInstruction (instr : Instr) : Instr :=
  updateInstr instr (portData instr) (instr_uops instr)
    (macroFusedWithPrevInstr instr) (macroFusedWithNextInstr instr) true.

(** [instruction.macroFusedWithPrevInstr = True]. *)
Definition set_macroFusedWithPrevInstr (instr : Instr) : Instr :=
  updateInstr instr (portData instr) (instr_uops instr)
    true (macroFusedWithNextInstr instr) (isFirstInstruction instr).

(** [set(instrPorts).issubset(set(p))]. *)
Definition issubset (instrPorts p : string) : bool :=
  forallb (fun c => bool_decide (c ∈ portsOf p)) (portsOf instrPorts).

(** The loop that renames, in a copy of the port data of the previous
    instruction, the first port combination that contains [instrPorts]. *)
Definition fusePortData (instrPorts : string) (prevPortData : list (string * Z))
    : list (string * Z) :=
  match find (fun pu => issubset instrPorts pu.1) prevPortData with
  | Some (p, u) => dict_set instrPorts u (dict_del p prevPortData)
  | None => prevPortData
  end.

(** What macro-fusion assigns to [prevInstr]. *)
Definition fuseWithNext (prevInstr instruction : Instr) (instrPorts : string)
    : Instr :=
  if instr_uops prevInstr =? 0 then
    updateInstr prevInstr (portData instruction) (instr_uops instruction)
      (macroFusedWithPrevInstr prevInstr) true (isFirstInstruction prevInstr)
  else
    updateInstr prevInstr (fusePortData instrPorts (portData prevInstr))
      (instr_uops prevInstr)
      (macroFusedWithPrevInstr prevInstr) true (isFirstInstruction prevInstr).

(** The end of the loop body of [getInstructions] (from the comment
    [# Macro-fusion] to [instructions.append(instruction)]);
    [list(instruction.portData.keys())[0]] raises when there is no port
    data. *)
Definition addInstruction (instructions : list Instr) (instruction : Instr)
    : option (list Instr) :=
  match last instructions with
  | Some prevInstr =>
    if bool_decide (instrStr instruction ∈ macroFusibleWith prevInstr) then
      match portData instruction with
      | [] => None
      | (instrPorts, _) :: _ =>
        Some (removelast instructions
                ++ [fuseWithNext prevInstr instruction instrPorts;
                    set_macroFusedWithPrevInstr instruction])
      end
    else Some (instructions ++ [instruction])
  | None => Some (instructions ++ [set_isFirstInstruction instruction])
  end.

(** An instruction as the disassembler reports it ([instrD]); only the
    fields read by the lookup. *)
Record InstrD := {
  d_asm : string;
  d_opcode : string;
  iform : string;
  attributes : gmap string string
}.

(** [all(instrD.attributes.get(k, '0') == v for k, v in attrData.items())]. *)
Definition attributesMatch (instrD : InstrD) (attrData : list (string * string))
    : bool :=
  forallb (fun kv => bool_decide (default "0"%string (attributes instrD !! kv.1)
                                  = kv.2)) attrData.

Section Lookup.

(** The tables of the microarchitecture ([archData.instrData] and
    [archData.attrData]); an entry of the first names its attributes by
    [instrData['attr']].  The construction of the [Instr] from a matching
    entry (the body of the [if] up to [break]) is kept abstract; it may
    raise. *)
Variable InstrData : Type.
Variable attrOf : InstrData -> string.
Variable archInstrData : gmap string (list InstrData).
Variable archAttrData : gmap string (list (string * string)).
Variable buildInstr : InstrD -> InstrData -> option Instr.

(** The loop [for instrData in archData.instrData.get(instrD.iform, [])]:
    the instruction built from the first matching entry, if there is one. *)
Fixpoint findInstr (instrD : InstrD) (entries : list InstrData)
    : option (option Instr) :=
  match entries with
  | [] => Some None
  | instrData :: rest =>
    match archAttrData !! attrOf instrData with
    | None => None
    | Some attrData =>
      if attributesMatch instrD attrData then
        match buildInstr instrD instrData with
        | Some instruction => Some (Some instruction)
        | None => None
        end
      else findInstr instrD rest
    end
  end.

(** From [instruction = None] to the test [if instruction is None]. *)
Definition lookupInstruction (instrD : InstrD) (posNominalOpcode : Z)
    : option Instr :=
  match findInstr instrD (default [] (archInstrData !! iform instrD)) with
  | None => None
  | Some (Some instruction) => Some instruction
  | Some None =>
    Some (UnknownInstr (d_asm instrD) (d_opcode instrD) posNominalOpcode)
  end.

(** No entry of the table for the instruction's iform matches it. *)
Definition noMatchingEntry (instrD : InstrD) : Prop :=
  Forall (fun instrData =>
            exists attrData,
              archAttrData !! attrOf instrData = Some attrData
              /\ attributesMatch instrD attrData = false)
         (default [] (archInstrData !! iform instrD)).

End Lookup.
(** ** [getUopsTableColumns] *)

(** A cell of the table: a number (Python floats, here rationals) or a
    note. *)
Inductive Cell :=
| Num (q : Q)
| Str (s : string).

Definition Columns := list (string * list Cell).

Record TableLineData := {
  tld_string : string;
  tld_instr : option Instr;
  tld_url : option string;
  uopsForRnd : list (list LaminatedUop)
}.

(** Truth value of a cell. *)
Definition truthy (c : Cell) : bool :=
  match c with
  | Num q => negb (Qeq_bool q 0)
  | Str s => negb (bool_decide (s = ""%string))
  end.

(** [any(uop.prop.divCycles for tld in tableLineData
         for lamUop in tld.uopsForRnd[0] for uop in lamUop.getUnfusedUops())]. *)
Fixpoint anyDivCycles (tableLineData : list TableLineData) : option bool :=
  match tableLineData with
  | [] => Some false
  | tld :: rest =>
    match uopsForRnd tld with
    | [] => None
    | lamUops :: _ =>
      if existsb (fun uop => negb (divCycles (u_prop uop) =? 0))
                 (concat (getUnfusedUops <$> lamUops))
      then Some true
      else anyDivCycles rest
    end
  end.

(** [for c in columns.values(): c.append(0.0)]. *)
Definition appendZero (columns : Columns) : Columns :=
  (fun kc => (kc.1, kc.2 ++ [Num 0%Q])) <$> columns.

(** [columns[k][-1] = v]. *)
Definition setLast (k : string) (v : Cell) (columns : Columns)
    : option Columns :=
  match dict_get k columns with
  | None | Some [] => None
  | Some c => Some (dict_set k (removelast c ++ [v]) columns)
  end.

(** [columns[k][-1] += v]. *)
Definition addToLast (k : string) (v : Q) (columns : Columns)
    : option Columns :=
  match dict_get k columns with
  | None => None
  | Some c =>
    match last c with
    | Some (Num q) => Some (dict_set k (removelast c ++ [Num (q + v)%Q]) columns)
    | _ => None
    end
  end.

(** [for c in columns.values(): c[-1] = c[-1] / n]. *)
Fixpoint divideLast (n : Q) (columns : Columns) : option Columns :=
  match columns with
  | [] => Some []
  | (k, c) :: rest =>
    match last c with
    | Some (Num q) =>
      match divideLast n rest with
      | Some rest' => Some ((k, removelast c ++ [Num (q / n)%Q]) :: rest')
      | None => None
      end
    | _ => None
    end
  end.

(** The body of the loop over the unfused uops of a fused uop;
    [uop.actualPort] is read from the object store. *)
Definition countUop (h : Heap) (columns : Columns) (uop : UopNode)
    : option Columns :=
  match h_uops h !! u_idx uop with
  | None => None
  | Some o =>
    match
      match actualPort o with
      | Some p =>
        match addToLast "Exec." 1%Q columns with
        | Some columns => addToLast ("Port " +:+ p) 1%Q columns
        | None => None
        end
      | None => Some columns
      end
    with
    | None => None
    | Some columns =>
      if divCycles (u_prop uop) =? 0 then Some columns
      else addToLast "Div" (inject_Z (divCycles (u_prop uop))) columns
    end
  end.

Definition countFusedUop (h : Heap) (columns : Columns) (fusedUop : FusedNode)
    : option Columns :=
  match addToLast "Issued" 1%Q columns with
  | Some columns => foldlO (countUop h) fusedUop columns
  | None => None
  end.

Definition countLamUop (h : Heap) (columns : Columns) (lamUop : LaminatedUop)
    : option Columns :=
  match
    match uopSource lamUop with
    | Some s =>
      if bool_decide (s ∈ ["MITE"; "MS"; "DSB"; "LSD"]%string)
      then addToLast s 1%Q columns else Some columns
    | None => Some columns
    end
  with
  | Some columns => foldlO (countFusedUop h) (getFusedUops lamUop) columns
  | None => None
  end.

(** The body of the loop [for tld in tableLineData]; a line without
    instruction raises at [tld.instr.macroFusedWithPrevInstr]. *)
Definition tableLine (h : Heap) (columns : Columns) (tld : TableLineData)
    : option Columns :=
  let columns := appendZero columns in
  match tld_instr tld with
  | None => None
  | Some instr =>
    if isUnknownInstr instr then setLast "Notes" (Str "X") columns
    else if macroFusedWithPrevInstr instr then
      setLast "Notes" (Str "M") columns
    else
      match foldlO (fun columns lamUops => foldlO (countLamUop h) lamUops columns)
                   (uopsForRnd tld) columns with
      | None => None
      | Some columns =>
        match uopsForRnd tld with
        | [] => None
        | _ => divideLast (inject_Z (Z.of_nat (length (uopsForRnd tld)))) columns
        end
      end
  end.

Definition columnKeys (cfg : MicroArchConfig) (hasDiv : bool) : list string :=
  ["MITE"; "MS"; "DSB"; "LSD"; "Issued"; "Exec."]%string
  ++ ((fun p => "Port " +:+ p) <$> allPorts cfg)
  ++ (if hasDiv then ["Div"%string] else [])
  ++ ["Notes"%string].

Definition getUopsTableColumns (cfg : MicroArchConfig) (h : Heap)
    (tableLineData : list TableLineData) : option Columns :=
  match anyDivCycles tableLineData with
  | None => None
  | Some hasDiv =>
    let columns : Columns :=
      foldl (fun d k => dict_set k [] d) [] (columnKeys cfg hasDiv) in
    match foldlO (tableLine h) tableLineData columns with
    | None => None
    | Some columns =>
      match dict_get "Notes"%string columns with
      | None => None
      | Some notes =>
        Some (if existsb truthy notes then columns
              else dict_del "Notes"%string columns)
      end
    end
  end.

(** Two tables with the same keys whose columns agree except, possibly, in
    their last cells. *)
Definition sameButLast (columns columns' : Columns) : Prop :=
  forall k c,
    dict_get k columns = Some c ->
    exists c', dict_get k columns' = Some c'
               /\ removelast c' = removelast c /\ length c' = length c.

(** The single uop of an instruction without port data and with one retire
    slot, as [computeUopProperties] leaves it. *)
Definition onlyUop : UopProperties :=
  set_isLastUopOfInstr (set_isFirstUopOfInstr portlessUop).

(** ** [FrontEnd.cycle]: what leaves and what enters the queues *)

Definition nonempty {A : Type} (l : list A) : bool :=
  match l with
  | [] => false
  | _ :: _ => true
  end.

(** *** [Renamer.cycle]: the uops taken from the IDQ

    The loop [while self.IDQ] at the top of the method.  [renamerUops] is
    the list of fused uops that are issued, [sel_IDQ] what stays in the
    IDQ (the deque that the renamer shares with the front end);
    [lastRegMergeIssued] holds the [idx] of the uop it refers to, and
    [regMergeUops] the lists [instrI.regMergeUops]. *)
Record Selection := {
  renamerUops : list FusedNode;
  sel_IDQ : list LaminatedUop;
  lastRegMergeIssued : option nat;
  sel_idx_iter : nat;
  regMergeUops : gmap nat (list LaminatedUop)
}.

(** [Uop(mergeProp, firstUnfusedUop.instrI)]. *)
Definition mergeUop (firstUnfusedUop : UopNode) (idx : nat)
    (mergeProp : UopProperties) : UopNode :=
  {| u_idx := idx; u_prop := mergeProp; u_instr := u_instr firstUnfusedUop;
     u_instrI := u_instrI firstUnfusedUop; isStackSyncUop := false |}.

Definition mergeUopsOf (firstUnfusedUop : UopNode) (idx : nat)
    (regMergeProps : list UopProperties) : list FusedNode :=
  imap (fun i mergeProp => [mergeUop firstUnfusedUop (idx + i) mergeProp])
       regMergeProps.

Fixpoint selectUops (cfg : MicroArchConfig) (rbEmpty : bool)
    (IDQ : list LaminatedUop) (renamerUops : list FusedNode)
    (lastRegMergeIssued : option nat) (idx_iter : nat)
    (regMergeUops : gmap nat (list LaminatedUop)) : option Selection :=
  let stop :=
    Some {| renamerUops := renamerUops; sel_IDQ := IDQ;
            lastRegMergeIssued := lastRegMergeIssued;
            sel_idx_iter := idx_iter; regMergeUops := regMergeUops |} in
  match IDQ with
  | [] => stop
  | lamUop :: rest =>
    match getUnfusedUops lamUop with
    | [] => None
    | firstUnfusedUop :: _ =>
      let instr := u_instr firstUnfusedUop in
      let regMergeProps := regMergeUopPropertiesList instr in
      let first := isFirstUopOfInstr (u_prop firstUnfusedUop) in
      let take :=
        if first && isSerializingInstr instr && negb rbEmpty then stop
        else
          let fusedUops := getFusedUops lamUop in
          if issueWidth cfg
             <? Z.of_nat (length renamerUops + length fusedUops)
          then stop
          else selectUops cfg rbEmpty rest (renamerUops ++ fusedUops)
                 lastRegMergeIssued idx_iter regMergeUops in
      if first && nonempty regMergeProps then
        if nonempty renamerUops then stop
        else if bool_decide (lastRegMergeIssued = Some (u_idx firstUnfusedUop))
        then take
        else
          let merged := mergeUopsOf firstUnfusedUop idx_iter regMergeProps in
          Some {| renamerUops := renamerUops ++ merged; sel_IDQ := IDQ;
                  lastRegMergeIssued := Some (u_idx firstUnfusedUop);
                  sel_idx_iter := (idx_iter + length regMergeProps)%nat;
                  regMergeUops :=
                    <[ u_instrI firstUnfusedUop :=
                         default [] (regMergeUops !! u_instrI firstUnfusedUop)
                         ++ ((fun f => {| getFusedUops := [f];
                                          addedToIDQ := None;
                                          uopSource := None |}) <$> merged) ]>
                      regMergeUops |}
      else take
    end
  end.

(** The test at the top of [FrontEnd.cycle]: the renamer runs when neither
    the reorder buffer nor the scheduler is full. *)
Definition mayIssue (cfg : MicroArchConfig) (rb : ReorderBuffer.t)
    (rs : Scheduler.t) : bool :=
  negb (ReorderBuffer.isFull cfg rb) && negb (Scheduler.isFull cfg rs).

(** *** The uops that enter the IDQ *)

(** [len(self.IDQ) + uArchConfig.DSBWidth > uArchConfig.IDQWidth]. *)
Definition IDQFull (cfg : MicroArchConfig) (fe : FrontEnd) : bool :=
  Z.of_nat (length (IDQ fe)) + DSBWidth cfg >? IDQWidth cfg.

Definition extend_IDQ (fe : FrontEnd) (lamUops : list LaminatedUop) : FrontEnd :=
  {| IDQ := IDQ fe ++ lamUops; RSPOffset := RSPOffset fe;
     stackSyncUops := stackSyncUops fe; idx_iter := idx_iter fe;
     op_iter := op_iter fe |}.

(** [lamUop.addedToIDQ = clock]. *)
Definition set_addedToIDQ (clock : Z) (lamUop : LaminatedUop) : LaminatedUop :=
  {| getFusedUops := getFusedUops lamUop; addedToIDQ := Some clock;
     uopSource := uopSource lamUop |}.

(** [uop.uopSource = 'LSD']. *)
Definition set_uopSource (source : string) (lamUop : LaminatedUop)
    : LaminatedUop :=
  {| getFusedUops := getFusedUops lamUop; addedToIDQ := addedToIDQ lamUop;
     uopSource := Some source |}.

(** What the source of uops delivers in a cycle: the cache blocks that
    [next(self.cacheBlockGenerator)] yields (simple front end), the rounds
    that [next(self.cacheBlocksForNextRoundGenerator)] yields (loop stream
    detector), or the list [newUops] that [FrontEnd.cycle] gets from the
    microcode sequencer, the decoders or the DSB. *)
Inductive Supply :=
| SimpleSupply (cacheBlocks : list (list InstrInstance))
| LSDSupply (rounds : list (list (list InstrInstance)))
| UopSupply (newUops : list LaminatedUop).

Section FillIDQ.

Variable getCanonicalReg : string -> string.

(** The loop [for lamUop in newUops] at the end of [FrontEnd.cycle]. *)
Fixpoint appendNewUops (cfg : MicroArchConfig) (clock : Z)
    (newUops : list LaminatedUop) (fe : FrontEnd) : option FrontEnd :=
  match newUops with
  | [] => Some fe
  | lamUop :: rest =>
    match getUnfusedUops lamUop with
    | [] => None
    | uop :: _ =>
      let fe := addStackSyncUop getCanonicalReg cfg clock uop fe in
      appendNewUops cfg clock rest
        (extend_IDQ fe [set_addedToIDQ clock lamUop])
    end
  end.

(** The simple front end: the loop [for lamUop in instrI.uops]. *)
Fixpoint appendUnfused (cfg : MicroArchConfig) (clock : Z)
    (lamUops : list LaminatedUop) (fe : FrontEnd) : option FrontEnd :=
  match lamUops with
  | [] => Some fe
  | lamUop :: rest =>
    match getUnfusedUops lamUop with
    | [] => None
    | uop :: _ =>
      let fe := addStackSyncUop getCanonicalReg cfg clock uop fe in
      appendUnfused cfg clock rest
        (extend_IDQ fe
           ((fun uop => {| getFusedUops := [[uop]]; addedToIDQ := None;
                           uopSource := None |})
            <$> getUnfusedUops lamUop))
    end
  end.

(** The loop [while len(self.IDQ) < uArchConfig.issueWidth]; the generator
    never ends, [None] also stands for the end of the blocks at hand. *)
Fixpoint simpleFill (cfg : MicroArchConfig) (clock : Z)
    (cacheBlocks : list (list InstrInstance)) (fe : FrontEnd)
    : option FrontEnd :=
  if Z.of_nat (length (IDQ fe)) <? issueWidth cfg then
    match cacheBlocks with
    | [] => None
    | cacheBlock :: rest =>
      match appendUnfused cfg clock (concat (ii_uops <$> cacheBlock)) fe with
      | Some fe => simpleFill cfg clock rest fe
      | None => None
      end
    end
  else Some fe.

(** [addNewCacheBlock] when the source is the loop stream detector. *)
Definition addNewCacheBlock_LSD (fe : FrontEnd) (cacheBlock : list InstrInstance)
    : FrontEnd :=
  extend_IDQ fe (set_uopSource "LSD" <$> concat (ii_uops <$> cacheBlock)).

(** [FrontEnd.cycle] from the test of the IDQ on. *)
Definition fillIDQ (cfg : MicroArchConfig) (clock : Z) (supply : Supply)
    (fe : FrontEnd) : option FrontEnd :=
  if IDQFull cfg fe then Some fe
  else
    match supply with
    | SimpleSupply cacheBlocks => simpleFill cfg clock cacheBlocks fe
    | LSDSupply rounds =>
      if nonempty (IDQ fe) then Some fe
      else Some (foldl addNewCacheBlock_LSD fe (concat rounds))
    | UopSupply newUops => appendNewUops cfg clock newUops fe
    end.

(** The bound on the IDQ as the specification words it: whatever the
    sources deliver in a cycle (at most [DSBWidth] uops), an IDQ within
    [IDQWidth] stays within [IDQWidth], stack-sync uops included. *)
Definition spec_IDQ_bound : Prop :=
  forall (cfg : MicroArchConfig) (clock : Z) (newUops : list LaminatedUop)
         (fe fe' : FrontEnd),
    Z.of_nat (length (IDQ fe)) <= IDQWidth cfg ->
    Z.of_nat (length newUops) <= DSBWidth cfg ->
    fillIDQ cfg clock (UopSupply newUops) fe = Some fe' ->
    Z.of_nat (length (IDQ fe')) <= IDQWidth cfg.

End FillIDQ.


(** Every instruction with uops in the IDQ has at most [issueWidth]
    register-merge uops. *)
Definition mergesWithinIssueWidth (cfg : MicroArchConfig)
    (IDQ : list LaminatedUop) : Prop :=
  Forall (fun lamUop =>
            Forall (fun uop =>
                      Z.of_nat (length (regMergeUopPropertiesList (u_instr uop)))
                      <= issueWidth cfg)
                   (getUnfusedUops lamUop)) IDQ.

(** A stack-synchronisation uop as [addStackSyncUop] appends it. *)
Definition isSyncEntry (clock : Z) (lamUop : LaminatedUop) : Prop :=
  uopSource lamUop = Some "SE"%string /\ addedToIDQ lamUop = Some clock
  /\ exists uop, getFusedUops lamUop = [[uop]] /\ isStackSyncUop uop = true.

(** An entry of the IDQ that holds a single unfused uop. *)
Definition singleUop (lamUop : LaminatedUop) : Prop :=
  exists uop, getFusedUops lamUop = [[uop]].

(** ** Splitting cache blocks *)





(** ** The immediate of an instruction *)

(** The lines of [getInstructions] that turn the immediate read from the
    disassembly into a signed number; [1 << (immediateWidth - 1)] raises for
    a negative shift count. *)
Definition signedImmediate (immediate immediateWidth : Z) : option Z :=
  if immediateWidth - 1 <? 0 then None
  else if negb (Z.land immediate (Z.shiftl 1 (immediateWidth - 1)) =? 0)
       then Some (immediate - Z.shiftl 1 immediateWidth)
       else Some immediate.

(** ** [InstrInstance.__generateUops] *)

(** [[Uop(prop, self) for prop in self.instr.UopPropertiesList]]: the new
    uops take consecutive values of [Uop.idx_iter], from [idx] on. *)
Definition newUopsOf (instr : Instr) (instrI idx : nat) : list UopNode :=
  imap (fun i prop => {| u_idx := idx + i; u_prop := prop; u_instr := instr;
                         u_instrI := instrI; isStackSyncUop := false |})
       (UopPropertiesList instr).

(** [uop.prop.possiblePorts and
     any(p in ['2', '3', '7'] for p in uop.prop.possiblePorts)]. *)
Definition usesPort237 (uop : UopNode) : bool :=
  match possiblePorts (u_prop uop) with
  | Some ports =>
    existsb (fun p => bool_decide (p ∈ ["2"; "3"; "7"]%string)) ports
  | None => false
  end.

(** The loop [for i in range(0, self.instr.retireSlots-1)], with [n]
    iterations left; [popleft] raises on the empty deque. *)
Fixpoint fuseUops (retireSlots : Z) (n : nat) (i : Z)
    (unfusedDomainUops : list UopNode) (fusedDomainUops : list FusedNode)
    : option (list UopNode * list FusedNode) :=
  match n with
  | O => Some (unfusedDomainUops, fusedDomainUops)
  | S n' =>
    match unfusedDomainUops with
    | [] => None
    | uop :: rest =>
      if usesPort237 uop && (retireSlots - i <=? Z.of_nat (length rest)) then
        match rest with
        | [] => None
        | uop2 :: rest' =>
          fuseUops retireSlots n' (i + 1) rest' (fusedDomainUops ++ [[uop; uop2]])
        end
      else fuseUops retireSlots n' (i + 1) rest (fusedDomainUops ++ [[uop]])
    end
  end.

(** [(len(fusedUop.getUnfusedUops()) == 1) and ... possiblePorts and
     any(p in ['2', '3', '7'] for p in ...possiblePorts)]. *)
Definition fusedUsesPort237 (fusedUop : FusedNode) : bool :=
  match fusedUop with
  | [uop] => usesPort237 uop
  | _ => false
  end.

Definition LaminatedUop_of (fusedUops : list FusedNode) : LaminatedUop :=
  {| getFusedUops := fusedUops; addedToIDQ := None; uopSource := None |}.

(** The loop [for i in range(0, nLaminatedDomainUops - 1)]. *)
Fixpoint laminateUops (nLaminatedDomainUops : Z) (n : nat) (i : Z)
    (fusedDomainUops : list FusedNode) (laminatedDomainUops : list LaminatedUop)
    : option (list FusedNode * list LaminatedUop) :=
  match n with
  | O => Some (fusedDomainUops, laminatedDomainUops)
  | S n' =>
    match fusedDomainUops with
    | [] => None
    | fusedUop :: rest =>
      if fusedUsesPort237 fusedUop
         && (nLaminatedDomainUops - i <=? Z.of_nat (length rest)) then
        match rest with
        | [] => None
        | fusedUop2 :: rest' =>
          laminateUops nLaminatedDomainUops n' (i + 1) rest'
            (laminatedDomainUops ++ [LaminatedUop_of [fusedUop; fusedUop2]])
        end
      else laminateUops nLaminatedDomainUops n' (i + 1) rest
             (laminatedDomainUops ++ [LaminatedUop_of [fusedUop]])
    end
  end.

Definition generateUops (instr : Instr) (instrI idx : nat)
    : option (list LaminatedUop) :=
  match UopPropertiesList instr with
  | [] => Some []
  | _ =>
    match fuseUops (retireSlots instr) (Z.to_nat (retireSlots instr - 1)) 0
                   (newUopsOf instr instrI idx) [] with
    | None => None
    | Some (unfusedDomainUops, fusedDomainUops) =>
      let fusedDomainUops := fusedDomainUops ++ [unfusedDomainUops] in
      let nLaminatedDomainUops :=
        Z.min (uopsMITE instr + uopsMS instr)
              (Z.of_nat (length fusedDomainUops)) in
      match laminateUops nLaminatedDomainUops
                         (Z.to_nat (nLaminatedDomainUops - 1)) 0
                         fusedDomainUops [] with
      | None => None
      | Some (fusedDomainUops, laminatedDomainUops) =>
        Some (laminatedDomainUops ++ [LaminatedUop_of fusedDomainUops])
      end
    end
  end.

(** ** The microcode sequencer and the decoders *)

(** The fields of [MicroArchConfig] that the decoders and the microcode
    sequencer read. *)
Record DecoderConfig := {
  nDecoders : Z;
  predecodeDecodeDelay : Z;
  macroFusibleInstrCanBeDecodedAsLastInstr : bool;
  DSB_MS_Stall : Z
}.

(** Python's slices [l[:k]] and [l[k:]]: a negative [k] counts from the end
    of the list, and an index beyond the list is clipped. *)
Definition sliceIndex {A : Type} (l : list A) (k : Z) : nat :=
  if k <? 0 then Z.to_nat (Z.max (Z.of_nat (length l) + k) 0) else Z.to_nat k.

Definition slice_to {A : Type} (l : list A) (k : Z) : list A :=
  take (sliceIndex l k) l.

Definition slice_from {A : Type} (l : list A) (k : Z) : list A :=
  drop (sliceIndex l k) l.

Module MicrocodeSequencer.

Record t := {
  uopQueue : list LaminatedUop;
  stalled : Z;
  postStall : Z
}.

(** [MicrocodeSequencer.__init__]. *)
Definition init : t := {| uopQueue := []; stalled := 0; postStall := 0 |}.

(** The loop [while self.uopQueue and len(uops) < 4]. *)
Fixpoint takeUops (queue uops : list LaminatedUop)
    : list LaminatedUop * list LaminatedUop :=
  match queue with
  | [] => (uops, queue)
  | lamUop :: rest =>
    if Z.of_nat (length uops) <? 4 then takeUops rest (uops ++ [lamUop])
    else (uops, queue)
  end.

(** [MicrocodeSequencer.cycle]: the uops delivered and the sequencer after
    the call. *)
Definition cycle (ms : t) : list LaminatedUop * t :=
  if negb (stalled ms =? 0) then
    ([], {| uopQueue := uopQueue ms; stalled := stalled ms - 1;
            postStall := postStall ms |})
  else if nonempty (uopQueue ms) then
    let '(uops, queue) := takeUops (uopQueue ms) [] in
    (uops, {| uopQueue := queue;
              stalled := if nonempty queue then stalled ms else postStall ms;
              postStall := postStall ms |})
  else ([], ms).

(** [MicrocodeSequencer.addUops]. *)
Definition addUops (dcfg : DecoderConfig) (uops : list LaminatedUop)
    (prevUopSource : string) (ms : t) : t :=
  let queue := uopQueue ms ++ (set_uopSource "MS" <$> uops) in
  if String.eqb prevUopSource "MITE" then
    {| uopQueue := queue; stalled := 1; postStall := 1 |}
  else if String.eqb prevUopSource "DSB" then
    {| uopQueue := queue; stalled := DSB_MS_Stall dcfg; postStall := 0 |}
  else
    {| uopQueue := queue; stalled := stalled ms; postStall := postStall ms |}.

(** [MicrocodeSequencer.isBusy]. *)
Definition isBusy (ms : t) : bool :=
  (Z.of_nat (length (uopQueue ms)) >? 0) || negb (stalled ms =? 0).

(** [n] successive calls of [cycle]: what each call delivered, and the
    sequencer after the last one. *)
Fixpoint cycles (n : nat) (ms : t) : list (list LaminatedUop) * t :=
  match n with
  | O => ([], ms)
  | S n =>
    let '(uops, ms) := cycle ms in
    let '(rest, ms) := cycles n ms in
    (uops :: rest, ms)
  end.

End MicrocodeSequencer.

Module Decoder.

(** [instrI.removedFromIQ = clock]. *)
Definition set_removedFromIQ (clock : Z) (instrI : InstrInstance)
    : InstrInstance :=
  {| ii_id := ii_id instrI; ii_instr := ii_instr instrI;
     address := address instrI; rnd := rnd instrI; ii_uops := ii_uops instrI;
     predecoded := predecoded instrI; removedFromIQ := Some clock |}.

(** An instruction instance as [Decoder.cycle] leaves it when it decodes it:
    [removedFromIQ] is set, the laminated uops [instrI.uops[:uopsMITE]] that
    went to the result have the source ['MITE'] and the laminated uops
    [instrI.uops[uopsMITE:]] that went to the microcode sequencer have the
    source ['MS']. *)
Definition decoded (clock : Z) (instrI : InstrInstance) : InstrInstance :=
  let instr := ii_instr instrI in
  let fromMITE := slice_to (ii_uops instrI) (uopsMITE instr) in
  let fromMS := slice_from (ii_uops instrI) (uopsMITE instr) in
  {| ii_id := ii_id instrI; ii_instr := instr;
     address := address instrI; rnd := rnd instrI;
     ii_uops :=
       (if negb (uopsMITE instr =? 0)
        then set_uopSource "MITE" <$> fromMITE else fromMITE)
       ++ (if negb (uopsMS instr =? 0)
           then set_uopSource "MS" <$> fromMS else fromMS);
     predecoded := predecoded instrI; removedFromIQ := Some clock |}.

(** [instrI.predecoded + uArchConfig.predecodeDecodeDelay > clock]; the sum
    raises for an instance that was never predecoded. *)
Definition notYetDecodable (dcfg : DecoderConfig) (clock : Z)
    (instrI : InstrInstance) : option bool :=
  match predecoded instrI with
  | Some p => Some (p + predecodeDecodeDelay dcfg >? clock)
  | None => None
  end.

(** The test on a macro-fusible instruction (the [if] before the
    [popleft]): [Some true] stands for [break]. *)
Definition mustWaitForFusion (dcfg : DecoderConfig) (clock : Z)
    (instr : Instr) (rest : list InstrInstance) (nDecodedInstrs : Z)
    : option bool :=
  if nonempty (macroFusibleWith instr)
     && negb (macroFusibleInstrCanBeDecodedAsLastInstr dcfg)
  then
    if nDecodedInstrs =? nDecoders dcfg - 1 then Some true
    else
      match rest with
      | [] => Some true
      | next :: _ => notYetDecodable dcfg clock next
      end
  else Some false.

(** The entries that an instruction adds to [uopsList]. *)
Definition entries (clock : Z) (instrI : InstrInstance)
    : list (InstrInstance * option LaminatedUop) :=
  let instr := ii_instr instrI in
  if negb (uopsMITE instr =? 0) then
    (fun lamUop => (decoded clock instrI, Some (set_uopSource "MITE" lamUop)))
      <$> slice_to (ii_uops instrI) (uopsMITE instr)
  else [(decoded clock instrI, None)].

(** What [Decoder.cycle] returns and leaves behind: the list [uopsList], the
    instances that it took out of the instruction queue (in this order, each
    as the method leaves it), the instruction queue and the microcode
    sequencer. *)
Record Decoded := {
  uopsList : list (InstrInstance * option LaminatedUop);
  removed : list InstrInstance;
  dec_instructionQueue : list InstrInstance;
  dec_MS : MicrocodeSequencer.t
}.

(** The loop [while self.instructionQueue]. *)
Fixpoint decodeLoop (dcfg : DecoderConfig) (clock : Z)
    (instructionQueue : list InstrInstance)
    (uopsList : list (InstrInstance * option LaminatedUop))
    (removed : list InstrInstance)
    (nDecodedInstrs remainingDecoderSlots : Z) (MS : MicrocodeSequencer.t)
    : option Decoded :=
  let stop :=
    Some {| uopsList := uopsList; removed := removed;
            dec_instructionQueue := instructionQueue; dec_MS := MS |} in
  match instructionQueue with
  | [] => stop
  | instrI :: rest =>
    let instr := ii_instr instrI in
    if macroFusedWithPrevInstr instr then
      decodeLoop dcfg clock rest uopsList
        (removed ++ [set_removedFromIQ clock instrI])
        nDecodedInstrs remainingDecoderSlots MS
    else
      match notYetDecodable dcfg clock instrI with
      | None => None
      | Some true => stop
      | Some false =>
        if nonempty uopsList && complexDecoder instr then stop
        else
          match mustWaitForFusion dcfg clock instr rest nDecodedInstrs with
          | None => None
          | Some true => stop
          | Some false =>
            let removed := removed ++ [decoded clock instrI] in
            let uopsList := uopsList ++ entries clock instrI in
            if negb (uopsMS instr =? 0) then
              Some {| uopsList := uopsList; removed := removed;
                      dec_instructionQueue := rest;
                      dec_MS :=
                        MicrocodeSequencer.addUops dcfg
                          (slice_from (ii_uops instrI) (uopsMITE instr))
                          "MITE" MS |}
            else
              let slots :=
                if complexDecoder instr then
                  match nAvailableSimpleDecoders instr with
                  | Some n => Some (Z.min (remainingDecoderSlots - 1) n)
                  | None => None
                  end
                else Some (remainingDecoderSlots - 1) in
              match slots with
              | None => None
              | Some remainingDecoderSlots =>
                let nDecodedInstrs := nDecodedInstrs + 1 in
                if (remainingDecoderSlots <=? 0)
                   || isBranchInstr instr || macroFusedWithNextInstr instr
                then
                  Some {| uopsList := uopsList; removed := removed;
                          dec_instructionQueue := rest; dec_MS := MS |}
                else
                  decodeLoop dcfg clock rest uopsList removed
                    nDecodedInstrs remainingDecoderSlots MS
              end
          end
      end
  end.

(** [Decoder.cycle], on the instruction queue that the decoder shares with
    the predecoder. *)
Definition cycle (dcfg : DecoderConfig) (clock : Z)
    (instructionQueue : list InstrInstance) (MS : MicrocodeSequencer.t)
    : option Decoded :=
  decodeLoop dcfg clock instructionQueue [] [] 0 (nDecoders dcfg) MS.

(** How the decoder leaves an instance that it takes out of the queue. *)
Definition leave (clock : Z) (instrI : InstrInstance) : InstrInstance :=
  if macroFusedWithPrevInstr (ii_instr instrI)
  then set_removedFromIQ clock instrI
  else decoded clock instrI.

(** The instances of a list that are decoded on their own, that is, all but
    the second halves of macro-fused pairs. *)
Definition decodedInstrs (taken : list InstrInstance) : list InstrInstance :=
  filter (fun instrI => macroFusedWithPrevInstr (ii_instr instrI) = false) taken.

End Decoder.

(** The memory role of a uop, as the three flags
    [(isLoadUop, isStoreAddressUop, isStoreDataUop)]. *)
Definition memKind (p : UopProperties) : bool * bool * bool :=
  (isLoadUop p, isStoreAddressUop p, isStoreDataUop p).

(** *** The loop of [getInstructions] and the flags of macro-fusion *)

(** An instruction as its constructor leaves it: [macroFusedWithPrevInstr]
    and [macroFusedWithNextInstr] have their default [False], and
    [isFirstInstruction] is [False]. *)
Definition freshInstr (instr : Instr) : Prop :=
  macroFusedWithPrevInstr instr = false
  /\ macroFusedWithNextInstr instr = false
  /\ isFirstInstruction instr = false.

(** The loop [for instrD in disas] of [getInstructions], on the instructions
    that its iterations construct, in this order. *)
Definition addInstructions (constructed : list Instr) : option (list Instr) :=
  foldlO addInstruction constructed [].

(** [instrStr] of instruction [k + 1] is in [macroFusibleWith] of
    instruction [k]. *)
Definition fusibleAt (instrs : list Instr) (k : nat) : bool :=
  match instrs !! k, instrs !! S k with
  | Some prevInstr, Some instruction =>
    bool_decide (instrStr instruction ∈ macroFusibleWith prevInstr)
  | _, _ => false
  end.

(** The flags of the instructions in the list that [getInstructions]
    returns, in terms of the instructions as they were constructed. *)
Definition fusionFlagsSet (constructed instructions : list Instr) : Prop :=
  length instructions = length constructed
  /\ forall k instr, instructions !! k = Some instr ->
       exists c,
         constructed !! k = Some c
         /\ asm instr = asm c /\ opcode instr = opcode c
         /\ instrStr instr = instrStr c
         /\ macroFusibleWith instr = macroFusibleWith c
         /\ isFirstInstruction instr = bool_decide (k = 0%nat)
         /\ macroFusedWithNextInstr instr = fusibleAt constructed k
         /\ macroFusedWithPrevInstr instr
            = match k with
              | O => false
              | S k' => fusibleAt constructed k'
              end.

(** ** The cache block generators *)

(** [InstrInstance.__init__]: the uops come from [__generateUops], which
    draws one [idx] per entry of [UopPropertiesList] from the class counter
    [Uop.idx_iter]; [id] numbers the instances.  The result is the instance
    and the counter after the call. *)
Definition newInstrInstance (instr : Instr) (address rnd : Z) (id idx : nat)
    : option (InstrInstance * nat) :=
  match generateUops instr id idx with
  | Some uops =>
    Some ({| ii_id := id; ii_instr := instr; address := address; rnd := rnd;
             ii_uops := uops; predecoded := None; removedFromIQ := None |},
          (idx + length (UopPropertiesList instr))%nat)
  | None => None
  end.

(** [len(instr.opcode) // 2]. *)
Definition instrLen (instr : Instr) : Z :=
  Z.of_nat (String.length (opcode instr)) `div` 2.

Module CacheBlocks.

(** The state of [CacheBlockGenerator] while it is suspended: the round, the
    position in [instructions] of the instruction that the loop takes next
    (the length of the list when the inner loop is at its end) and
    [nextAddr]; [cacheBlock] is empty then. *)
Record Generator := {
  g_rnd : Z;
  g_pos : nat;
  g_nextAddr : Z
}.

Definition start (alignmentOffset : Z) : Generator :=
  {| g_rnd := 0; g_pos := 0%nat; g_nextAddr := alignmentOffset |}.

(** What a call of [next] on a generator gives: a value and the state after
    it, an exception, or no answer within the given number of steps. *)
Inductive Outcome (A : Type) :=
| Yield (a : A)
| Raise
| OutOfFuel.
Arguments Yield {A} a.
Arguments Raise {A}.
Arguments OutOfFuel {A}.

(** [next] on [CacheBlockGenerator(instructions, unroll, alignmentOffset)]:
    the loop runs from where it was suspended to its next [yield].  The
    instructions of the list are distinct objects, so that
    [instr == instructions[-1]] holds at the last position only.  The result
    is the block, the state of the generator and the two counters. *)
Fixpoint nextCacheBlock (fuel : nat) (instructions : list Instr)
    (unroll : bool) (alignmentOffset : Z) (g : Generator)
    (cacheBlock : list InstrInstance) (id idx : nat)
    : Outcome (list InstrInstance * Generator * nat * nat) :=
  match fuel with
  | O => OutOfFuel
  | S fuel =>
    match instructions !! g_pos g with
    | None =>
      nextCacheBlock fuel instructions unroll alignmentOffset
        {| g_rnd := g_rnd g + 1; g_pos := 0%nat; g_nextAddr := g_nextAddr g |}
        cacheBlock id idx
    | Some instr =>
      match newInstrInstance instr (g_nextAddr g) (g_rnd g) id idx with
      | None => Raise
      | Some (instrI, idx) =>
        let cacheBlock := cacheBlock ++ [instrI] in
        if negb unroll && bool_decide (S (g_pos g) = length instructions) then
          Yield (cacheBlock,
                 {| g_rnd := g_rnd g; g_pos := S (g_pos g);
                    g_nextAddr := alignmentOffset |},
                 S id, idx)
        else
          let prevAddr := g_nextAddr g in
          let nextAddr := prevAddr + instrLen instr in
          let g' := {| g_rnd := g_rnd g; g_pos := S (g_pos g);
                       g_nextAddr := nextAddr |} in
          if negb (prevAddr `div` 64 =? nextAddr `div` 64) then
            Yield (cacheBlock, g', S id, idx)
          else
            nextCacheBlock fuel instructions unroll alignmentOffset g'
              cacheBlock (S id) idx
      end
    end
  end.

(** The addresses of a block follow one another: the first instance is at
    [addr], every other one where its predecessor ends. *)
Fixpoint consecutive (addr : Z) (block : list InstrInstance) : Prop :=
  match block with
  | [] => True
  | instrI :: rest =>
    address instrI = addr
    /\ consecutive (addr + instrLen (ii_instr instrI)) rest
  end.

(** The address behind the last instance of a block that starts at
    [addr]. *)
Definition endAddr (addr : Z) (block : list InstrInstance) : Z :=
  foldl (fun a instrI => a + instrLen (ii_instr instrI)) addr block.

(** The state of [CacheBlocksForNextRoundGenerator] while it is suspended:
    the generator that its loop iterates over, the block that the loop has
    fetched but not yet appended together with its round [curRnd] ([None]
    before the first [yield]), and [prevRnd]. *)
Record RoundGenerator := {
  rg_generator : Generator;
  rg_fetched : option (list InstrInstance * Z);
  rg_prevRnd : Z
}.

Definition startRounds (alignmentOffset : Z) : RoundGenerator :=
  {| rg_generator := start alignmentOffset; rg_fetched := None;
     rg_prevRnd := 0 |}.

(** The loop [for cacheBlock in CacheBlockGenerator(instructions, False,
    alignmentOffset)] from the fetch of a block to the next [yield];
    [cacheBlock[-1]] raises on an empty block.  [steps] bounds the steps of
    the inner generator for each block. *)
Fixpoint collectRound (fuel steps : nat) (instructions : list Instr)
    (alignmentOffset : Z) (g : Generator)
    (cacheBlocks : list (list InstrInstance)) (prevRnd : Z) (id idx : nat)
    : Outcome (list (list InstrInstance) * RoundGenerator * nat * nat) :=
  match fuel with
  | O => OutOfFuel
  | S fuel =>
    match nextCacheBlock steps instructions false alignmentOffset g [] id idx
    with
    | OutOfFuel => OutOfFuel
    | Raise => Raise
    | Yield (cacheBlock, g, id, idx) =>
      match last cacheBlock with
      | None => Raise
      | Some instrI =>
        let curRnd := rnd instrI in
        if negb (prevRnd =? curRnd) then
          Yield (cacheBlocks,
                 {| rg_generator := g;
                    rg_fetched := Some (cacheBlock, curRnd);
                    rg_prevRnd := prevRnd |},
                 id, idx)
        else
          collectRound fuel steps instructions alignmentOffset g
            (cacheBlocks ++ [cacheBlock]) prevRnd id idx
      end
    end
  end.

(** [next] on [CacheBlocksForNextRoundGenerator(instructions,
    alignmentOffset)]: after a [yield] the loop body goes on with
    [cacheBlocks = []], [prevRnd = curRnd] and
    [cacheBlocks.append(cacheBlock)]. *)
Definition nextRound (fuel steps : nat) (instructions : list Instr)
    (alignmentOffset : Z) (rg : RoundGenerator) (id idx : nat)
    : Outcome (list (list InstrInstance) * RoundGenerator * nat * nat) :=
  match rg_fetched rg with
  | None =>
    collectRound fuel steps instructions alignmentOffset (rg_generator rg)
      [] (rg_prevRnd rg) id idx
  | Some (cacheBlock, curRnd) =>
    collectRound fuel steps instructions alignmentOffset (rg_generator rg)
      [cacheBlock] curRnd id idx
  end.

(** A suspended [CacheBlocksForNextRoundGenerator] that is about to deliver
    round [r]: either it has not started ([r = 0]), or it holds the first
    block of round [r], which begins the program at [alignmentOffset], and
    its generator stands behind that block. *)
Definition atRound (instructions : list Instr) (alignmentOffset : Z)
    (r : Z) (rg : RoundGenerator) : Prop :=
  let g := rg_generator rg in
  match rg_fetched rg with
  | None => g = start alignmentOffset /\ rg_prevRnd rg = 0 /\ r = 0
  | Some (cacheBlock, curRnd) =>
    curRnd = r /\ g_rnd g = r
    /\ cacheBlock <> []
    /\ ii_instr <$> cacheBlock = take (length cacheBlock) instructions
    /\ g_pos g = length cacheBlock
    /\ (g_pos g <= length instructions)%nat
    /\ Forall (fun i => rnd i = r) cacheBlock
    /\ consecutive alignmentOffset cacheBlock
    /\ Forall (fun i => address i `div` 64 = alignmentOffset `div` 64)
              cacheBlock
    /\ g_nextAddr g
       = (if bool_decide (g_pos g = length instructions)
          then alignmentOffset else endAddr alignmentOffset cacheBlock)
  end.

End CacheBlocks.

(** ** The blocks of the decoded stream buffer *)

Module DSB.

(** [DSBEntry]. *)
Record Entry := {
  instrI : InstrInstance;
  uop : option LaminatedUop;
  MSUops : list LaminatedUop;
  requiresExtraEntry : bool
}.

(** A block of the buffer: six places, [None] where a place is not used. *)
Definition Block := list (option Entry).

(** The test on the immediate in [FrontEnd.getDSBBlocks]. *)
Definition needsExtraEntry (instr : Instr) : bool :=
  match immediate instr with
  | None => false
  | Some imm =>
    if negb ((- 2 ^ 31 <=? imm) && (imm <? 2 ^ 31)) then true
    else negb ((- 2 ^ 15 <=? imm) && (imm <? 2 ^ 15))
         && (0 <? length (memAddrOperands instr))%nat
  end.

(** [curBlock[posInCurBlock] = entry]; [curBlock] is the block that was
    appended to [DSBBlocks] last.  The assignment raises beyond the six
    places of the block. *)
Definition setEntry (DSBBlocks : list Block) (posInCurBlock : nat)
    (entry : Entry) : option (list Block) :=
  match last DSBBlocks with
  | Some curBlock =>
    if (posInCurBlock <? length curBlock)%nat
    then Some (removelast DSBBlocks ++ [<[posInCurBlock := Some entry]> curBlock])
    else None
  | None => None
  end.

(** The entry for the laminated uop number [i] of an instruction. *)
Definition uopEntry (instrI0 : InstrInstance) (extra : bool) (i : Z)
    (lamUop : LaminatedUop) : Entry :=
  let instr := ii_instr instrI0 in
  if i =? uopsMITE instr - 1 then
    {| instrI := instrI0; uop := Some lamUop;
       MSUops := slice_from (ii_uops instrI0) (uopsMITE instr);
       requiresExtraEntry := extra |}
  else
    {| instrI := instrI0; uop := Some lamUop; MSUops := [];
       requiresExtraEntry := false |}.

(** The loop [for i, lamUop in enumerate(instrI.uops[:instr.uopsMITE])]. *)
Fixpoint putUops (instrI0 : InstrInstance) (extra : bool) (i : Z)
    (lamUops : list LaminatedUop) (posInCurBlock : nat)
    (DSBBlocks : list Block) : option (nat * list Block) :=
  match lamUops with
  | [] => Some (posInCurBlock, DSBBlocks)
  | lamUop :: rest =>
    match setEntry DSBBlocks posInCurBlock (uopEntry instrI0 extra i lamUop)
    with
    | Some DSBBlocks =>
      putUops instrI0 extra (i + 1) rest (S posInCurBlock) DSBBlocks
    | None => None
    end
  end.

(** The body of the loop of [getDSBBlocks] for an instruction that is not
    macro-fused with its predecessor. *)
Definition putInstr (instrI0 : InstrInstance) (posInCurBlock : nat)
    (DSBBlocks : list Block) : option (nat * list Block) :=
  let instr := ii_instr instrI0 in
  let nRequiredEntries := Z.max 1 (uopsMITE instr) in
  let extra := needsExtraEntry instr in
  let '(posInCurBlock, DSBBlocks) :=
    if negb (uopsMS instr =? 0)
       || (Z.of_nat posInCurBlock + nRequiredEntries
           + (if extra then 1 else 0) >? 6)
    then (0%nat, DSBBlocks ++ [replicate 6 None])
    else (posInCurBlock, DSBBlocks) in
  let written :=
    if negb (uopsMITE instr =? 0) then
      putUops instrI0 extra 0 (slice_to (ii_uops instrI0) (uopsMITE instr))
        posInCurBlock DSBBlocks
    else if negb (uopsMS instr =? 0) then
      match setEntry DSBBlocks posInCurBlock
              {| instrI := instrI0; uop := None; MSUops := ii_uops instrI0;
                 requiresExtraEntry := false |} with
      | Some DSBBlocks => Some (posInCurBlock, DSBBlocks)
      | None => None
      end
    else
      match setEntry DSBBlocks posInCurBlock
              {| instrI := instrI0; uop := None; MSUops := [];
                 requiresExtraEntry := false |} with
      | Some DSBBlocks => Some (S posInCurBlock, DSBBlocks)
      | None => None
      end in
  match written with
  | None => None
  | Some (posInCurBlock, DSBBlocks) =>
    let posInCurBlock := if extra then S posInCurBlock else posInCurBlock in
    let posInCurBlock :=
      if negb (uopsMS instr =? 0) then 6%nat else posInCurBlock in
    Some (posInCurBlock, DSBBlocks)
  end.

(** The loop [for instrI in cacheBlock]. *)
Fixpoint putInstrs (cacheBlock : list InstrInstance) (posInCurBlock : nat)
    (DSBBlocks : list Block) : option (list Block) :=
  match cacheBlock with
  | [] => Some DSBBlocks
  | instrI0 :: rest =>
    if macroFusedWithPrevInstr (ii_instr instrI0)
    then putInstrs rest posInCurBlock DSBBlocks
    else
      match putInstr instrI0 posInCurBlock DSBBlocks with
      | Some (posInCurBlock, DSBBlocks) =>
        putInstrs rest posInCurBlock DSBBlocks
      | None => None
      end
  end.

(** [FrontEnd.getDSBBlocks]. *)
Definition getDSBBlocks (cacheBlock : list InstrInstance)
    : option (list Block) :=
  putInstrs cacheBlock 6 [].

(** The entries of an instruction, in the order in which they are written:
    one for each of its first [uopsMITE] laminated uops, or a single entry
    without a uop. *)
Definition entriesOf (instrI0 : InstrInstance) : list Entry :=
  let instr := ii_instr instrI0 in
  if negb (uopsMITE instr =? 0) then
    imap (fun i lamUop =>
            uopEntry instrI0 (needsExtraEntry instr) (Z.of_nat i) lamUop)
         (slice_to (ii_uops instrI0) (uopsMITE instr))
  else if negb (uopsMS instr =? 0) then
    [{| instrI := instrI0; uop := None; MSUops := ii_uops instrI0;
        requiresExtraEntry := false |}]
  else
    [{| instrI := instrI0; uop := None; MSUops := [];
        requiresExtraEntry := false |}].

(** The places that the instruction needs in a block:
    [nRequiredEntries + int(requiresExtraEntry)]. *)
Definition placesOf (instrI0 : InstrInstance) : Z :=
  Z.max 1 (uopsMITE (ii_instr instrI0))
  + (if needsExtraEntry (ii_instr instrI0) then 1 else 0).

(** A block holds the entries of a group of instructions: it has six places,
    its entries are those of the instructions of the group, in order, and an
    instruction with microcode uops has a block of its own. *)
Definition holds (block : Block) (group : list InstrInstance) : Prop :=
  length block = 6%nat
  /\ group <> []
  /\ omap id block = concat (entriesOf <$> group)
  /\ forall i, i ∈ group -> uopsMS (ii_instr i) <> 0 -> group = [i].

End DSB.

(** ** Sample stores *)

Definition plainProp (load : bool) : UopProperties :=
  {| possiblePorts := Some ["2"; "3"]%string; inputOperands := [];
     outputOperands := []; latencies := ∅; divCycles := 0;
     isLoadUop := load; isStoreAddressUop := false; memAddr := None;
     isStoreDataUop := false; isFirstUopOfInstr := true;
     isLastUopOfInstr := true; isRegMergeUop := false |}.

(** A load dispatched in cycle 3 that found a store-buffer entry. *)
Definition sampleLoad : Uop :=
  {| prop := plainProp true; fusedUop := 0%nat; actualPort := Some "2"%string;
     eliminated := false; renamedInputOperands := [];
     renamedOutputOperands := [0%nat]; storeBufferEntry := Some 0%nat;
     readyForDispatch := Some 3; dispatched := Some 3; executed := None |}.

Definition sampleEntry : StoreBufferEntry :=
  {| abstractAddress := Some (1, 0, 1, 8); sb_uops := [];
     addressReadyCycle := Some 10; dataReadyCycle := Some 6 |}.

Definition sampleOutput : RenamedOperand :=
  {| nonRenamedOperand := Some 0%nat; ro_uop := Some 0%nat; ro_ready := None |}.

Definition sampleLoadHeap : Heap :=
  {| h_uops := {[ 0%nat := sampleLoad ]}; h_fused := ∅;
     h_sb := {[ 0%nat := sampleEntry ]};
     h_ren := {[ 0%nat := sampleOutput ]} |}.

(** A producer dispatched in cycle 6 and its consumer, issued in cycle 1. *)
Definition sampleProducer : Uop :=
  {| prop := plainProp false; fusedUop := 0%nat; actualPort := Some "2"%string;
     eliminated := false; renamedInputOperands := [];
     renamedOutputOperands := [0%nat]; storeBufferEntry := None;
     readyForDispatch := Some 6; dispatched := Some 6; executed := None |}.

Definition sampleConsumer : Uop :=
  {| prop := plainProp false; fusedUop := 1%nat; actualPort := Some "3"%string;
     eliminated := false; renamedInputOperands := [0%nat];
     renamedOutputOperands := []; storeBufferEntry := None;
     readyForDispatch := None; dispatched := None; executed := None |}.

Definition sampleFused (us : list nat) (iss : Z) : FusedUop :=
  {| fu_uops := us; issued := Some iss; retired := None; retireIdx := None |}.

Definition sampleChainHeap : Heap :=
  {| h_uops := <[ 1%nat := sampleConsumer ]> {[ 0%nat := sampleProducer ]};
     h_fused := <[ 1%nat := sampleFused [1%nat] 1 ]>
                  {[ 0%nat := sampleFused [0%nat] 0 ]};
     h_sb := ∅;
     h_ren := {[ 0%nat := sampleOutput ]} |}.

Definition sampleConfig : MicroArchConfig :=
  {| IQWidth := 25; IDQWidth := 64; RBWidth := 224; RSWidth := 97;
     issueWidth := 4; retireWidth := 4; preDecodeWidth := 5; DSBWidth := 6;
     issueDispatchDelay := 5;
     allPorts := ["0"; "1"; "2"; "3"; "4"; "5"; "6"; "7"]%string;
     stackSyncUopPorts := ["0"; "1"; "5"]%string |}.

(** ** Sample instructions *)

Definition sampleInstr (asm opcode instrStr : string) (ports : list (string * Z))
    (slots rspChange : Z) (memAddrOps : list RegOperand) : Instr :=
  {| asm := asm; opcode := opcode; posNominalOpcode := 0;
     instrStr := instrStr; portData := ports; instr_uops := 1;
     retireSlots := slots; uopsMITE := 1; uopsMS := 0; instr_divCycles := 0;
     inputRegOperands := []; inputFlagOperands := []; inputMemOperands := [];
     outputRegOperands := []; outputFlagOperands := [];
     outputMemOperands := []; memAddrOperands := memAddrOps;
     agenOperands := []; instr_latencies := ∅; TP := Some 1;
     immediate := None; lcpStall := false; implicitRSPChange := rspChange;
     mayBeEliminated := false; complexDecoder := false;
     nAvailableSimpleDecoders := Some 4; hasLockPrefix := false;
     isBranchInstr := false; isSerializingInstr := false;
     isLoadSerializing := false; isStoreSerializing := false;
     macroFusibleWith := []; macroFusedWithPrevInstr := false;
     macroFusedWithNextInstr := false; UopPropertiesList := [];
     regMergeUopPropertiesList := []; isFirstInstruction := false;
     isUnknownInstr := false |}.

(** [push 0x1]: two bytes, the stack pointer goes down by eight; its only
    register operand is the implicit stack operand of the store address. *)
Definition samplePush : Instr :=
  sampleInstr "push 0x1" "6A01" "PUSH (I8)" [("49", 1); ("78", 1)] 1 (-8)
    [{| reg_id := 0%nat; reg := "RSP"; isImplicitStackOperand := true |}].

Definition samplePushUop : UopNode :=
  {| u_idx := 0%nat; u_prop := plainProp false; u_instr := samplePush;
     u_instrI := 0%nat; isStackSyncUop := false |}.

Definition sampleFrontEnd (off : Z) : FrontEnd :=
  {| IDQ := []; RSPOffset := off; stackSyncUops := ∅;
     idx_iter := 1%nat; op_iter := 1%nat |}.

(** [mov eax, 0x1] (five bytes) placed at offset 14 of its 16-byte block. *)
Definition sampleMov : Instr :=
  sampleInstr "mov eax, 0x1" "B801000000" "MOV (R32, I32)" [("0156", 1)] 1 0 [].

Definition sampleMovAt (addr : Z) : InstrInstance :=
  {| ii_id := 0%nat; ii_instr := sampleMov; address := addr; rnd := 0;
     ii_uops := []; predecoded := None; removedFromIQ := None |}.

Definition samplePreDecoder : PreDecoder :=
  {| B16BlockQueue := [[sampleMovAt 14]]; instructionQueue := [];
     preDecQueue := []; stalled := 0; partialInstrI := None |}.

(** Two fused uops of one unfused uop each, both executed in cycle 1. *)
Definition sampleExecuted : Uop :=
  {| prop := plainProp false; fusedUop := 0%nat; actualPort := Some "2"%string;
     eliminated := false; renamedInputOperands := [];
     renamedOutputOperands := []; storeBufferEntry := None;
     readyForDispatch := Some 0; dispatched := Some 0; executed := Some 1 |}.

Definition sampleRetireHeap : Heap :=
  {| h_uops := <[ 1%nat := sampleExecuted ]> {[ 0%nat := sampleExecuted ]};
     h_fused := <[ 1%nat := sampleFused [1%nat] 1 ]>
                  {[ 0%nat := sampleFused [0%nat] 1 ]};
     h_sb := ∅; h_ren := ∅ |}.

Definition sampleSteps : list ((Heap -> Heap) * list nat) :=
  [ (fun h => h, [0%nat; 1%nat]); (fun h => h, []) ].

(** A stand-in for the simulator: every cycle retires one fused uop of the
    only instruction, fifty cycles per round. *)
Definition sampleSimulator (clock : Z) (s : unit)
    : option (unit * list Main.RetiredUop) :=
  Some (tt, [ {| Main.r_fusedUop := Z.to_nat clock;
                 Main.r_first := Some (0%nat, Z.to_nat (clock / 50)) |} ]).

Definition sampleLoopState : Main.LoopState unit :=
  {| Main.sim := tt; Main.uopsForRound := []; Main.rnd := 0%nat;
     Main.clock := 0 |}.

(** A ten-port machine with two store-data uops ready on ports 4 and 9. *)
Definition sampleConfig10 : MicroArchConfig :=
  {| IQWidth := 25; IDQWidth := 70; RBWidth := 352; RSWidth := 160;
     issueWidth := 5; retireWidth := 8; preDecodeWidth := 5; DSBWidth := 6;
     issueDispatchDelay := 5;
     allPorts := ["0"; "1"; "2"; "3"; "4"; "5"; "6"; "7"; "8"; "9"]%string;
     stackSyncUopPorts := ["0"; "1"; "5"; "6"]%string |}.

Definition sampleStoreData (port : Port) (entry : nat) : Uop :=
  {| prop := {| possiblePorts := Some ["4"; "9"]%string; inputOperands := [];
                outputOperands := []; latencies := ∅; divCycles := 0;
                isLoadUop := false; isStoreAddressUop := false;
                memAddr := None; isStoreDataUop := true;
                isFirstUopOfInstr := false; isLastUopOfInstr := true;
                isRegMergeUop := false |};
     fusedUop := 0%nat; actualPort := Some port; eliminated := false;
     renamedInputOperands := []; renamedOutputOperands := [];
     storeBufferEntry := Some entry; readyForDispatch := Some 3;
     dispatched := None; executed := None |}.

Definition sampleStoreEntry (disp : Z) : StoreBufferEntry :=
  {| abstractAddress := Some (1, 0, 1, disp); sb_uops := [];
     addressReadyCycle := None; dataReadyCycle := None |}.

(** The second store is [disp] bytes above the first. *)
Definition sampleStoreHeap (disp : Z) : Heap :=
  {| h_uops := <[ 11%nat := sampleStoreData "9" 1 ]>
                 {[ 10%nat := sampleStoreData "4" 0 ]};
     h_fused := ∅;
     h_sb := <[ 1%nat := sampleStoreEntry disp ]> {[ 0%nat := sampleStoreEntry 0 ]};
     h_ren := ∅ |}.

Definition sampleScheduler : Scheduler.t :=
  {| Scheduler.uops := {[ 10%nat; 11%nat ]};
     Scheduler.portUsage :=
       list_to_map (map (fun p => (p, 0)) (allPorts sampleConfig10));
     Scheduler.uopsDispatchedInPrevCycle := [];
     Scheduler.divBusy := 0;
     Scheduler.readyQueue :=
       <[ "9"%string := [11%nat] ]>
         (<[ "4"%string := [10%nat] ]>
            (list_to_map (map (fun p => (p, [])) (allPorts sampleConfig10))));
     Scheduler.readyDivUops := [];
     Scheduler.pendingUops := ∅ |}.

(** [push 0x1] with three retire slots, and an instruction without ports
    and without retire slots. *)
Definition samplePush3 : Instr :=
  sampleInstr "push 0x1" "6A01" "PUSH (I8)" [("49", 1); ("78", 1)] 3 (-8)
    [{| reg_id := 0%nat; reg := "RSP"; isImplicitStackOperand := true |}].

Definition sampleNoSlots : Instr :=
  sampleInstr "nop" "90" "NOP" [] 0 0 [].

(** An instruction the tables do not know, and a table of two lines. *)
Definition sampleInstrD : InstrD :=
  {| d_asm := "ud0 eax, ebx"; d_opcode := "0FFFC3"; iform := "UD0_GPR32_GPR32";
     attributes := ∅ |}.

Definition sampleLamUop (idx : nat) : LaminatedUop :=
  {| getFusedUops := [[ {| u_idx := idx; u_prop := plainProp false;
                           u_instr := sampleMov; u_instrI := 0%nat;
                           isStackSyncUop := false |} ]];
     addedToIDQ := Some 1; uopSource := Some "DSB"%string |}.

Definition sampleTable : list TableLineData :=
  [ {| tld_string := "mov eax, 0x1"; tld_instr := Some sampleMov;
       tld_url := None; uopsForRnd := [[sampleLamUop 0]] |};
    {| tld_string := "ud0 eax, ebx";
       tld_instr := Some (UnknownInstr "ud0 eax, ebx" "0FFFC3" 0);
       tld_url := None; uopsForRnd := [[]] |} ].

(** [lfence], a serializing instruction, and its only uop. *)
Definition sampleFence : Instr :=
  {| asm := "lfence"; opcode := "0FAEE8"; posNominalOpcode := 0;
     instrStr := "LFENCE"; portData := []; instr_uops := 2;
     retireSlots := 2; uopsMITE := 1; uopsMS := 0; instr_divCycles := 0;
     inputRegOperands := []; inputFlagOperands := []; inputMemOperands := [];
     outputRegOperands := []; outputFlagOperands := [];
     outputMemOperands := []; memAddrOperands := [];
     agenOperands := []; instr_latencies := ∅; TP := Some 4;
     immediate := None; lcpStall := false; implicitRSPChange := 0;
     mayBeEliminated := false; complexDecoder := false;
     nAvailableSimpleDecoders := Some 4; hasLockPrefix := false;
     isBranchInstr := false; isSerializingInstr := true;
     isLoadSerializing := true; isStoreSerializing := false;
     macroFusibleWith := []; macroFusedWithPrevInstr := false;
     macroFusedWithNextInstr := false; UopPropertiesList := [];
     regMergeUopPropertiesList := []; isFirstInstruction := false;
     isUnknownInstr := false |}.

Definition sampleFenceUop : LaminatedUop :=
  {| getFusedUops := [[ {| u_idx := 7%nat; u_prop := plainProp false;
                           u_instr := sampleFence; u_instrI := 1%nat;
                           isStackSyncUop := false |} ]];
     addedToIDQ := Some 1; uopSource := Some "DSB"%string |}.

(** [pop rax]: one byte, the stack pointer goes up by eight. *)
Definition samplePop : Instr :=
  sampleInstr "pop rax" "58" "POP (R64)" [("23", 1)] 1 8
    [{| reg_id := 0%nat; reg := "RSP"; isImplicitStackOperand := true |}].

Definition samplePopUop (idx : nat) : LaminatedUop :=
  {| getFusedUops := [[ {| u_idx := idx; u_prop := plainProp true;
                           u_instr := samplePop; u_instrI := idx;
                           isStackSyncUop := false |} ]];
     addedToIDQ := None; uopSource := Some "DSB"%string |}.

(** A front end whose IDQ leaves room for exactly [DSBWidth] uops, with the
    stack-pointer offset at the threshold. *)
Definition sampleBusyFrontEnd : FrontEnd :=
  {| IDQ := replicate 58 (sampleLamUop 0); RSPOffset := 192;
     stackSyncUops := ∅; idx_iter := 100%nat; op_iter := 100%nat |}.

(** A cache block of one instruction instance with five uops. *)
Definition samplePopBlock : list InstrInstance :=
  [ {| ii_id := 0%nat; ii_instr := samplePop; address := 0; rnd := 0;
       ii_uops := [samplePopUop 1; samplePopUop 2; samplePopUop 3;
                   samplePopUop 4; samplePopUop 5];
       predecoded := None; removedFromIQ := None |} ].

(** [push 0x1] with three retire slots after [computeUopProperties]: a
    store-address uop, a store-data uop and one portless uop. *)
Definition samplePushed : Instr :=
  match computeUopPropertiesOf samplePush3 0 with
  | Some (instr, _) => instr
  | None => samplePush3
  end.

Definition sampleDecoderConfig : DecoderConfig :=
  {| nDecoders := 4; predecodeDecodeDelay := 3;
     macroFusibleInstrCanBeDecodedAsLastInstr := false; DSB_MS_Stall := 4 |}.

(** An instance of [sampleMov] that was predecoded in cycle 0. *)
Definition samplePredecoded (id : nat) : InstrInstance :=
  {| ii_id := id; ii_instr := sampleMov; address := 5 * Z.of_nat id; rnd := 0;
     ii_uops := [sampleLamUop id]; predecoded := Some 0;
     removedFromIQ := None |}.

Definition sampleIQ : list InstrInstance :=
  samplePredecoded <$> [0; 1; 2; 3; 4; 5]%nat.

(** An instruction with one uop from the decoders and two from the microcode
    sequencer. *)
Definition sampleMicrocoded : Instr :=
  {| asm := "xchg rax, [rbx]"; opcode := "488703"; posNominalOpcode := 1;
     instrStr := "XCHG (M64, R64)"; portData := [("0156", 3)];
     instr_uops := 3; retireSlots := 3; uopsMITE := 1; uopsMS := 2;
     instr_divCycles := 0;
     inputRegOperands := []; inputFlagOperands := []; inputMemOperands := [];
     outputRegOperands := []; outputFlagOperands := [];
     outputMemOperands := []; memAddrOperands := [];
     agenOperands := []; instr_latencies := ∅; TP := Some 1;
     immediate := None; lcpStall := false; implicitRSPChange := 0;
     mayBeEliminated := false; complexDecoder := true;
     nAvailableSimpleDecoders := Some 0; hasLockPrefix := false;
     isBranchInstr := false; isSerializingInstr := false;
     isLoadSerializing := false; isStoreSerializing := false;
     macroFusibleWith := []; macroFusedWithPrevInstr := false;
     macroFusedWithNextInstr := false; UopPropertiesList := [];
     regMergeUopPropertiesList := []; isFirstInstruction := false;
     isUnknownInstr := false |}.

Definition sampleMicrocodedIQ : list InstrInstance :=
  [ {| ii_id := 1%nat; ii_instr := sampleMicrocoded; address := 5; rnd := 0;
       ii_uops := [sampleLamUop 1; sampleLamUop 2; sampleLamUop 3];
       predecoded := Some 0; removedFromIQ := None |};
    samplePredecoded 2 ].

(** The microcode sequencer after five laminated uops came from the
    decoders. *)
Definition sampleMS : MicrocodeSequencer.t :=
  MicrocodeSequencer.addUops sampleDecoderConfig
    (sampleLamUop <$> [1; 2; 3; 4; 5]%nat) "MITE" MicrocodeSequencer.init.

(** A compare that can fuse with a following conditional jump. *)
Definition sampleCmp : Instr :=
  {| asm := "cmp rax, rbx"; opcode := "4839D8"; posNominalOpcode := 1;
     instrStr := "CMP (R64, R64)"; portData := [("0156", 1)];
     instr_uops := 1; retireSlots := 1; uopsMITE := 1; uopsMS := 0;
     instr_divCycles := 0;
     inputRegOperands := []; inputFlagOperands := []; inputMemOperands := [];
     outputRegOperands := []; outputFlagOperands := [];
     outputMemOperands := []; memAddrOperands := [];
     agenOperands := []; instr_latencies := ∅; TP := Some 1;
     immediate := None; lcpStall := false; implicitRSPChange := 0;
     mayBeEliminated := false; complexDecoder := false;
     nAvailableSimpleDecoders := Some 4; hasLockPrefix := false;
     isBranchInstr := false; isSerializingInstr := false;
     isLoadSerializing := false; isStoreSerializing := false;
     macroFusibleWith := ["JZ (Rel8)"; "JNZ (Rel8)"];
     macroFusedWithPrevInstr := false;
     macroFusedWithNextInstr := false; UopPropertiesList := [];
     regMergeUopPropertiesList := []; isFirstInstruction := false;
     isUnknownInstr := false |}.

Definition sampleJz : Instr :=
  sampleInstr "jz 0x10" "7410" "JZ (Rel8)" [("06", 1)] 1 0 [].

(** A program of two instructions, of five and of two bytes. *)
Definition sampleProgram : list Instr := [sampleMov; samplePushed].

(** Two simple instructions, one with microcode uops, and another simple
    one. *)
Definition sampleCacheBlock : list InstrInstance :=
  [samplePredecoded 0; samplePredecoded 1] ++ sampleMicrocodedIQ.

(** * Theorems *)

(** ** Ready cycles of renamed operands *)

Lemma with_ren_id (h : Heap) (r : nat) (o : RenamedOperand) :
  h_ren h !! r = Some o -> with_ren r o h = h.
Proof.
  intros Hl. destruct h as [us fs sbs rs]. unfold with_ren. simpl in *.
  f_equal. by apply insert_id.
Qed.

Lemma set_ready_id (o : RenamedOperand) (c : Z) :
  ro_ready o = Some c -> set_ready o c = o.
Proof. destruct o as [n u r]. unfold set_ready. simpl. by intros ->. Qed.

(** A successful query with a known cycle leaves the store as it was, except
    that the answer is memoized in the operand itself. *)
Lemma getReadyCycle_known (h h' : Heap) (self : nat) (v : Z) :
  getReadyCycle self h = Some (Some v, h') ->
  exists o, h_ren h !! self = Some o /\ h' = with_ren self (set_ready o v) h.
Proof.
  unfold getReadyCycle, bind, get_ren, get_uop, get_sb, put_ren, ret.
  intros H. destruct (h_ren h !! self) as [o|] eqn:Ho; [|done].
  exists o. split; [done|].
  destruct (ro_ready o) as [c|] eqn:Hr.
  { simplify_eq. rewrite set_ready_id by done. by rewrite with_ren_id. }
  repeat case_match; simplify_eq; done.
Qed.

(** An unknown answer is never memoized. *)
Lemma getReadyCycle_unknown (h h' : Heap) (self : nat) :
  getReadyCycle self h = Some (None, h') -> h' = h.
Proof.
  unfold getReadyCycle, bind, get_ren, get_uop, get_sb, put_ren, ret.
  intros H. repeat case_match; simplify_eq; done.
Qed.

(** Queries depend on the store only through the objects they read. *)
Lemma readyView_ext (h1 h2 : Heap) (x : nat) :
  h_uops h1 = h_uops h2 -> h_sb h1 = h_sb h2 ->
  h_ren h1 !! x = h_ren h2 !! x ->
  readyView h1 x = readyView h2 x.
Proof.
  destruct h1 as [us1 fs1 sbs1 rs1], h2 as [us2 fs2 sbs2 rs2]. simpl.
  intros -> -> E3.
  unfold readyView, getReadyCycle, bind, get_ren, get_uop, get_sb,
    put_ren, ret. simpl. rewrite E3.
  destruct (rs2 !! x) as [ox|]; [|done].
  destruct (ro_ready ox); [done|].
  destruct (ro_uop ox) as [u|]; [|done]. simpl.
  destruct (us2 !! u) as [uo|]; [|done].
  destruct (dispatched uo); [|done].
  destruct (isLoadUop (prop uo)); [|done].
  destruct (storeBufferEntry uo) as [s|]; [|done]. simpl.
  destruct (sbs2 !! s) as [sb|]; [|done].
  destruct (addressReadyCycle sb); [|done].
  destruct (dataReadyCycle sb); done.
Qed.

(** Memoizing an answer changes no answer. *)
Lemma readyView_memo (h : Heap) (self : nat) (o : RenamedOperand) (v : Z) :
  h_ren h !! self = Some o ->
  readyView h self = Some (Some v) ->
  forall x, readyView (with_ren self (set_ready o v) h) x = readyView h x.
Proof.
  intros Ho Hv x. destruct (decide (x = self)) as [->|Hne].
  - rewrite Hv. unfold readyView, getReadyCycle, bind, get_ren.
    unfold with_ren at 1. cbn [h_ren].
    rewrite lookup_insert_eq. done.
  - apply readyView_ext; try done.
    unfold with_ren. cbn [h_ren]. by rewrite lookup_insert_ne.
Qed.

Lemma inputsReadyCycle_known (ops : list nat) (cs : list Z) :
  forall (h : Heap) (acc : Z),
  Forall2 (fun r c => readyView h r = Some (Some c)) ops cs ->
  exists h', inputsReadyCycle ops acc h = Some (Some (foldl Z.max acc cs), h')
             /\ h_fused h' = h_fused h
             /\ forall x, readyView h' x = readyView h x.
Proof.
  revert cs. induction ops as [|r ops IH]; intros cs h acc HF.
  - inversion HF; subst. exists h. done.
  - inversion HF as [|? c ? cs' Hr HF']; subst. simpl.
    unfold readyView in Hr.
    destruct (getReadyCycle r h) as [[c1 h1]|] eqn:E1; [|done].
    simplify_eq.
    destruct (getReadyCycle_known _ _ _ _ E1) as (o & Ho & ->).
    assert (Hst : forall x,
      readyView (with_ren r (set_ready o c) h) x = readyView h x).
    { apply readyView_memo; [done|]. unfold readyView. by rewrite E1. }
    unfold bind at 1. rewrite E1.
    pose proof (Hst r) as Hr2. unfold readyView at 2 in Hr2. rewrite E1 in Hr2.
    unfold readyView in Hr2.
    destruct (getReadyCycle r (with_ren r (set_ready o c) h))
      as [[c2 h2]|] eqn:E2; [|done].
    simplify_eq.
    destruct (getReadyCycle_known _ _ _ _ E2) as (o2 & Ho2 & ->).
    assert (Hst2 : forall x,
      readyView (with_ren r (set_ready o2 c) (with_ren r (set_ready o c) h)) x
      = readyView h x).
    { intros x. rewrite readyView_memo; [apply Hst|done|].
      unfold readyView. by rewrite E2. }
    unfold bind. rewrite E2.
    destruct (IH cs' (with_ren r (set_ready o2 c) (with_ren r (set_ready o c) h))
      (Z.max acc c)) as (h' & Hrun & Hf & Hv).
    { eapply Forall2_impl; [exact HF'|]. intros x y Hxy. simpl in Hxy.
      by rewrite Hst2. }
    exists h'. split; [exact Hrun|]. split; [by rewrite Hf|].
    intros x. by rewrite Hv, Hst2.
Qed.

(** C2. For a renamed operand whose producing uop has been dispatched in
    cycle [d], the first query of [getReadyCycle] answers [d] plus the
    latency of that output and memoizes it; when the producer is a load with
    a store-buffer entry whose two halves are known, it answers
    [max (d + lat) (max addr data + forwardLatency)], which is at least
    [max addr data + forwardLatency]; when a half is unknown it answers
    unknown and leaves the store untouched; a memoized answer is what later
    queries return. *)
Theorem getReadyCycle_dispatched
    (h : Heap) (self u : nat) (o : RenamedOperand) (uo : Uop) (d : Z) :
  h_ren h !! self = Some o -> ro_ready o = None -> ro_uop o = Some u ->
  h_uops h !! u = Some uo -> dispatched uo = Some d ->
  let lat := latency_of (prop uo) (nonRenamedOperand o) in
  let memo r := with_ren self (set_ready o r) h in
  ((isLoadUop (prop uo) = false \/ storeBufferEntry uo = None) ->
     getReadyCycle self h = Some (Some (d + lat), memo (d + lat)))
  /\ (forall s sb,
        isLoadUop (prop uo) = true -> storeBufferEntry uo = Some s ->
        h_sb h !! s = Some sb ->
        (forall a dr,
           addressReadyCycle sb = Some a -> dataReadyCycle sb = Some dr ->
           let r := Z.max (d + lat) (Z.max a dr + forwardLatency) in
           getReadyCycle self h = Some (Some r, memo r)
           /\ Z.max a dr + forwardLatency <= r)
        /\ ((addressReadyCycle sb = None \/ dataReadyCycle sb = None) ->
             getReadyCycle self h = Some (None, h)))
  /\ (forall r, getReadyCycle self (memo r) = Some (Some r, memo r)).
Proof.
  intros Ho Hr Hu Huo Hd lat memo.
  split; [|split].
  - intros Hplain.
    unfold getReadyCycle, bind, get_ren, get_uop, put_ren, ret.
    rewrite Ho, Hr, Hu, Huo, Hd.
    destruct Hplain as [-> | ->]; [done|].
    by destruct (isLoadUop (prop uo)).
  - intros s sb Hload Hs Hsb. split.
    + intros a dr Ha Hdr r. split; [|lia].
      unfold getReadyCycle, bind, get_ren, get_uop, get_sb, put_ren, ret.
      by rewrite Ho, Hr, Hu, Huo, Hd, Hload, Hs, Hsb, Ha, Hdr.
    + intros Hnone.
      unfold getReadyCycle, bind, get_ren, get_uop, get_sb, put_ren, ret.
      rewrite Ho, Hr, Hu, Huo, Hd, Hload, Hs, Hsb.
      destruct Hnone as [-> | ->]; [done|].
      by destruct (addressReadyCycle sb).
  - intros r. unfold getReadyCycle, bind, get_ren, ret, memo.
    unfold with_ren at 1. cbn [h_ren]. by rewrite lookup_insert_eq.
Qed.

Lemma getReadyCycle_dispatched_witness :
  getReadyCycle 0 sampleLoadHeap
  = Some (Some 14, with_ren 0 (set_ready sampleOutput 14) sampleLoadHeap)
  /\ 10 + forwardLatency <= 14.
Proof.
  destruct (getReadyCycle_dispatched sampleLoadHeap 0 0 sampleOutput
              sampleLoad 3) as (_ & H & _); [reflexivity..|].
  destruct (H 0%nat sampleEntry eq_refl eq_refl eq_refl) as [H1 _].
  exact (H1 10 6 eq_refl eq_refl).
Defined.

(** C3 (as amended). When every renamed input of a uop has a known ready
    cycle, [getReadyForDispatchCycle] answers [max (clock + 1) R], where,
    writing [m] for the maximum input ready cycle (at least [-1]) and [b] for
    [issued + issueDispatchDelay], [R] is [max m b + 1] exactly when [m = b]
    or [m = b + 1], and [max m b] otherwise. *)
Theorem getReadyForDispatchCycle_known
    (cfg : MicroArchConfig) (clock : Z) (h : Heap) (u : nat) (uo : Uop)
    (f : FusedUop) (iss : Z) (cs : list Z) :
  h_uops h !! u = Some uo ->
  h_fused h !! fusedUop uo = Some f -> issued f = Some iss ->
  Forall2 (fun r c => readyView h r = Some (Some c))
          (renamedInputOperands uo) cs ->
  let m := maxInputReady cs in
  let b := iss + issueDispatchDelay cfg in
  exists h' R,
    getReadyForDispatchCycle cfg clock u h
    = Some (Some (Z.max (clock + 1) R), h')
    /\ ((m = b \/ m = b + 1) -> R = Z.max m b + 1)
    /\ (~ (m = b \/ m = b + 1) -> R = Z.max m b).
Proof.
  intros Hu Hf Hi HF m b.
  destruct (inputsReadyCycle_known _ _ h (-1) HF) as (h' & Hrun & Hfu & _).
  unfold getReadyForDispatchCycle, bind, get_uop, get_fused, ret.
  rewrite Hu, Hrun, Hfu, Hf, Hi.
  fold (maxInputReady cs). fold m. fold b.
  eexists h', _. split; [reflexivity|].
  destruct (Z.ltb_spec m b); [split; intros; lia|].
  destruct (Z.eqb_spec m b); simpl; [split; intros; lia|].
  destruct (Z.eqb_spec m (b + 1)); split; intros; lia.
Qed.

Lemma getReadyForDispatchCycle_known_witness :
  exists h' R,
    getReadyForDispatchCycle sampleConfig 2 1 sampleChainHeap
    = Some (Some (Z.max (2 + 1) R), h')
    /\ R = 8.
Proof.
  destruct (getReadyForDispatchCycle_known sampleConfig 2 sampleChainHeap 1
              sampleConsumer (sampleFused [1%nat] 1) 1 [7])
    as (h' & R & Hrun & Hbump & _).
  - reflexivity.
  - reflexivity.
  - reflexivity.
  - repeat constructor.
  - exists h', R. split; [exact Hrun|].
    rewrite Hbump; [reflexivity|right; reflexivity].
Defined.

(** C3 as the specification words it (the bump applies exactly when the
    maximum input ready cycle equals [issued + issueDispatchDelay]) fails: an
    input ready one cycle after the boundary is bumped as well. *)
Lemma getReadyForDispatchCycle_spec_counterexample :
  ~ (forall (cfg : MicroArchConfig) (clock : Z) (h : Heap) (u : nat)
            (uo : Uop) (f : FusedUop) (iss : Z) (cs : list Z),
        h_uops h !! u = Some uo ->
        h_fused h !! fusedUop uo = Some f -> issued f = Some iss ->
        Forall2 (fun r c => readyView h r = Some (Some c))
                (renamedInputOperands uo) cs ->
        exists h',
          getReadyForDispatchCycle cfg clock u h
          = Some (Some (spec_readyForDispatch clock cs
                          (iss + issueDispatchDelay cfg)), h')).
Proof.
  intros Hclaim.
  destruct (Hclaim sampleConfig 2 sampleChainHeap 1%nat sampleConsumer
              (sampleFused [1%nat] 1) 1 [7]) as (h' & Hrun);
    [reflexivity | reflexivity | reflexivity | repeat constructor |].
  vm_compute in Hrun. discriminate Hrun.
Qed.

(** ** The stack engine *)

(** For an instruction that neither reads nor writes [RSP] by name, a
    synchronisation uop is injected exactly when the new offset is above
    [192]; an offset below [-192] is kept as it is. *)
Lemma addStackSyncUop_threshold
    (getCanonicalReg : string -> string) (cfg : MicroArchConfig) (clock : Z)
    (uop : UopNode) (fe : FrontEnd) :
  isFirstUopOfInstr (u_prop uop) = true ->
  readsRSP getCanonicalReg (u_instr uop) = false ->
  writesRSP getCanonicalReg (u_instr uop) = false ->
  let off := RSPOffset fe + implicitRSPChange (u_instr uop) in
  let fe' := addStackSyncUop getCanonicalReg cfg clock uop fe in
  (192 < off -> RSPOffset fe' = 0 /\ length (IDQ fe') = S (length (IDQ fe)))
  /\ (off <= 192 -> RSPOffset fe' = off /\ IDQ fe' = IDQ fe).
Proof.
  intros Hfirst Hr Hw off fe'. subst fe'. unfold addStackSyncUop.
  rewrite Hfirst, Hr, Hw, andb_false_r. simpl. fold off.
  destruct (Z.gtb_spec off 192); simpl.
  - split; [|lia]. intros _. split; [done|].
    rewrite length_app. simpl. lia.
  - split; [lia|]. done.
Qed.

(** C4 (what the code does at the failing input). With the tracked offset at
    [-192], a further push takes it to [-200]: the magnitude exceeds [192],
    yet no synchronisation uop is appended to the IDQ and the offset is not
    reset. *)
Theorem addStackSyncUop_negative_offset :
  let fe' := addStackSyncUop (fun r => r) sampleConfig 7 samplePushUop
               (sampleFrontEnd (-192)) in
  RSPOffset fe' = -200 /\ IDQ fe' = [] /\ stackSyncUops fe' = ∅.
Proof. vm_compute. done. Qed.

(** The mirror image: from [+192] a pop is synchronised. *)
Lemma addStackSyncUop_positive_offset :
  let pop := sampleInstr "pop rax" "58" "POP (R64)" [("23", 1)] 1 8
               [{| reg_id := 0%nat; reg := "RSP"; isImplicitStackOperand := true |}] in
  let uop := {| u_idx := 0%nat; u_prop := plainProp true; u_instr := pop;
                u_instrI := 0%nat; isStackSyncUop := false |} in
  let fe' := addStackSyncUop (fun r => r) sampleConfig 7 uop
               (sampleFrontEnd 192) in
  RSPOffset fe' = 0 /\ length (IDQ fe') = 1%nat.
Proof. vm_compute. done. Qed.

(** ** The predecoder *)

(** C5 (as amended). When the last instruction left in the current 16-byte
    block crosses the boundary, it is never predecoded in that cycle: the
    instructions that enter the predecode queue or the instruction queue are
    those taken before it.  It leaves the block and becomes the partial
    instruction exactly when fewer than five instructions are in the
    predecode queue or its nominal opcode lies in the next block; otherwise
    it stays at the head of its block. *)
Theorem PreDecoder_cycle_boundary
    (cfg : MicroArchConfig) (clock : Z) (pd : PreDecoder)
    (curBlock : list InstrInstance) (rest : list (list InstrInstance))
    (pre : list InstrInstance) (instrI : InstrInstance) :
  stalled pd = 0 -> preDecQueue pd = [] ->
  B16BlockQueue pd = curBlock :: rest ->
  Z.of_nat (length (instructionQueue pd)) + preDecodeWidth cfg <= IQWidth cfg ->
  preDecodeBlock cfg curBlock (option_list (partialInstrI pd)) = ([instrI], pre) ->
  instrInstanceCrosses16ByteBoundary instrI = true ->
  let pd' := PreDecoder_cycle cfg clock pd in
  let leaves := (length pre < 5)%nat \/ 16 <= offsetOfNominalOpcode instrI in
  (leaves -> B16BlockQueue pd' = rest /\ partialInstrI pd' = Some instrI)
  /\ (~ leaves ->
      B16BlockQueue pd' = [instrI] :: rest /\ partialInstrI pd' = None)
  /\ instructionQueue pd' ++ preDecQueue pd'
     = instructionQueue pd
       ++ (if lcpStallCycles pre =? 0 then map (set_predecoded clock) pre
           else pre).
Proof.
  intros Hst Hq Hb Hiq Hblk Hcross pd' leaves. subst pd'.
  unfold PreDecoder_cycle. rewrite Hst, Hq, Hb. simpl.
  destruct (Z.leb_spec (Z.of_nat (length (instructionQueue pd))
                        + preDecodeWidth cfg) (IQWidth cfg)); [|lia].
  simpl. unfold preDecodeGroup. rewrite Hq, Hb. simpl.
  assert (Hpre : match partialInstrI pd with
                 | Some instrI0 => [instrI0]
                 | None => []
                 end = option_list (partialInstrI pd))
    by (by destruct (partialInstrI pd)).
  rewrite Hpre, Hblk, Hcross. simpl.
  destruct (Z.ltb_spec (Z.of_nat (length pre)) 5) as [Hlt|Hge]; simpl.
  - split; [|split].
    + intros _. by destruct (lcpStallCycles pre =? 0).
    + intros Hn. exfalso. apply Hn. left. lia.
    + destruct (lcpStallCycles pre =? 0); simpl; [|done].
      by rewrite app_nil_r.
  - destruct (Z.geb_spec (offsetOfNominalOpcode instrI) 16) as [Hoff|Hoff];
      simpl.
    + split; [|split].
      * intros _. by destruct (lcpStallCycles pre =? 0).
      * intros Hn. exfalso. apply Hn. right. lia.
      * destruct (lcpStallCycles pre =? 0); simpl; [|done].
        by rewrite app_nil_r.
    + split; [|split].
      * intros [Hl|Hl]; lia.
      * intros _. by destruct (lcpStallCycles pre =? 0).
      * destruct (lcpStallCycles pre =? 0); simpl; [|done].
        by rewrite app_nil_r.
Qed.

Lemma PreDecoder_cycle_boundary_witness :
  let pd' := PreDecoder_cycle sampleConfig 3 samplePreDecoder in
  B16BlockQueue pd' = [] /\ partialInstrI pd' = Some (sampleMovAt 14).
Proof.
  destruct (PreDecoder_cycle_boundary sampleConfig 3 samplePreDecoder
              [sampleMovAt 14] [] [] (sampleMovAt 14)) as (H & _ & _);
    [reflexivity | reflexivity | reflexivity | simpl; lia | reflexivity
    | reflexivity |].
  apply H. left. simpl. lia.
Defined.

(** C5 as the specification words it fails: with nothing predecoded yet, a
    boundary-crossing instruction is not predecoded in the cycle; it only
    becomes the partial instruction. *)
Lemma PreDecoder_cycle_spec_counterexample : ~ spec_boundary_rule.
Proof.
  intros Hspec.
  destruct (Hspec sampleConfig 3 samplePreDecoder [sampleMovAt 14] [] []
              (sampleMovAt 14)) as [_ Hdone];
    [reflexivity | reflexivity | reflexivity | simpl; lia | reflexivity
    | reflexivity |].
  destruct Hdone as [Hin | Hin].
  - intros [Hlen _]. simpl in Hlen. lia.
  - vm_compute in Hin. by apply elem_of_nil in Hin.
  - vm_compute in Hin. by apply elem_of_nil in Hin.
Qed.

(** ** The reorder buffer *)

Lemma allExecutedBefore_spec (clock : Z) (us : list nat) (h h' : Heap) (b : bool) :
  ReorderBuffer.allExecutedBefore clock us h = Some (b, h') ->
  h' = h
  /\ (b = true ->
      Forall (fun u => exists uo e, h_uops h !! u = Some uo
                                    /\ executed uo = Some e /\ e < clock) us).
Proof.
  revert b h'. induction us as [|u us IH]; intros b h' Hrun; simpl in Hrun.
  - unfold ret in Hrun. simplify_eq. by split.
  - unfold ReorderBuffer.executedBefore in Hrun.
    unfold bind, get_uop, ret in Hrun. simpl in Hrun.
    destruct (h_uops h !! u) as [uo|] eqn:Hu; [|done]. simpl in Hrun.
    destruct (executed uo) as [e|] eqn:He.
    + destruct (Z.ltb_spec e clock).
      * destruct (IH _ _ Hrun) as [-> Hall]. split; [done|].
        intros Hb. constructor; [by exists uo, e|by apply Hall].
      * simplify_eq. by split.
    + simplify_eq. by split.
Qed.

Lemma executedStrictlyBefore_frame (h h1 : Heap) (clock : Z) (g : nat) :
  h_uops h1 = h_uops h ->
  (forall fo1, h_fused h1 !! g = Some fo1 ->
     exists fo, h_fused h !! g = Some fo /\ fu_uops fo = fu_uops fo1) ->
  executedStrictlyBefore h1 clock g -> executedStrictlyBefore h clock g.
Proof.
  intros Hu Hf (fo1 & Hg & Hall).
  destruct (Hf _ Hg) as (fo & Hfo & Heq).
  exists fo. split; [done|]. rewrite Heq.
  eapply Forall_impl; [exact Hall|]. intros u (uo & e & H1 & H2).
  exists uo, e. by rewrite <- Hu.
Qed.

Ltac nothing_retired :=
  exists []; rewrite ?app_nil_r; simpl;
  repeat split; try done; try lia; eauto; try constructor.

(** What one call of the retire loop does: it moves a prefix [new] of the
    buffer to the retire queue, at most one fused uop per iteration, each of
    them executed strictly before [clock], and stamps them in order. *)
Lemma retireLoop_spec (n : nat) (clock : Z) :
  forall (k : Z) (rb rb' : ReorderBuffer.t) (h h' : Heap),
  ReorderBuffer.retireLoop n clock k rb h = Some (rb', h') ->
  exists new,
    ReorderBuffer.uops rb = new ++ ReorderBuffer.uops rb'
    /\ ReorderBuffer.retireQueue rb' = ReorderBuffer.retireQueue rb ++ new
    /\ (length new <= n)%nat
    /\ h_uops h' = h_uops h
    /\ (forall g, g ∉ new -> h_fused h' !! g = h_fused h !! g)
    /\ (forall g fo', h_fused h' !! g = Some fo' ->
          exists fo, h_fused h !! g = Some fo /\ fu_uops fo = fu_uops fo')
    /\ Forall (executedStrictlyBefore h clock) new
    /\ (NoDup new -> forall i f, new !! i = Some f ->
          exists fo', h_fused h' !! f = Some fo'
                      /\ retired fo' = Some clock
                      /\ retireIdx fo' = Some (k + Z.of_nat i)).
Proof.
  induction n as [|n IH]; intros k rb rb' h h' Hrun; simpl in Hrun.
  { unfold ret in Hrun. simplify_eq. nothing_retired. }
  destruct (ReorderBuffer.uops rb) as [|f rest] eqn:Huops.
  { unfold ret in Hrun. simplify_eq. rewrite Huops. nothing_retired. }
  unfold bind, get_fused in Hrun. simpl in Hrun.
  destruct (h_fused h !! f) as [fo|] eqn:Hf; [|done].
  destruct (ReorderBuffer.allExecutedBefore clock (fu_uops fo) h)
    as [[ok h1]|] eqn:Hall; [|done].
  destruct (allExecutedBefore_spec _ _ _ _ _ Hall) as [-> Hex].
  destruct ok;
    [|unfold ret in Hrun; simplify_eq; rewrite Huops; nothing_retired].
  unfold put_fused in Hrun.
  set (h1 := {| h_uops := h_uops h;
                h_fused := <[f:=ReorderBuffer.set_retired fo clock k]> (h_fused h);
                h_sb := h_sb h; h_ren := h_ren h |}) in Hrun.
  apply IH in Hrun as (new & Hu & Hq & Hlen & Hus & Hframe & Hfu & Hexec & Hstamp).
  simpl in Hu, Hq.
  assert (Hback : forall g fo1, h_fused h1 !! g = Some fo1 ->
            exists fo0, h_fused h !! g = Some fo0 /\ fu_uops fo0 = fu_uops fo1).
  { intros g fo1. unfold h1. simpl. rewrite lookup_insert.
    case_decide; [|eauto]. intros [= <-]. subst g. exists fo. by split. }
  exists (f :: new). repeat split.
  - by rewrite Hu.
  - by rewrite Hq, <- app_assoc.
  - simpl. lia.
  - by rewrite Hus.
  - intros g Hg. apply not_elem_of_cons in Hg as [Hne Hg].
    rewrite (Hframe g Hg). unfold h1. simpl. by rewrite lookup_insert_ne.
  - intros g fo' Hg. destruct (Hfu g fo' Hg) as (fo1 & Hfo1 & Heq).
    destruct (Hback g fo1 Hfo1) as (fo0 & Hfo0 & Heq0).
    exists fo0. split; [done|]. by rewrite Heq0.
  - constructor.
    + exists fo. split; [done|]. by apply Hex.
    + eapply Forall_impl; [exact Hexec|]. intros g Hg.
      eapply (executedStrictlyBefore_frame h h1); [done| |done].
      intros fo1. apply Hback.
  - intros Hnd i g Hi. apply NoDup_cons in Hnd as [Hnotin Hnd].
    destruct i as [|i]; simpl in Hi.
    + simplify_eq. rewrite (Hframe g Hnotin). unfold h1. simpl.
      rewrite lookup_insert_eq. eexists. repeat split. simpl. f_equal. lia.
    + destruct (Hstamp Hnd i g Hi) as (fo' & H1 & H2 & H3).
      exists fo'. repeat split; try done. rewrite H3. f_equal. lia.
Qed.

Lemma markExecuted_fused (clock : Z) (us : list nat) (h h' : Heap) :
  ReorderBuffer.markExecuted clock us h = Some (tt, h') ->
  h_fused h' = h_fused h.
Proof.
  revert h. induction us as [|u us IH]; intros h Hrun; simpl in Hrun.
  - unfold ret in Hrun. by simplify_eq.
  - unfold bind, get_uop in Hrun. simpl in Hrun.
    destruct (h_uops h !! u) as [uo|]; [|done].
    destruct (ReorderBuffer.noPossiblePorts (prop uo) || eliminated uo).
    + unfold put_uop in Hrun. apply IH in Hrun. by rewrite Hrun.
    + unfold ret in Hrun. by apply IH in Hrun.
Qed.

Lemma addUops_spec (clock : Z) (newUops : list nat) :
  forall (rb rb' : ReorderBuffer.t) (h h' : Heap),
  ReorderBuffer.addUops clock newUops rb h = Some (rb', h') ->
  ReorderBuffer.uops rb' = ReorderBuffer.uops rb ++ newUops
  /\ ReorderBuffer.retireQueue rb' = ReorderBuffer.retireQueue rb
  /\ h_fused h' = h_fused h.
Proof.
  induction newUops as [|f fs IH]; intros rb rb' h h' Hrun; simpl in Hrun.
  - unfold ret in Hrun. simplify_eq. by rewrite app_nil_r.
  - unfold bind, get_fused in Hrun. simpl in Hrun.
    destruct (h_fused h !! f) as [fo|]; [|done].
    destruct (ReorderBuffer.markExecuted clock (fu_uops fo) h)
      as [[[] h1]|] eqn:Hm; [|done].
    apply markExecuted_fused in Hm.
    apply IH in Hrun as (Hu & Hq & Hf). simpl in Hu, Hq.
    repeat split; [by rewrite Hu, <- app_assoc|done|by rewrite Hf].
Qed.

Lemma cycle_spec (cfg : MicroArchConfig) (clock : Z) (issue : list nat)
    (rb rb' : ReorderBuffer.t) (h h' : Heap) :
  ReorderBuffer.cycle cfg clock issue rb h = Some (rb', h') ->
  exists new mid,
    ReorderBuffer.uops rb = new ++ mid
    /\ ReorderBuffer.uops rb' = mid ++ issue
    /\ ReorderBuffer.retireQueue rb' = ReorderBuffer.retireQueue rb ++ new
    /\ (forall g, g ∉ new -> h_fused h' !! g = h_fused h !! g)
    /\ (NoDup new -> forall i f, new !! i = Some f ->
          exists fo', h_fused h' !! f = Some fo'
                      /\ retired fo' = Some clock
                      /\ retireIdx fo' = Some (Z.of_nat i)).
Proof.
  unfold ReorderBuffer.cycle, ReorderBuffer.retireUops, bind. intros Hrun.
  destruct (ReorderBuffer.retireLoop _ clock 0 rb h) as [[rb1 h1]|] eqn:Hr;
    [|done].
  apply retireLoop_spec in Hr
    as (new & Hu & Hq & _ & _ & Hframe & _ & _ & Hstamp).
  apply addUops_spec in Hrun as (Hu' & Hq' & Hf).
  exists new, (ReorderBuffer.uops rb1). repeat split; try done.
  - by rewrite Hq'.
  - intros g Hg. rewrite Hf. by apply Hframe.
  - intros Hnd i f Hi. rewrite Hf.
    destruct (Hstamp Hnd i f Hi) as (fo' & H1 & H2 & H3).
    exists fo'. by repeat split.
Qed.

Lemma StronglySorted_mono {A} (R1 R2 : A -> A -> Prop) (l : list A) :
  (forall x y, x ∈ l -> y ∈ l -> R1 x y -> R2 x y) ->
  StronglySorted R1 l -> StronglySorted R2 l.
Proof.
  induction l as [|x l IH]; intros Himp Hs; [constructor|].
  apply StronglySorted_cons in Hs as [Hx Hs].
  apply StronglySorted_cons. split.
  - apply Forall_forall. intros y Hy.
    apply Himp; [left|by right|]. by eapply Forall_forall in Hx.
  - apply IH; [|done]. intros a b Ha Hb. apply Himp; by right.
Qed.

Lemma StronglySorted_lookup {A} (R : A -> A -> Prop) (l : list A) :
  StronglySorted R l ->
  forall i j x y, (i < j)%nat -> l !! i = Some x -> l !! j = Some y -> R x y.
Proof.
  induction 1 as [|x l Hs IH Hx]; intros i j a b Hij Hi Hj; [done|].
  destruct j as [|j]; [lia|]. simpl in Hj.
  destruct i as [|i]; simpl in Hi.
  - simplify_eq. eapply Forall_forall in Hx; [done|].
    by eapply list_elem_of_lookup_2.
  - eapply (IH i j); [lia|done|done].
Qed.

(** Fused uops stamped in the same cycle with increasing indices are in
    order. *)
Lemma stamped_sorted (h : Heap) (clock : Z) (new : list nat) :
  forall k : Z,
  (forall i f, new !! i = Some f ->
     exists fo, h_fused h !! f = Some fo
                /\ retired fo = Some clock
                /\ retireIdx fo = Some (k + Z.of_nat i)) ->
  StronglySorted (retiresBefore h) new.
Proof.
  induction new as [|x new IH]; intros k Hst; [constructor|].
  apply StronglySorted_cons. split.
  - apply Forall_forall. intros y Hy.
    apply list_elem_of_lookup in Hy as [j Hj].
    destruct (Hst 0%nat x eq_refl) as (fo1 & H1 & H2 & H3).
    destruct (Hst (S j) y Hj) as (fo2 & H4 & H5 & H6).
    exists fo1, fo2, clock, (k + Z.of_nat 0), clock, (k + Z.of_nat (S j)).
    repeat split; try done. right. lia.
  - apply (IH (k + 1)). intros i f Hi.
    destruct (Hst (S i) f Hi) as (fo & H1 & H2 & H3).
    exists fo. repeat split; try done. rewrite H3. f_equal. lia.
Qed.

Lemma retiresBefore_frame (h h' : Heap) (f1 f2 : nat) :
  (forall f fo, (f = f1 \/ f = f2) -> h_fused h !! f = Some fo ->
     exists fo', h_fused h' !! f = Some fo'
                 /\ retired fo' = retired fo /\ retireIdx fo' = retireIdx fo) ->
  retiresBefore h f1 f2 -> retiresBefore h' f1 f2.
Proof.
  intros Hfr (fo1 & fo2 & r1 & k1 & r2 & k2 & H1 & H2 & H3 & H4 & H5 & H6 & H7).
  destruct (Hfr f1 fo1 (or_introl eq_refl) H1) as (fo1' & ? & E1 & E2).
  destruct (Hfr f2 fo2 (or_intror eq_refl) H2) as (fo2' & ? & E3 & E4).
  exists fo1', fo2', r1, k1, r2, k2.
  rewrite E1, E2, E3, E4. by repeat split.
Qed.

Lemma retiredBy_frame (h h' : Heap) (c c' : Z) (f : nat) :
  (forall fo, h_fused h !! f = Some fo ->
     exists fo', h_fused h' !! f = Some fo'
                 /\ retired fo' = retired fo /\ retireIdx fo' = retireIdx fo) ->
  c <= c' -> retiredBy h c f -> retiredBy h' c' f.
Proof.
  intros Hfr Hc (fo & r & k & H1 & H2 & H3 & H4).
  destruct (Hfr fo H1) as (fo' & ? & E1 & E2).
  exists fo', r, k. rewrite E1, E2. repeat split; try done. lia.
Qed.

(** The invariant of the run: what has been retired so far is the part of
    the issue sequence that has left the buffer, stamped in order. *)
Lemma simulate_spec (cfg : MicroArchConfig)
    (steps : list ((Heap -> Heap) * list nat)) :
  forall (clock : Z) (rb rb' : ReorderBuffer.t) (log log' : list nat)
         (h h' : Heap),
  simulate cfg clock steps rb log h = Some ((rb', log'), h') ->
  Forall (fun s => preservesRetirement s.1) steps ->
  ReorderBuffer.retireQueue rb = [] ->
  NoDup (log ++ ReorderBuffer.uops rb ++ concat (steps.*2)) ->
  Forall (retiredBy h clock) log ->
  StronglySorted (retiresBefore h) log ->
  log' ++ ReorderBuffer.uops rb' = log ++ ReorderBuffer.uops rb ++ concat (steps.*2)
  /\ StronglySorted (retiresBefore h') log'.
Proof.
  induction steps as [|[env issue] steps IH];
    intros clock rb rb' log log' h h' Hrun Henv Hq Hnd Hret Hsorted.
  { simpl in Hrun. unfold ret in Hrun. simplify_eq. simpl.
    by rewrite app_nil_r. }
  simpl in Hrun.
  destruct (ReorderBuffer.cycle cfg clock issue rb (env h))
    as [[rb1 h1]|] eqn:Hc; [|done].
  apply Forall_cons in Henv as [Hfr Henv]. simpl in Hfr.
  apply cycle_spec in Hc as (new & mid & Hu & Hu1 & Hq1 & Hframe & Hstamp).
  rewrite Hq in Hq1. simpl in Hq1. rewrite Hq1 in Hrun.
  simpl in Hnd. rewrite Hu in Hnd.
  assert (Hnd' : NoDup ((log ++ new) ++ (mid ++ issue) ++ concat (steps.*2))).
  { by rewrite <- !app_assoc in *. }
  assert (Hnew : NoDup new /\ forall x, x ∈ log -> x ∉ new).
  { apply NoDup_app in Hnd' as [Hln _].
    apply NoDup_app in Hln as (_ & Hdis & Hn). by split. }
  destruct Hnew as [Hndnew Hdis].
  assert (Hkeep : forall f fo, f ∈ log -> h_fused h !! f = Some fo ->
            exists fo', h_fused h1 !! f = Some fo'
              /\ retired fo' = retired fo /\ retireIdx fo' = retireIdx fo).
  { intros f fo Hin Hf. destruct (Hfr h f fo Hf) as (fo' & H1 & H2 & H3).
    exists fo'. rewrite (Hframe f (Hdis f Hin)). by repeat split. }
  apply IH in Hrun as [Heq Hs]; try done.
  - split; [|done]. rewrite Heq. simpl. rewrite Hu1, Hu.
    by rewrite <- !app_assoc.
  - simpl. by rewrite Hu1.
  - apply Forall_app. split.
    + apply Forall_forall. intros f Hin.
      eapply Forall_forall in Hret; [|exact Hin].
      eapply retiredBy_frame; [|shelve|exact Hret].
      intros fo. by apply Hkeep.
    + apply Forall_forall. intros f Hin.
      apply list_elem_of_lookup in Hin as [i Hi].
      destruct (Hstamp Hndnew i f Hi) as (fo' & H1 & H2 & H3).
      exists fo', clock, (Z.of_nat i). repeat split; try done. lia.
  - apply StronglySorted_app. repeat split.
    + intros f1 f2 Hin1 Hin2.
      eapply Forall_forall in Hret; [|exact Hin1].
      destruct Hret as (fo1 & r1 & k1 & G1 & G2 & G3 & G4).
      destruct (Hkeep f1 fo1 Hin1 G1) as (fo1' & G5 & G6 & G7).
      apply list_elem_of_lookup in Hin2 as [i Hi].
      destruct (Hstamp Hndnew i f2 Hi) as (fo2 & H1 & H2 & H3).
      exists fo1', fo2, r1, k1, clock, (Z.of_nat i).
      rewrite G6, G7. repeat split; try done. by left.
    + eapply StronglySorted_mono; [|exact Hsorted].
      intros x y Hx Hy. apply retiresBefore_frame.
      intros f fo [-> | ->]; by apply Hkeep.
    + apply (stamped_sorted h1 clock new 0). intros i f Hi.
      destruct (Hstamp Hndnew i f Hi) as (fo' & H1 & H2 & H3).
      exists fo'. by repeat split.
  Unshelve. lia.
Qed.

(** C7. Retirement is in program order: take any run of the reorder buffer
    from its initial state over consecutive cycles, in which every fused uop
    is issued once and nothing but [retireUops] writes [retired] and
    [retireIdx].  Then what has retired is a prefix of the issue sequence,
    and of two retired fused uops the one issued first has the smaller
    [(retired, retireIdx)].  In every call of [retireUops] the fused uops
    that retire are taken from the head of the buffer, there are at most
    [retireWidth] of them, and all unfused uops of each have executed
    strictly before the current clock. *)
Theorem retirement_in_program_order
    (cfg : MicroArchConfig) (clock0 : Z)
    (steps : list ((Heap -> Heap) * list nat))
    (rb : ReorderBuffer.t) (log : list nat) (h0 h : Heap) :
  Forall (fun s => preservesRetirement s.1) steps ->
  NoDup (concat (steps.*2)) ->
  simulate cfg clock0 steps ReorderBuffer.init [] h0 = Some ((rb, log), h) ->
  log ++ ReorderBuffer.uops rb = concat (steps.*2)
  /\ (forall i j f1 f2,
        (i < j < length log)%nat ->
        concat (steps.*2) !! i = Some f1 ->
        concat (steps.*2) !! j = Some f2 ->
        retiresBefore h f1 f2)
  /\ (forall clock rb1 rb2 h1 h2,
        ReorderBuffer.retireUops cfg clock rb1 h1 = Some (rb2, h2) ->
        exists new,
          ReorderBuffer.uops rb1 = new ++ ReorderBuffer.uops rb2
          /\ ReorderBuffer.retireQueue rb2 = ReorderBuffer.retireQueue rb1 ++ new
          /\ Z.of_nat (length new) <= Z.max 0 (retireWidth cfg)
          /\ Forall (executedStrictlyBefore h1 clock) new).
Proof.
  intros Henv Hnd Hrun.
  apply simulate_spec in Hrun as [Heq Hs]; try done; [|constructor..].
  simpl in Heq. split; [done|]. split.
  - intros i j f1 f2 Hij Hi Hj. rewrite <- Heq in Hi, Hj.
    rewrite lookup_app_l in Hi by lia. rewrite lookup_app_l in Hj by lia.
    eapply StronglySorted_lookup; [exact Hs| |exact Hi|exact Hj]. lia.
  - intros clock rb1 rb2 h1 h2 Hr. unfold ReorderBuffer.retireUops in Hr.
    apply retireLoop_spec in Hr as (new & H1 & H2 & H3 & _ & _ & _ & H4 & _).
    exists new. repeat split; try done. lia.
Qed.

Lemma retirement_in_program_order_witness :
  exists rb h,
    simulate sampleConfig 1 sampleSteps ReorderBuffer.init [] sampleRetireHeap
    = Some ((rb, [0%nat; 1%nat]), h)
    /\ retiresBefore h 0%nat 1%nat.
Proof.
  assert (Henv : Forall (fun s : (Heap -> Heap) * list nat =>
                           preservesRetirement s.1) sampleSteps).
  { repeat constructor; intros h f fo Hf; exists fo; by repeat split. }
  assert (Hnd : NoDup (concat (sampleSteps.*2))).
  { simpl. apply NoDup_cons. split; [set_solver|]. apply NoDup_singleton. }
  eexists _, _. split; [vm_compute; reflexivity|].
  destruct (retirement_in_program_order sampleConfig 1 sampleSteps _
              [0%nat; 1%nat] sampleRetireHeap _ Henv Hnd
              ltac:(vm_compute; reflexivity)) as (_ & Hord & _).
  apply (Hord 0%nat 1%nat); [simpl; lia|reflexivity|reflexivity].
Defined.

(** ** The loop of [main] *)

Section MainLoopFacts.

Variable Sim : Type.
Variable frontEnd_cycle : Z -> Sim -> option (Sim * list Main.RetiredUop).
Variable nInstructions : nat.

Local Abbreviation LoopState := (Main.LoopState Sim).
Local Abbreviation body := (Main.body Sim frontEnd_cycle nInstructions).
Local Abbreviation mainLoop := (Main.mainLoop Sim frontEnd_cycle nInstructions).
Local Abbreviation loopHead := (Main.loopHead Sim frontEnd_cycle nInstructions).
Local Abbreviation exitCondition := (Main.exitCondition Sim).
Local Abbreviation Exited := (Main.Exited Sim).

Lemma drainRetireQueue_rnd (q : list Main.RetiredUop) :
  forall u r u' r',
  Main.drainRetireQueue nInstructions q (u, r) = Some (u', r') ->
  r' = Main.lastRetiredRound q r.
Proof.
  unfold Main.lastRetiredRound.
  induction q as [|f q IH]; intros u r u' r' Hrun; simpl in Hrun.
  - by simplify_eq.
  - destruct (Main.recordRetired nInstructions f (u, r)) as [[u1 r1]|] eqn:Hf;
      [|done].
    apply IH in Hrun. rewrite Hrun. simpl.
    unfold Main.recordRetired in Hf.
    destruct (Main.r_first f) as [[instr x]|]; simpl in *.
    + repeat case_match; simplify_eq;
        rewrite last_cons; by destruct (last _).
    + by simplify_eq.
Qed.

Lemma body_clock (st st' : LoopState) :
  body st = Some st' -> Main.clock Sim st' = Main.clock Sim st.
Proof.
  unfold Main.body. intros H. repeat case_match; simplify_eq. done.
Qed.

Lemma loopHead_clock (k : nat) :
  forall st0 st : LoopState,
  loopHead k st0 = Some st ->
  Main.clock Sim st = Main.clock Sim st0 + Z.of_nat k.
Proof.
  induction k as [|k IH]; intros st0 st H; simpl in H.
  - simplify_eq. lia.
  - destruct (body st0) as [st'|] eqn:Hb; [|done].
    destruct (exitCondition st'); [done|].
    apply IH in H. apply body_clock in Hb. rewrite H. simpl. lia.
Qed.

Lemma mainLoop_Exited (fuel : nat) :
  forall st0 r : LoopState,
  mainLoop fuel st0 = Exited r <->
  exists k st, (k < fuel)%nat /\ loopHead k st0 = Some st
               /\ body st = Some r /\ exitCondition r = true.
Proof.
  induction fuel as [|fuel IH]; intros st0 r; simpl.
  - split; [done|]. intros (k & st & Hk & _). lia.
  - split.
    + intros H. destruct (body st0) as [st'|] eqn:Hb; [|done].
      destruct (exitCondition st') eqn:He.
      * simplify_eq. exists 0%nat, st0. repeat split; [lia|done|done].
      * apply IH in H as (k & st & Hk & Hh & Hbd & Hex).
        exists (S k), st. repeat split; [lia| |done|done].
        simpl. by rewrite Hb, He.
    + intros (k & st & Hk & Hh & Hbd & Hex). destruct k as [|k]; simpl in Hh.
      * simplify_eq. by rewrite Hbd, Hex.
      * destruct (body st0) as [st'|] eqn:Hb; [|done].
        destruct (exitCondition st') eqn:He; [done|].
        apply IH. exists k, st. repeat split; [lia|done|done|done].
Qed.

(** C8. The loop of [main] leaves through its [break] exactly when the test
    [rnd >= 10 and clock > 500] holds at the end of an iteration, all earlier
    iterations having failed it (and none having raised); every iteration
    that does not leave adds one to the clock; [rnd] is the round of the
    fused uop retired last; so the loop terminates if and only if the test
    eventually holds. *)
Theorem mainLoop_exit (st0 : LoopState) :
  (forall fuel r,
     mainLoop fuel st0 = Exited r <->
     exists k st, (k < fuel)%nat /\ loopHead k st0 = Some st
                  /\ body st = Some r /\ exitCondition r = true)
  /\ (forall k st,
        loopHead k st0 = Some st ->
        Main.clock Sim st = Main.clock Sim st0 + Z.of_nat k)
  /\ (forall st sim' q st',
        frontEnd_cycle (Main.clock Sim st) (Main.sim Sim st) = Some (sim', q) ->
        body st = Some st' ->
        Main.rnd Sim st' = Main.lastRetiredRound q (Main.rnd Sim st)
        /\ Main.clock Sim st' = Main.clock Sim st)
  /\ (forall r, exitCondition r = true <->
                (10 <= Main.rnd Sim r)%nat /\ 500 < Main.clock Sim r)
  /\ ((exists fuel r, mainLoop fuel st0 = Exited r) <->
      (exists k st r, loopHead k st0 = Some st
                      /\ body st = Some r /\ exitCondition r = true)).
Proof.
  split; [|split; [|split; [|split]]].
  - intros fuel r. apply mainLoop_Exited.
  - intros k st. apply loopHead_clock.
  - intros st sim' q st' Hf Hb. split; [|by apply body_clock].
    unfold Main.body in Hb. rewrite Hf in Hb.
    destruct (Main.drainRetireQueue _ q _) as [[u' r']|] eqn:Hd; [|done].
    simplify_eq. simpl. by eapply drainRetireQueue_rnd.
  - intros r. unfold Main.exitCondition.
    rewrite andb_true_iff, Nat.leb_le, Z.gtb_lt. done.
  - split.
    + intros (fuel & r & H). apply mainLoop_Exited in H as (k & st & _ & H).
      by exists k, st, r.
    + intros (k & st & r & Hh & Hb & He). exists (S k), r.
      apply mainLoop_Exited. exists k, st. repeat split; [lia|done..].
Qed.

End MainLoopFacts.

(** A simulator that retires one fused uop per cycle, fifty per round,
    leaves the loop in cycle 501. *)
Lemma mainLoop_exit_sample :
  match Main.mainLoop unit sampleSimulator 1 600 sampleLoopState with
  | Main.Exited _ r => Main.clock unit r = 501 /\ Main.rnd unit r = 10%nat
  | _ => False
  end.
Proof. vm_compute. done. Qed.

(** ** Dispatch *)

Lemma heappop_head (q q' : list nat) (u : nat) :
  heapq.heappop q = Some (u, q') -> exists rest, q = u :: rest.
Proof.
  destruct q as [|x [|y q]]; simpl; intros H; simplify_eq; eauto.
Qed.

Lemma differentCacheLines_spec (a4 a9 : AbstractAddress) :
  Scheduler.differentCacheLines (Some a4) (Some a9) = true
  <-> indicateDifferentLines a4 a9.
Proof.
  destruct a4 as [[[b4 i4] s4] d4], a9 as [[[b9 i9] s9] d9]. simpl.
  rewrite !orb_true_iff, !negb_true_iff, !Z.eqb_neq, Z.geb_le. tauto.
Qed.

Lemma sameCacheLine_spec (a4 a9 : AbstractAddress) :
  Scheduler.differentCacheLines (Some a4) (Some a9) = false
  <-> Scheduler.sameCacheLine a4 a9.
Proof.
  destruct a4 as [[[b4 i4] s4] d4], a9 as [[[b9 i9] s9] d9]. simpl.
  rewrite !orb_false_iff, !negb_false_iff, !Z.eqb_eq.
  destruct (Z.geb_spec (Z.abs (d4 - d9)) 64); split; intros; try lia; tauto.
Qed.

Lemma fingerprint_heap (u : nat) (h h' : Heap) (a : option AbstractAddress) :
  Scheduler.fingerprint u h = Some (a, h') -> h' = h.
Proof.
  unfold Scheduler.fingerprint, bind, get_uop, get_sb, raise, ret.
  intros H. repeat (case_match; simplify_eq; simpl in * ); done.
Qed.

Lemma remove_first_NoDup (p : Port) (ports : list Port) :
  NoDup ports ->
  NoDup (Scheduler.remove_first p ports)
  /\ (p ∉ Scheduler.remove_first p ports)
  /\ (forall q, q ∈ Scheduler.remove_first p ports -> q ∈ ports).
Proof.
  induction ports as [|q ports IH]; intros Hnd; simpl.
  - repeat split; [constructor|set_solver|done].
  - apply NoDup_cons in Hnd as [Hq Hnd].
    destruct (String.eqb_spec p q) as [->|Hne].
    + repeat split; [done|done|]. intros x Hx. by right.
    + destruct (IH Hnd) as (H1 & H2 & H3). repeat split.
      * apply NoDup_cons. split; [|done]. intros Hin. apply Hq. by apply H3.
      * intros Hin. apply elem_of_cons in Hin as [?|?]; [done|by apply H2].
      * intros x Hx. apply elem_of_cons in Hx as [->|Hx]; [left|right; eauto].
Qed.

Ltac all_ports :=
  unfold ret; intros H; simplify_eq; repeat split; try done;
  intros; simplify_eq.

(** The ports that may dispatch: all of them, except that of the younger
    head when ports 4 and 9 both have a head and the fingerprints of the two
    heads name different lines. *)
Lemma applicablePorts_spec (cfg : MicroArchConfig) (s : Scheduler.t)
    (h h' : Heap) (ports : list Port) :
  NoDup (allPorts cfg) ->
  Scheduler.applicablePorts cfg s h = Some (ports, h') ->
  h' = h /\ NoDup ports /\ (forall q, q ∈ ports -> q ∈ allPorts cfg)
  /\ (forall u4 q4 u9 q9,
        "4"%string ∈ allPorts cfg -> "9"%string ∈ allPorts cfg ->
        Scheduler.readyQueue s !! "4"%string = Some (u4 :: q4) ->
        Scheduler.readyQueue s !! "9"%string = Some (u9 :: q9) ->
        exists a4 a9,
          Scheduler.fingerprint u4 h = Some (a4, h)
          /\ Scheduler.fingerprint u9 h = Some (a9, h)
          /\ (Scheduler.differentCacheLines a4 a9 = true ->
              ((u4 <= u9)%nat -> "9"%string ∉ ports)
              /\ ((u9 < u4)%nat -> "4"%string ∉ ports))).
Proof.
  intros Hnd. unfold Scheduler.applicablePorts.
  destruct (existsb (Scheduler.isPort "4") (allPorts cfg)
            && existsb (Scheduler.isPort "9") (allPorts cfg)) eqn:Hboth.
  2: { unfold ret. intros H. simplify_eq. repeat split; [done|done|].
       intros u4 q4 u9 q9 H4 H9 _ _. exfalso.
       apply andb_false_iff in Hboth as [Hf|Hf];
         apply not_true_iff_false in Hf; apply Hf; apply existsb_exists.
       - exists "4"%string. split; [by apply list_elem_of_In|done].
       - exists "9"%string. split; [by apply list_elem_of_In|done]. }
  destruct (Scheduler.readyQueue s !! "4"%string) as [[|uop4 q4']|] eqn:Hq4;
    [all_ports| |by unfold raise].
  destruct (Scheduler.readyQueue s !! "9"%string) as [[|uop9 q9']|] eqn:Hq9;
    [all_ports| |by unfold raise].
  unfold bind.
  destruct (Scheduler.fingerprint uop4 h) as [[a4 h1]|] eqn:Hf4; [|done].
  pose proof (fingerprint_heap _ _ _ _ Hf4) as ->.
  destruct (Scheduler.fingerprint uop9 h) as [[a9 h1]|] eqn:Hf9; [|done].
  pose proof (fingerprint_heap _ _ _ _ Hf9) as ->.
  destruct (Scheduler.differentCacheLines a4 a9) eqn:Hd.
  - destruct (Nat.leb_spec uop4 uop9) as [Hle|Hgt];
      unfold ret; intros H; simplify_eq.
    + destruct (remove_first_NoDup "9" _ Hnd) as (H1 & H2 & H3).
      repeat split; [done|done|].
      intros u4 q4 u9 q9 _ _ ? ?. simplify_eq.
      exists a4, a9. repeat split; [done|done|done|lia].
    + destruct (remove_first_NoDup "4" _ Hnd) as (H1 & H2 & H3).
      repeat split; [done|done|].
      intros u4 q4 u9 q9 _ _ ? ?. simplify_eq.
      exists a4, a9. repeat split; [done|done|lia|done].
  - unfold ret; intros H; simplify_eq. repeat split; [done|done|].
    intros u4 q4 u9 q9 _ _ ? ?. simplify_eq.
    exists a4, a9. split; [done|]. split; [done|]. intros Ht. congruence.
Qed.

(** What is dispatched through a port other than port 0 is the head that
    the port's ready queue had when [dispatchUops] was entered. *)
Lemma dispatchLoop_log (clock : Z) (ports : list Port) :
  NoDup ports ->
  forall (s s' : Scheduler.t) (log log' : list (Port * nat)) (h h' : Heap),
  Scheduler.dispatchLoop clock ports s log h = Some ((s', log'), h') ->
  exists new, log' = log ++ new
    /\ forall p u, (p, u) ∈ new ->
         p ∈ ports
         /\ (Scheduler.isPort p "0" = false ->
             exists rest, Scheduler.readyQueue s !! p = Some (u :: rest)).
Proof.
  induction ports as [|port ports IH]; intros Hnd s s' log log' h h' Hrun;
    simpl in Hrun.
  { unfold ret in Hrun. simplify_eq. exists []. rewrite app_nil_r.
    split; [done|]. intros p u Hin. by apply elem_of_nil in Hin. }
  apply NoDup_cons in Hnd as [Hport Hnd].
  destruct (Scheduler.readyQueue s !! port) as [q|] eqn:Hq; [|done].
  set (viaDiv := Scheduler.divUopGoes port s q) in *.
  destruct (heapq.heappop (if viaDiv then Scheduler.readyDivUops s else q))
    as [[uop queue']|] eqn:Hpop.
  - unfold bind, get_uop, put_uop in Hrun. simpl in Hrun.
    destruct (h_uops h !! uop) as [uo|]; [|done]. simpl in Hrun.
    case_bool_decide; [|done].
    apply IH in Hrun as (new & -> & Hnew); [|done].
    exists ((port, uop) :: new). split; [by rewrite <- app_assoc|].
    intros p u Hin. apply elem_of_cons in Hin as [Heq|Hin].
    + simplify_eq. split; [left|]. intros Hp0.
      assert (viaDiv = false) as Hv.
      { unfold viaDiv, Scheduler.divUopGoes. by rewrite Hp0. }
      rewrite Hv in Hpop. apply heappop_head in Hpop as [rest ->]. eauto.
    + destruct (Hnew p u Hin) as [Hp Hhead]. split; [by right|].
      intros Hp0. destruct (Hhead Hp0) as [rest Hrest]. exists rest.
      simpl in Hrest. destruct viaDiv; [done|].
      rewrite lookup_insert_ne in Hrest; [done|]. intros ->. done.
  - apply IH in Hrun as (new & -> & Hnew); [|done].
    exists new. split; [done|]. intros p u Hin.
    destruct (Hnew p u Hin) as [Hp Hhead]. split; [by right|done].
Qed.

(** C1. In one call of [dispatchUops]: when the ready queues of ports 4 and
    9 both have a head, both fingerprints are there and they name different
    cache lines, nothing is dispatched through the port of the head with the
    larger index; hence two uops dispatched in the same call through ports 4
    and 9 whose fingerprints are there access the same cache line. *)
Theorem dispatchUops_paired_stores
    (cfg : MicroArchConfig) (clock : Z) (s s' : Scheduler.t)
    (log : list (Port * nat)) (h h' : Heap) :
  NoDup (allPorts cfg) ->
  Scheduler.dispatchUops cfg clock s h = Some ((s', log), h') ->
  (forall u4 q4 u9 q9 a4 a9,
     "4"%string ∈ allPorts cfg -> "9"%string ∈ allPorts cfg ->
     Scheduler.readyQueue s !! "4"%string = Some (u4 :: q4) ->
     Scheduler.readyQueue s !! "9"%string = Some (u9 :: q9) ->
     Scheduler.fingerprint u4 h = Some (Some a4, h) ->
     Scheduler.fingerprint u9 h = Some (Some a9, h) ->
     indicateDifferentLines a4 a9 ->
     ((u4 <= u9)%nat -> forall u, ("9"%string, u) ∉ log)
     /\ ((u9 < u4)%nat -> forall u, ("4"%string, u) ∉ log))
  /\ (forall u4 u9 a4 a9,
        ("4"%string, u4) ∈ log -> ("9"%string, u9) ∈ log ->
        Scheduler.fingerprint u4 h = Some (Some a4, h) ->
        Scheduler.fingerprint u9 h = Some (Some a9, h) ->
        Scheduler.sameCacheLine a4 a9).
Proof.
  intros Hnd Hrun. unfold Scheduler.dispatchUops, bind in Hrun.
  destruct (Scheduler.applicablePorts cfg s h) as [[ports h1]|] eqn:Hap;
    [|done].
  apply applicablePorts_spec in Hap as (-> & Hndp & Hsub & Hguard); [|done].
  destruct (Scheduler.dispatchLoop clock ports s [] h) as [[[s1 log1] h1]|]
    eqn:Hloop; [|done].
  simpl in Hrun.
  destruct (Scheduler.releasePorts _ _ h1) as [[usage h2]|]; [|done].
  unfold ret in Hrun. simplify_eq.
  apply dispatchLoop_log in Hloop as (new & Heq & Hnew); [|done].
  simpl in Heq. subst new. split.
  - intros u4 q4 u9 q9 a4 a9 H4 H9 Hq4 Hq9 Hf4 Hf9 Hdiff.
    destruct (Hguard u4 q4 u9 q9 H4 H9 Hq4 Hq9) as (a4' & a9' & G4 & G9 & G).
    simplify_eq. apply differentCacheLines_spec in Hdiff.
    destruct (G Hdiff) as [Gle Ggt]. split.
    + intros Hle u Hin. apply (Gle Hle). by apply (Hnew _ _ Hin).
    + intros Hlt u Hin. apply (Ggt Hlt). by apply (Hnew _ _ Hin).
  - intros u4 u9 a4 a9 Hin4 Hin9 Hf4 Hf9.
    destruct (Hnew _ _ Hin4) as [Hp4 Hh4].
    destruct (Hnew _ _ Hin9) as [Hp9 Hh9].
    destruct (Hh4 eq_refl) as [q4 Hq4]. destruct (Hh9 eq_refl) as [q9 Hq9].
    destruct (Hguard u4 q4 u9 q9 (Hsub _ Hp4) (Hsub _ Hp9) Hq4 Hq9)
      as (a4' & a9' & G4 & G9 & G).
    simplify_eq. apply sameCacheLine_spec.
    destruct (Scheduler.differentCacheLines (Some a4) (Some a9)) eqn:Hd;
      [|done].
    destruct (G eq_refl) as [Gle Ggt].
    destruct (Nat.le_gt_cases u4 u9) as [Hle|Hgt].
    + by destruct (Gle Hle).
    + by destruct (Ggt Hgt).
Qed.

Lemma sampleConfig10_NoDup : NoDup (allPorts sampleConfig10).
Proof. by apply (bool_decide_unpack _). Qed.

Lemma dispatchUops_paired_stores_witness :
  exists s' h',
    Scheduler.dispatchUops sampleConfig10 4 sampleScheduler (sampleStoreHeap 8)
    = Some ((s', [("4"%string, 10%nat); ("9"%string, 11%nat)]), h')
    /\ Scheduler.sameCacheLine (1, 0, 1, 0) (1, 0, 1, 8).
Proof.
  eexists _, _. split; [vm_compute; reflexivity|].
  destruct (dispatchUops_paired_stores sampleConfig10 4 sampleScheduler _
              [("4"%string, 10%nat); ("9"%string, 11%nat)]
              (sampleStoreHeap 8) _ sampleConfig10_NoDup
              ltac:(vm_compute; reflexivity)) as [_ Hsame].
  apply (Hsame 10%nat 11%nat); [set_solver|set_solver|reflexivity|reflexivity].
Defined.

(** With the second store 64 bytes away, only the older uop goes. *)
Lemma dispatchUops_different_lines :
  exists s' h',
    Scheduler.dispatchUops sampleConfig10 4 sampleScheduler (sampleStoreHeap 64)
    = Some ((s', [("4"%string, 10%nat)]), h').
Proof. eexists _, _. vm_compute. reflexivity. Qed.

(** ** [computeUopProperties] *)

Lemma newUopProperties_unflagged ports ins outs lat div l sa addr sd :
  unflagged (newUopProperties ports ins outs lat div l sa addr sd).
Proof. done. Qed.

Lemma loadUops_unflagged (instr : Instr) (hasNonMem : bool)
    (pcs : list (list Port)) :
  forall i next, Forall unflagged (loadUops instr hasNonMem pcs i next).1.1.
Proof.
  induction pcs as [|pc rest IH]; intros i next; simpl; [constructor|].
  destruct hasNonMem; simpl.
  - specialize (IH (S i) (S next)).
    destruct (loadUops instr true rest (S i) (S next)) as [[ps pseudos] n'].
    simpl in *. by constructor.
  - specialize (IH (S i) next).
    destruct (loadUops instr false rest (S i) next) as [[ps pseudos] n'].
    simpl in *. by constructor.
Qed.

Lemma storeUops_unflagged (instr : Instr) (hasNonMem : bool)
    (pcs : list (list Port * list Port)) :
  forall i next, Forall unflagged (storeUops instr hasNonMem pcs i next).1.1.
Proof.
  induction pcs as [|[stAPc stDPc] rest IH]; intros i next; simpl;
    [constructor|].
  destruct hasNonMem; simpl.
  - specialize (IH (S i) (S next)).
    destruct (storeUops instr true rest (S i) (S next)) as [[ps pseudos] n'].
    simpl in *. by repeat constructor.
  - specialize (IH (S i) next).
    destruct (storeUops instr false rest (S i) next) as [[ps pseudos] n'].
    simpl in *. by repeat constructor.
Qed.

Lemma otherNonMemUops_unflagged (classes : gmap Z (list Operand))
    (ins : list Operand) (minLatLevel : Z) (pcs : list (list Port)) :
  forall levels next,
  Forall unflagged
    (otherNonMemUops classes ins minLatLevel pcs levels next).1.1.1
  /\ Forall unflagged
       (otherNonMemUops classes ins minLatLevel pcs levels next).1.1.2.
Proof.
  induction pcs as [|pc rest IH]; intros levels next; simpl;
    [split; constructor|].
  destruct levels as [|latLevel levels'].
  - specialize (IH [] next).
    destruct (otherNonMemUops classes ins minLatLevel rest [] next)
      as [[[front back] pseudos] n'].
    simpl in *. destruct IH as [IH1 IH2]. split; [done|by constructor].
  - specialize (IH levels' (S next)).
    destruct (otherNonMemUops classes ins minLatLevel rest levels' (S next))
      as [[[front back] pseudos] n'].
    simpl in *. destruct IH as [IH1 IH2]. split; [|done].
    apply Forall_app. split; [done|by repeat constructor].
Qed.

Lemma nonMemUops_unflagged (instr : Instr) (nonMem : list (list Port))
    (loadPseudoOps storePseudoOps : list Operand) (next : nat) :
  Forall unflagged
    (nonMemUops instr nonMem loadPseudoOps storePseudoOps next).1.
Proof.
  unfold nonMemUops. destruct nonMem as [|pc0 others]; [constructor|].
  destruct (isShiftLike instr (pc0 :: others)); [by repeat constructor|].
  match goal with
  | |- context [merge_sort Z.le ?ks] => destruct (merge_sort Z.le ks) as [|l ls]
  end.
  - match goal with
    | |- context [otherNonMemUops ?c ?i ?m ?p ?lv ?n] =>
      pose proof (otherNonMemUops_unflagged c i m p lv n) as [H1 H2];
      destruct (otherNonMemUops c i m p lv n) as [[[front back] pseudos] n']
    end.
    simpl in *. apply Forall_app. split; [done|]. by constructor.
  - match goal with
    | |- context [otherNonMemUops ?c ?i ?m ?p ?lv ?n] =>
      pose proof (otherNonMemUops_unflagged c i m p lv n) as [H1 H2];
      destruct (otherNonMemUops c i m p lv n) as [[[front back] pseudos] n']
    end.
    simpl in *. apply Forall_app. split; [done|]. by constructor.
Qed.

Lemma uopPropertiesOf_unflagged (instr : Instr) (next : nat) :
  Forall unflagged (uopPropertiesOf instr next).1.
Proof.
  unfold uopPropertiesOf.
  match goal with
  | |- context [loadUops ?a ?b ?c ?d ?e] =>
    pose proof (loadUops_unflagged a b c d e) as Hl;
    destruct (loadUops a b c d e) as [[loadUopProps loadPseudoOps] n1]
  end.
  match goal with
  | |- context [storeUops ?a ?b ?c ?d ?e] =>
    pose proof (storeUops_unflagged a b c d e) as Hs;
    destruct (storeUops a b c d e) as [[storeUopProps storePseudoOps] n2]
  end.
  match goal with
  | |- context [nonMemUops ?a ?b ?c ?d ?e] =>
    pose proof (nonMemUops_unflagged a b c d e) as Hn;
    destruct (nonMemUops a b c d e) as [nonMemUopProps n3]
  end.
  simpl in *. rewrite !Forall_app. done.
Qed.

Lemma clearFlags_unflagged (l : list UopProperties) :
  Forall unflagged l -> clearFlags <$> l = l.
Proof.
  induction 1 as [|p l [H1 H2] _ IH]; [done|].
  rewrite fmap_cons, IH. f_equal. destruct p. simpl in *. by subst.
Qed.

Lemma clearFlags_alter (f : UopProperties -> UopProperties) (i : nat)
    (l : list UopProperties) :
  (forall p, clearFlags (f p) = clearFlags p) ->
  clearFlags <$> alter f i l = clearFlags <$> l.
Proof.
  intros Hf. revert i. induction l as [|p l IH]; intros [|i]; try done.
  - cbn. by rewrite Hf.
  - cbn. f_equal. apply IH.
Qed.

Lemma flags_set (l0 : list UopProperties) (i : nat) (p : UopProperties) :
  Forall unflagged l0 ->
  alter set_isLastUopOfInstr (length l0 - 1)%nat
    (alter set_isFirstUopOfInstr 0%nat l0) !! i = Some p ->
  (isFirstUopOfInstr p = true <-> i = 0%nat)
  /\ (isLastUopOfInstr p = true <-> i = (length l0 - 1)%nat).
Proof.
  intros Hpad Hi.
  destruct (decide ((length l0 - 1)%nat = i)) as [HL|HL];
    [rewrite HL, list_lookup_alter_eq in Hi
    |rewrite list_lookup_alter_ne in Hi by done];
    (destruct (decide (0%nat = i)) as [H0|H0];
     [rewrite <- H0, list_lookup_alter_eq in Hi
     |rewrite list_lookup_alter_ne in Hi by done]);
    destruct (l0 !! _) as [q|] eqn:Hq; try done;
    apply (Forall_lookup_1 _ _ _ _ Hpad) in Hq as [Hq1 Hq2];
    simpl in Hi; injection Hi as <-; simpl; rewrite ?Hq1, ?Hq2;
    split; split; intros; try done; try lia.
Qed.

Lemma padAndFlag_spec (slots : Z) (base l : list UopProperties) :
  Forall unflagged base ->
  padAndFlag slots base = Some l ->
  firstAndLastFlagged slots l /\ paddedFrom slots base l.
Proof.
  intros Hbase Hrun. unfold padAndFlag in Hrun.
  remember (base ++ replicate (Z.to_nat (slots - Z.of_nat (length base)))
                      portlessUop) as l0 eqn:El0.
  assert (Hpad : Forall unflagged l0).
  { subst l0. apply Forall_app. split; [done|]. by apply Forall_replicate. }
  assert (Hlen : slots <= Z.of_nat (length l0)).
  { subst l0. rewrite length_app, length_replicate. lia. }
  assert (Hpos : (0 < length l0)%nat).
  { destruct l0; [done|simpl; lia]. }
  assert (Hl : l = alter set_isLastUopOfInstr (length l0 - 1)%nat
                     (alter set_isFirstUopOfInstr 0%nat l0)).
  { destruct l0; [done|]. rewrite length_alter in Hrun. by simplify_eq. }
  clear Hrun. subst l. split.
  - unfold firstAndLastFlagged. rewrite !length_alter.
    split; [lia|]. split; [done|]. intros i p Hi. by apply flags_set.
  - unfold paddedFrom. rewrite !clearFlags_alter by done.
    rewrite <- El0. by apply clearFlags_unflagged.
Qed.

Lemma computeUopPropertiesOf_spec (instr instr' : Instr) (next next' : nat) :
  computeUopPropertiesOf instr next = Some (instr', next') ->
  exists l,
    instr' = set_UopPropertiesList instr l
    /\ firstAndLastFlagged (retireSlots instr) l
    /\ paddedFrom (retireSlots instr) (uopPropertiesOf instr next).1 l.
Proof.
  unfold computeUopPropertiesOf. intros Hrun.
  pose proof (uopPropertiesOf_unflagged instr next) as Hbase.
  destruct (uopPropertiesOf instr next) as [base n1]. simpl in *.
  destruct (padAndFlag (retireSlots instr) base) as [l|] eqn:Hpad; [|done].
  simplify_eq. exists l. split; [done|]. by apply padAndFlag_spec.
Qed.

(** C10. For every instruction that is not macro-fused with its predecessor,
    [computeUopProperties] leaves in [UopPropertiesList] the uops computed
    from the port data, padded with portless uops to at least [retireSlots]
    entries; the list is not empty, its first entry and no other has
    [isFirstUopOfInstr] set, and its last entry and no other has
    [isLastUopOfInstr] set.  Instructions fused with their predecessor are
    left as they are. *)
Theorem computeUopProperties_first_last (instructions : list Instr) :
  forall (instructions' : list Instr) (next next' : nat),
  computeUopProperties instructions next = Some (instructions', next') ->
  Forall2 uopPropertiesComputed instructions instructions'.
Proof.
  induction instructions as [|instr rest IH]; intros instrs' next next' Hrun;
    simpl in Hrun.
  - simplify_eq. constructor.
  - destruct (macroFusedWithPrevInstr instr) eqn:Hfused.
    + destruct (computeUopProperties rest next) as [[rest' n']|] eqn:Hrest;
        [|done].
      simplify_eq. constructor; [|by eapply IH].
      unfold uopPropertiesComputed. by rewrite Hfused.
    + destruct (computeUopPropertiesOf instr next) as [[instr' n1]|] eqn:Hone;
        [|done].
      destruct (computeUopProperties rest n1) as [[rest' n']|] eqn:Hrest;
        [|done].
      simplify_eq. constructor; [|by eapply IH].
      unfold uopPropertiesComputed. rewrite Hfused.
      apply computeUopPropertiesOf_spec in Hone as (l & H1 & H2 & H3).
      by exists next, l.
Qed.

Lemma computeUopProperties_first_last_witness :
  exists instr1 instr2 next',
    computeUopProperties [samplePush3; UnknownInstr "ud0" "0FFF" 0] 0
    = Some ([instr1; instr2], next')
    /\ length (UopPropertiesList instr1) = 3%nat
    /\ firstAndLastFlagged 3 (UopPropertiesList instr1)
    /\ firstAndLastFlagged 1 (UopPropertiesList instr2).
Proof.
  eexists _, _, _. split; [vm_compute; reflexivity|].
  split; [reflexivity|].
  pose proof (computeUopProperties_first_last
                [samplePush3; UnknownInstr "ud0" "0FFF" 0] _ 0%nat _
                ltac:(vm_compute; reflexivity)) as H.
  apply Forall2_cons_1 in H as [(n1 & l1 & E1 & F1 & _) H].
  apply Forall2_cons_1 in H as [(n2 & l2 & E2 & F2 & _) _].
  apply (f_equal UopPropertiesList) in E1, E2. simpl in E1, E2.
  split; [by rewrite E1|by rewrite E2].
Defined.

(** The loop body returns when the instruction has a retire slot ... *)
Lemma padAndFlag_returns (slots : Z) (base : list UopProperties) :
  1 <= slots \/ base <> [] -> is_Some (padAndFlag slots base).
Proof.
  intros H. unfold padAndFlag.
  destruct (base ++ replicate _ portlessUop) eqn:E; [|done].
  apply app_eq_nil in E as [-> E]. destruct H as [H|H]; [|done].
  apply (f_equal length) in E. rewrite length_replicate in E.
  simpl in E. lia.
Qed.

Lemma computeUopProperties_returns (instructions : list Instr) :
  forall next,
  Forall (fun instr => macroFusedWithPrevInstr instr = false ->
                       1 <= retireSlots instr) instructions ->
  is_Some (computeUopProperties instructions next).
Proof.
  induction instructions as [|instr rest IH]; intros next Hall; simpl; [done|].
  apply Forall_cons in Hall as [Hslots Hall].
  destruct (macroFusedWithPrevInstr instr).
  - destruct (IH next Hall) as [[rest' n'] ->]. done.
  - unfold computeUopPropertiesOf.
    destruct (uopPropertiesOf instr next) as [base n1].
    destruct (padAndFlag_returns (retireSlots instr) base) as [l ->];
      [left; by apply Hslots|].
    destruct (IH n1 Hall) as [[rest' n'] ->]. done.
Qed.

(** ... and raises ([UopPropertiesList[0]] on the empty list) when it has
    neither ports nor retire slots. *)
Lemma computeUopProperties_no_slots :
  computeUopProperties [sampleNoSlots] 0 = None.
Proof. reflexivity. Qed.

(** ** Unknown instructions *)

Section DictFacts.

Context {K V : Type} `{EqDecision K}.

Lemma dict_get_set_eq (k : K) (v : V) (d : list (K * V)) :
  dict_get k (dict_set k v d) = Some v.
Proof.
  unfold dict_get. induction d as [|[k' v'] d IH]; simpl.
  - by rewrite bool_decide_eq_true_2.
  - destruct (decide (k' = k)) as [->|Hne]; simpl.
    + by rewrite bool_decide_eq_true_2.
    + by rewrite bool_decide_eq_false_2.
Qed.

Lemma dict_get_set_ne (k k' : K) (v : V) (d : list (K * V)) :
  k <> k' -> dict_get k' (dict_set k v d) = dict_get k' d.
Proof.
  intros Hne. unfold dict_get. induction d as [|[k0 v0] d IH]; simpl.
  - by rewrite bool_decide_eq_false_2.
  - destruct (decide (k0 = k)) as [->|Hne0]; simpl.
    + by rewrite !bool_decide_eq_false_2.
    + destruct (bool_decide (k0 = k')); [done|apply IH].
Qed.

End DictFacts.

Lemma snoc_cell (c : list Cell) (v : Cell) :
  c <> [] ->
  removelast (removelast c ++ [v]) = removelast c
  /\ length (removelast c ++ [v]) = length c.
Proof.
  intros Hc. destruct (last c) as [x|] eqn:E.
  - apply last_Some in E as [c0 ->].
    rewrite !removelast_last, !length_app. done.
  - by apply last_None in E.
Qed.

Lemma snoc_of_removelast (c c' : list Cell) :
  removelast c' = c -> length c' = S (length c) -> exists x, c' = c ++ [x].
Proof.
  intros Hr Hl. destruct (last c') as [x|] eqn:E.
  - apply last_Some in E as [c0 ->]. rewrite removelast_last in Hr.
    exists x. by rewrite Hr.
  - apply last_None in E. by subst.
Qed.

Lemma sameButLast_refl (columns : Columns) : sameButLast columns columns.
Proof. intros k c Hk. by exists c. Qed.

Lemma sameButLast_trans (c1 c2 c3 : Columns) :
  sameButLast c1 c2 -> sameButLast c2 c3 -> sameButLast c1 c3.
Proof.
  intros H12 H23 k c Hk.
  destruct (H12 k c Hk) as (c' & Hk' & Hr' & Hl').
  destruct (H23 k c' Hk') as (c'' & Hk'' & Hr'' & Hl'').
  exists c''. split; [done|]. split; congruence.
Qed.

Lemma dict_set_sameButLast (k : string) (c c' : list Cell) (columns : Columns) :
  dict_get k columns = Some c ->
  removelast c' = removelast c -> length c' = length c ->
  sameButLast columns (dict_set k c' columns).
Proof.
  intros Hk Hr Hl k0 c0 Hk0. destruct (decide (k = k0)) as [<-|Hne].
  - rewrite dict_get_set_eq. exists c'. by simplify_eq.
  - rewrite dict_get_set_ne by done. by exists c0.
Qed.

Lemma setLast_sameButLast (k : string) (v : Cell) (columns columns' : Columns) :
  setLast k v columns = Some columns' -> sameButLast columns columns'.
Proof.
  unfold setLast. intros H.
  destruct (dict_get k columns) as [[|x c]|] eqn:Hk; simplify_eq.
  destruct (snoc_cell (x :: c) v) as [Hr Hl]; [done|].
  by eapply dict_set_sameButLast.
Qed.

Lemma addToLast_sameButLast (k : string) (v : Q) (columns columns' : Columns) :
  addToLast k v columns = Some columns' -> sameButLast columns columns'.
Proof.
  unfold addToLast. intros H.
  destruct (dict_get k columns) as [c|] eqn:Hk; [|done].
  destruct (last c) as [[q|s]|] eqn:El; simplify_eq.
  destruct (snoc_cell c (Num (q + v)%Q)) as [Hr Hl].
  { intros ->. done. }
  by eapply dict_set_sameButLast.
Qed.

Lemma divideLast_sameButLast (n : Q) (columns : Columns) :
  forall columns',
  divideLast n columns = Some columns' -> sameButLast columns columns'.
Proof.
  induction columns as [|[k c] rest IH]; intros columns' H; simpl in H.
  - simplify_eq. apply sameButLast_refl.
  - destruct (last c) as [[q|s]|] eqn:El; try done.
    destruct (divideLast n rest) as [rest'|] eqn:Hrest; [|done].
    simplify_eq. intros k0 c0 Hk0. unfold dict_get in *. simpl in *.
    destruct (bool_decide (k = k0)); simpl in *.
    + simplify_eq. eexists. split; [done|]. apply snoc_cell.
      intros ->. done.
    + by apply (IH rest').
Qed.

Lemma foldlO_sameButLast {A} (f : Columns -> A -> option Columns) (l : list A) :
  (forall columns x columns',
     f columns x = Some columns' -> sameButLast columns columns') ->
  forall columns columns',
  foldlO f l columns = Some columns' -> sameButLast columns columns'.
Proof.
  intros Hf. induction l as [|x l IH]; intros columns columns' H; simpl in H.
  - simplify_eq. apply sameButLast_refl.
  - destruct (f columns x) as [c1|] eqn:Hx; [|done].
    eapply sameButLast_trans; [by eapply Hf|by apply IH].
Qed.

Lemma countUop_sameButLast (h : Heap) (columns : Columns) (uop : UopNode)
    (columns' : Columns) :
  countUop h columns uop = Some columns' -> sameButLast columns columns'.
Proof.
  unfold countUop. intros H.
  destruct (h_uops h !! u_idx uop) as [o|]; [|done].
  assert (Hport : forall c1,
    match actualPort o with
    | Some p =>
      match addToLast "Exec." 1%Q columns with
      | Some columns => addToLast ("Port " +:+ p) 1%Q columns
      | None => None
      end
    | None => Some columns
    end = Some c1 -> sameButLast columns c1).
  { intros c1 H1. destruct (actualPort o) as [p|].
    - destruct (addToLast "Exec." 1%Q columns) as [c0|] eqn:H0; [|done].
      eapply sameButLast_trans; by eapply addToLast_sameButLast.
    - simplify_eq. apply sameButLast_refl. }
  destruct (match actualPort o with Some _ => _ | None => _ end) as [c1|];
    [|done].
  specialize (Hport c1 eq_refl).
  destruct (divCycles (u_prop uop) =? 0).
  - by simplify_eq.
  - eapply sameButLast_trans; [done|by eapply addToLast_sameButLast].
Qed.

Lemma countLamUop_sameButLast (h : Heap) (columns : Columns)
    (lamUop : LaminatedUop) (columns' : Columns) :
  countLamUop h columns lamUop = Some columns' -> sameButLast columns columns'.
Proof.
  unfold countLamUop. intros H.
  assert (Hsrc : forall c1,
    match uopSource lamUop with
    | Some s =>
      if bool_decide (s ∈ ["MITE"; "MS"; "DSB"; "LSD"]%string)
      then addToLast s 1%Q columns else Some columns
    | None => Some columns
    end = Some c1 -> sameButLast columns c1).
  { intros c1 H1. destruct (uopSource lamUop) as [s|].
    - destruct (bool_decide _).
      + by eapply addToLast_sameButLast.
      + simplify_eq. apply sameButLast_refl.
    - simplify_eq. apply sameButLast_refl. }
  destruct (match uopSource lamUop with Some _ => _ | None => _ end) as [c1|];
    [|done].
  eapply sameButLast_trans; [by apply Hsrc|].
  eapply foldlO_sameButLast; [|exact H].
  intros c2 fusedUop c3 Hf. unfold countFusedUop in Hf.
  destruct (addToLast "Issued" 1%Q c2) as [c4|] eqn:H4; [|done].
  eapply sameButLast_trans; [by eapply addToLast_sameButLast|].
  eapply foldlO_sameButLast; [|exact Hf].
  intros ? ? ?. apply countUop_sameButLast.
Qed.

Lemma dict_get_appendZero (k : string) (columns : Columns) :
  dict_get k (appendZero columns)
  = (fun c => c ++ [Num 0%Q]) <$> dict_get k columns.
Proof.
  unfold dict_get, appendZero.
  induction columns as [|[k0 c0] rest IH]; [done|].
  cbn. destruct (bool_decide (k0 = k)); [done|apply IH].
Qed.

(** A line adds one cell to the notes, which is ['X'] for an unknown
    instruction. *)
Lemma tableLine_notes (h : Heap) (columns columns' : Columns)
    (tld : TableLineData) (notes : list Cell) :
  tableLine h columns tld = Some columns' ->
  dict_get "Notes"%string columns = Some notes ->
  exists x,
    dict_get "Notes"%string columns' = Some (notes ++ [x])
    /\ (forall instr, tld_instr tld = Some instr ->
                      isUnknownInstr instr = true -> x = Str "X").
Proof.
  unfold tableLine. intros H Hn.
  assert (Hz : dict_get "Notes"%string (appendZero columns)
               = Some (notes ++ [Num 0%Q])).
  { by rewrite dict_get_appendZero, Hn. }
  destruct (tld_instr tld) as [instr|]; [|done].
  destruct (isUnknownInstr instr) eqn:Hu.
  - unfold setLast in H. rewrite Hz in H.
    destruct (notes ++ [Num 0%Q]) as [|y ys] eqn:E; [done|].
    rewrite <- E in H. rewrite removelast_last in H. simplify_eq.
    exists (Str "X"). rewrite dict_get_set_eq. done.
  - assert (Hs : sameButLast (appendZero columns) columns').
    { destruct (macroFusedWithPrevInstr instr).
      - by eapply setLast_sameButLast.
      - destruct (foldlO _ (uopsForRnd tld) (appendZero columns))
          as [c1|] eqn:H1; [|done].
        eapply sameButLast_trans.
        + eapply foldlO_sameButLast; [|exact H1].
          intros c2 lamUops c3 H3.
          eapply foldlO_sameButLast; [|exact H3].
          intros ? ? ?. apply countLamUop_sameButLast.
        + destruct (uopsForRnd tld); [done|].
          by eapply divideLast_sameButLast. }
    destruct (Hs _ _ Hz) as (c' & Hc' & Hr & Hl).
    rewrite removelast_last in Hr. rewrite length_app in Hl. simpl in Hl.
    destruct (snoc_of_removelast notes c') as [x ->]; [done|lia|].
    exists x. split; [done|]. intros instr' ? ?. congruence.
Qed.

Lemma tableLines_notes (h : Heap) (tableLineData : list TableLineData) :
  forall (columns columns' : Columns) (notes : list Cell),
  foldlO (tableLine h) tableLineData columns = Some columns' ->
  dict_get "Notes"%string columns = Some notes ->
  exists xs,
    dict_get "Notes"%string columns' = Some (notes ++ xs)
    /\ forall i tld instr,
         tableLineData !! i = Some tld -> tld_instr tld = Some instr ->
         isUnknownInstr instr = true -> xs !! i = Some (Str "X").
Proof.
  induction tableLineData as [|tld rest IH]; intros columns columns' notes H Hn;
    simpl in H.
  - simplify_eq. exists []. rewrite app_nil_r. split; [done|].
    intros i ? ? Hi. done.
  - destruct (tableLine h columns tld) as [c1|] eqn:H1; [|done].
    destruct (tableLine_notes _ _ _ _ _ H1 Hn) as (x & Hx & HX).
    destruct (IH _ _ _ H Hx) as (xs & Hxs & HXs).
    exists (x :: xs). rewrite <- app_assoc in Hxs. split; [done|].
    intros [|i] tld' instr Hi Hinstr Hu; simpl in *.
    + simplify_eq. f_equal. by eapply HX.
    + by eapply HXs.
Qed.

Lemma columns_init (k : string) (keys : list string) :
  forall d : Columns,
  k ∈ keys \/ dict_get k d = Some [] ->
  dict_get k (foldl (fun d k => dict_set k [] d) d keys) = Some [].
Proof.
  induction keys as [|k0 keys IH]; intros d H; simpl.
  - destruct H as [H|H]; [by apply elem_of_nil in H|done].
  - apply IH. destruct (decide (k0 = k)) as [->|Hne].
    + right. apply dict_get_set_eq.
    + destruct H as [H|H].
      * apply elem_of_cons in H as [->|H]; [done|by left].
      * right. by rewrite dict_get_set_ne.
Qed.

(** The report has a column of notes when a line is for an unknown
    instruction, and the note of that line is ['X']. *)
Lemma getUopsTableColumns_notes (cfg : MicroArchConfig) (h : Heap)
    (tableLineData : list TableLineData) (columns : Columns)
    (i : nat) (tld : TableLineData) (instr : Instr) :
  getUopsTableColumns cfg h tableLineData = Some columns ->
  tableLineData !! i = Some tld -> tld_instr tld = Some instr ->
  isUnknownInstr instr = true ->
  exists notes,
    dict_get "Notes"%string columns = Some notes
    /\ notes !! i = Some (Str "X").
Proof.
  unfold getUopsTableColumns. intros H Hi Hinstr Hu.
  destruct (anyDivCycles tableLineData) as [hasDiv|]; [|done].
  destruct (foldlO _ tableLineData _) as [c1|] eqn:H1; [|done].
  eapply tableLines_notes in H1 as (xs & Hxs & HX).
  2:{ apply columns_init. left. unfold columnKeys.
      rewrite !elem_of_app. right. right. right.
      by apply list_elem_of_singleton. }
  simpl in Hxs. rewrite Hxs in H. specialize (HX i tld instr Hi Hinstr Hu).
  assert (Ht : existsb truthy xs = true).
  { apply existsb_exists. exists (Str "X"). split; [|done].
    apply list_elem_of_In. by eapply list_elem_of_lookup_2. }
  rewrite Ht in H. simplify_eq. by exists xs.
Qed.

Section LookupFacts.

Variable InstrData : Type.
Variable attrOf : InstrData -> string.
Variable archInstrData : gmap string (list InstrData).
Variable archAttrData : gmap string (list (string * string)).
Variable buildInstr : InstrD -> InstrData -> option Instr.

Lemma findInstr_noMatch (instrD : InstrD) (entries : list InstrData) :
  Forall (fun instrData =>
            exists attrData,
              archAttrData !! attrOf instrData = Some attrData
              /\ attributesMatch instrD attrData = false) entries ->
  findInstr InstrData attrOf archAttrData buildInstr instrD entries
  = Some None.
Proof.
  induction 1 as [|instrData rest (attrData & Ha & Hm) _ IH]; simpl; [done|].
  by rewrite Ha, Hm.
Qed.

(** C9. An instruction for which the table of the microarchitecture has no
    matching entry becomes an [UnknownInstr]: no port data, one retire slot,
    one MITE uop, no MS uops, no latencies.  It is added to the list of
    instructions (it is never fused with its predecessor, whose
    [macroFusibleWith] holds names of known instructions, and the next
    instruction is never fused with it); [computeUopProperties] gives it a
    single uop without ports, which the reorder buffer takes as executed when
    it is issued; and wherever the report is produced the line of the
    instruction has the note ['X']. *)
Theorem unknown_instruction
    (instrD : InstrD) (posNominalOpcode : Z) (instructions : list Instr) :
  noMatchingEntry InstrData attrOf archInstrData archAttrData instrD ->
  (forall prevInstr, last instructions = Some prevInstr ->
                     ""%string ∉ macroFusibleWith prevInstr) ->
  exists instruction added,
    lookupInstruction InstrData attrOf archInstrData archAttrData buildInstr
      instrD posNominalOpcode = Some instruction
    /\ instruction = UnknownInstr (d_asm instrD) (d_opcode instrD) posNominalOpcode
    /\ (portData instruction = [] /\ retireSlots instruction = 1
        /\ uopsMITE instruction = 1 /\ uopsMS instruction = 0
        /\ instr_latencies instruction = ∅)
    /\ addInstruction instructions instruction = Some (instructions ++ [added])
    /\ isUnknownInstr added = true
    /\ macroFusedWithPrevInstr added = false
    /\ (forall next,
          addInstruction (instructions ++ [added]) next
          = Some (instructions ++ [added; next]))
    /\ (forall n,
          computeUopPropertiesOf added n
          = Some (set_UopPropertiesList added [onlyUop], n))
    /\ ReorderBuffer.noPossiblePorts onlyUop = true
    /\ (forall cfg h tableLineData columns i tld computed,
          getUopsTableColumns cfg h tableLineData = Some columns ->
          tableLineData !! i = Some tld ->
          tld_instr tld = Some (set_UopPropertiesList added computed) ->
          exists notes,
            dict_get "Notes"%string columns = Some notes
            /\ notes !! i = Some (Str "X")).
Proof.
  intros Hno Hprev.
  exists (UnknownInstr (d_asm instrD) (d_opcode instrD) posNominalOpcode).
  exists (match instructions with
          | [] => set_isFirstInstruction
                    (UnknownInstr (d_asm instrD) (d_opcode instrD)
                       posNominalOpcode)
          | _ => UnknownInstr (d_asm instrD) (d_opcode instrD) posNominalOpcode
          end).
  split.
  { unfold lookupInstruction. by rewrite findInstr_noMatch. }
  split; [done|]. split; [done|]. split.
  { unfold addInstruction. destruct (last instructions) as [prevInstr|] eqn:El.
    - rewrite bool_decide_eq_false_2 by (by apply Hprev).
      destruct instructions; [done|done].
    - apply last_None in El. by subst. }
  split; [by destruct instructions|]. split; [by destruct instructions|].
  split.
  { intros next. unfold addInstruction. rewrite last_snoc.
    rewrite bool_decide_eq_false_2.
    - by rewrite <- app_assoc.
    - destruct instructions; simpl; apply not_elem_of_nil. }
  split; [intros n; by destruct instructions|]. split; [done|].
  intros cfg h tableLineData columns i tld computed Hcols Hi Hinstr.
  eapply getUopsTableColumns_notes; [exact Hcols|exact Hi|exact Hinstr|].
  by destruct instructions.
Qed.

End LookupFacts.

Lemma unknown_instruction_witness :
  lookupInstruction unit (fun _ => ""%string) ∅ ∅ (fun _ _ => None)
    sampleInstrD 0
  = Some (UnknownInstr "ud0 eax, ebx" "0FFFC3" 0)
  /\ addInstruction [sampleMov] (UnknownInstr "ud0 eax, ebx" "0FFFC3" 0)
     = Some [sampleMov; UnknownInstr "ud0 eax, ebx" "0FFFC3" 0]
  /\ exists columns,
       getUopsTableColumns sampleConfig (sampleRetireHeap) sampleTable
       = Some columns
       /\ dict_get "Notes"%string columns = Some [Num 0%Q; Str "X"].
Proof.
  destruct (unknown_instruction unit (fun _ => ""%string) ∅ ∅ (fun _ _ => None)
              sampleInstrD 0 [sampleMov])
    as (instruction & added & Hl & -> & _ & Ha & _ & _ & _ & _ & _ & Hx).
  { unfold noMatchingEntry. simpl. rewrite lookup_empty. constructor. }
  { intros prevInstr Hp. simpl in Hp. simplify_eq. apply not_elem_of_nil. }
  split; [exact Hl|].
  assert (added = UnknownInstr "ud0 eax, ebx" "0FFFC3" 0) as ->.
  { simpl in Ha. unfold addInstruction in Ha. simpl in Ha. by simplify_eq. }
  split; [exact Ha|].
  eexists. split; [vm_compute; reflexivity|]. vm_compute. reflexivity.
Defined.

(** ** The queues *)

Lemma ReorderBuffer_cycle_length (cfg : MicroArchConfig) (clock : Z)
    (issueUops : list nat) (rb rb' : ReorderBuffer.t) (h h' : Heap) :
  ReorderBuffer.cycle cfg clock issueUops rb h = Some (rb', h') ->
  (length (ReorderBuffer.uops rb')
   <= length (ReorderBuffer.uops rb) + length issueUops)%nat.
Proof.
  intros Hrun. apply cycle_spec in Hrun as (new & mid & Hu & Hu' & _).
  rewrite Hu, Hu', !length_app. lia.
Qed.

Lemma mergeUopsOf_length (u : UopNode) (idx : nat) (props : list UopProperties) :
  length (mergeUopsOf u idx props) = length props.
Proof. unfold mergeUopsOf. apply length_imap. Qed.

Lemma selectUops_spec (cfg : MicroArchConfig) (rbEmpty : bool)
    (IDQ : list LaminatedUop) :
  forall acc last idx merges sel,
  mergesWithinIssueWidth cfg IDQ ->
  Z.of_nat (length acc) <= issueWidth cfg ->
  selectUops cfg rbEmpty IDQ acc last idx merges = Some sel ->
  Z.of_nat (length (renamerUops sel)) <= issueWidth cfg
  /\ exists taken, IDQ = taken ++ sel_IDQ sel.
Proof.
  induction IDQ as [|lamUop rest IH]; intros acc last idx merges sel Hm Hacc Hrun;
    simpl in Hrun.
  { simplify_eq. split; [done|]. by exists []. }
  apply Forall_cons in Hm as [Hm0 Hm].
  destruct (getUnfusedUops lamUop) as [|first others] eqn:Hun; [done|].
  apply Forall_cons in Hm0 as [Hfirst _].
  assert (Htake :
    (if isFirstUopOfInstr (u_prop first) && isSerializingInstr (u_instr first)
        && negb rbEmpty
     then Some {| renamerUops := acc; sel_IDQ := lamUop :: rest;
                  lastRegMergeIssued := last; sel_idx_iter := idx;
                  regMergeUops := merges |}
     else if issueWidth cfg
             <? Z.of_nat (length acc + length (getFusedUops lamUop))
          then Some {| renamerUops := acc; sel_IDQ := lamUop :: rest;
                       lastRegMergeIssued := last; sel_idx_iter := idx;
                       regMergeUops := merges |}
          else selectUops cfg rbEmpty rest (acc ++ getFusedUops lamUop)
                 last idx merges) = Some sel ->
    Z.of_nat (length (renamerUops sel)) <= issueWidth cfg
    /\ exists taken, lamUop :: rest = taken ++ sel_IDQ sel).
  { intros H.
    destruct (isFirstUopOfInstr (u_prop first)
              && isSerializingInstr (u_instr first) && negb rbEmpty).
    { simplify_eq. split; [done|]. by exists []. }
    destruct (issueWidth cfg <? _) eqn:Hw.
    { simplify_eq. split; [done|]. by exists []. }
    apply Z.ltb_ge in Hw.
    apply IH in H as [H1 [taken H2]]; [|done|rewrite length_app; lia].
    split; [done|]. exists (lamUop :: taken). by rewrite H2. }
  destruct (isFirstUopOfInstr (u_prop first)
            && nonempty (regMergeUopPropertiesList (u_instr first)));
    [|by apply Htake].
  destruct (nonempty acc) eqn:Hne.
  { simplify_eq. split; [done|]. by exists []. }
  destruct (bool_decide (last = Some (u_idx first))); [by apply Htake|].
  simplify_eq. simpl. destruct acc; [|done]. simpl.
  rewrite mergeUopsOf_length. split; [done|]. by exists [].
Qed.

Lemma preDecodeBlock_length (cfg : MicroArchConfig)
    (curBlock : list InstrInstance) :
  forall q,
  Z.of_nat (length (preDecodeBlock cfg curBlock q).2)
  <= Z.max (Z.of_nat (length q)) (preDecodeWidth cfg).
Proof.
  induction curBlock as [|instrI rest IH]; intros q; simpl; [lia|].
  destruct (Z.of_nat (length q) <? preDecodeWidth cfg) eqn:Hw; simpl; [|lia].
  destruct (instrInstanceCrosses16ByteBoundary instrI); simpl; [lia|].
  apply Z.ltb_lt in Hw. specialize (IH (q ++ [instrI])).
  rewrite length_app in IH. simpl in IH. lia.
Qed.

Lemma preDecodeGroup_length (cfg : MicroArchConfig) (pd : PreDecoder) :
  instructionQueue (preDecodeGroup cfg pd) = instructionQueue pd
  /\ Z.of_nat (length (preDecQueue (preDecodeGroup cfg pd)))
     <= Z.max (Z.of_nat (length (preDecQueue pd)) + 1) (preDecodeWidth cfg).
Proof.
  unfold preDecodeGroup.
  set (q0 := match partialInstrI pd with
             | Some instrI => preDecQueue pd ++ [instrI]
             | None => preDecQueue pd
             end).
  assert (Hq0 : Z.of_nat (length q0) <= Z.of_nat (length (preDecQueue pd)) + 1).
  { unfold q0. destruct (partialInstrI pd); [rewrite length_app; simpl|]; lia. }
  destruct (B16BlockQueue pd) as [|curBlock rest]; simpl; [split; [done|lia]|].
  pose proof (preDecodeBlock_length cfg curBlock q0) as Hlen.
  destruct (preDecodeBlock cfg curBlock q0) as [b q1]. simpl in Hlen.
  destruct b as [|instrI [|? ?]]; simpl; try (split; [done|lia]).
  destruct (instrInstanceCrosses16ByteBoundary instrI
            && ((Z.of_nat (length q1) <? 5)
                || (offsetOfNominalOpcode instrI >=? 16)));
    simpl; split; try done; lia.
Qed.

(** The instruction queue and the predecode queue together never hold more
    than [IQWidth] instructions. *)
Lemma PreDecoder_cycle_IQ (cfg : MicroArchConfig) (clock : Z) (pd : PreDecoder) :
  1 <= preDecodeWidth cfg ->
  Z.of_nat (length (instructionQueue pd) + length (preDecQueue pd))
  <= IQWidth cfg ->
  Z.of_nat (length (instructionQueue (PreDecoder_cycle cfg clock pd))
            + length (preDecQueue (PreDecoder_cycle cfg clock pd)))
  <= IQWidth cfg.
Proof.
  intros Hw Hinv. unfold PreDecoder_cycle.
  destruct (stalled pd =? 0); simpl; [|done].
  destruct (bool_decide (preDecQueue pd = []) && _ && _) eqn:Hg.
  - apply andb_true_iff in Hg as [Hg Hroom].
    apply andb_true_iff in Hg as [Hempty _].
    apply bool_decide_eq_true in Hempty. apply Z.leb_le in Hroom.
    destruct (preDecodeGroup_length cfg pd) as [Hiq Hq].
    rewrite Hempty in Hq. simpl in Hq.
    destruct (stalled (preDecodeGroup cfg pd) =? 0); simpl.
    + rewrite length_app, length_map, Hiq. lia.
    + rewrite Hiq. lia.
  - destruct (stalled pd =? 0); simpl; [|done].
    rewrite length_app, length_map. lia.
Qed.



(** * Further properties of the modelled code *)

(** ** The predecoder and the instruction queue *)

Lemma PreDecoder_cycle_appends (cfg : MicroArchConfig) (clock : Z)
    (pd : PreDecoder) :
  exists new,
    instructionQueue (PreDecoder_cycle cfg clock pd)
    = instructionQueue pd ++ new
    /\ Forall (fun instrI => predecoded instrI = Some clock) new.
Proof.
  unfold PreDecoder_cycle.
  destruct (stalled pd =? 0); simpl; [|exists []; by rewrite app_nil_r].
  assert (Hflush : forall pd0 : PreDecoder,
    instructionQueue pd0 = instructionQueue pd ->
    exists new,
      instructionQueue
        (if stalled pd0 =? 0
         then {| B16BlockQueue := B16BlockQueue pd0;
                 instructionQueue :=
                   instructionQueue pd0
                   ++ map (set_predecoded clock) (preDecQueue pd0);
                 preDecQueue := []; stalled := stalled pd0;
                 partialInstrI := partialInstrI pd0 |}
         else pd0)
      = instructionQueue pd ++ new
      /\ Forall (fun instrI => predecoded instrI = Some clock) new).
  { intros pd0 Hq. destruct (stalled pd0 =? 0); simpl.
    - eexists. rewrite Hq. split; [done|].
      apply Forall_forall. intros x Hx. apply list_elem_of_In in Hx.
      apply in_map_iff in Hx as (y & <- & _). done.
    - exists []. by rewrite app_nil_r. }
  destruct (bool_decide (preDecQueue pd = []) && _ && _).
  - apply Hflush. apply preDecodeGroup_length.
  - by apply Hflush.
Qed.

(** X1. [PreDecoder.cycle] keeps the instruction queue within [IQWidth]:
    when the predecode width is at least one and the instruction queue and
    the predecode queue together hold at most [IQWidth] instructions, they
    still do after the cycle, so the instruction queue alone does too; the
    cycle only appends to the instruction queue, and what it appends is
    stamped as predecoded in this cycle. *)
Theorem PreDecoder_cycle_within_IQWidth (cfg : MicroArchConfig) (clock : Z)
    (pd : PreDecoder) :
  1 <= preDecodeWidth cfg ->
  Z.of_nat (length (instructionQueue pd) + length (preDecQueue pd))
  <= IQWidth cfg ->
  Z.of_nat (length (instructionQueue (PreDecoder_cycle cfg clock pd))
            + length (preDecQueue (PreDecoder_cycle cfg clock pd)))
  <= IQWidth cfg
  /\ Z.of_nat (length (instructionQueue (PreDecoder_cycle cfg clock pd)))
     <= IQWidth cfg
  /\ exists new,
       instructionQueue (PreDecoder_cycle cfg clock pd)
       = instructionQueue pd ++ new
       /\ Forall (fun instrI => predecoded instrI = Some clock) new.
Proof.
  intros Hw Hinv.
  pose proof (PreDecoder_cycle_IQ cfg clock pd Hw Hinv) as H.
  split; [done|]. split; [lia|]. apply PreDecoder_cycle_appends.
Qed.

Lemma PreDecoder_cycle_within_IQWidth_witness :
  Z.of_nat (length (instructionQueue
                      (PreDecoder_cycle sampleConfig 3 samplePreDecoder)))
  <= 25.
Proof.
  destruct (PreDecoder_cycle_within_IQWidth sampleConfig 3 samplePreDecoder)
    as (_ & H & _).
  - simpl. lia.
  - simpl. lia.
  - exact H.
Defined.

(** ** The renamer *)

Lemma selectUops_taken (cfg : MicroArchConfig) (rbEmpty : bool)
    (IDQ : list LaminatedUop) :
  forall acc last idx merges sel,
  selectUops cfg rbEmpty IDQ acc last idx merges = Some sel ->
  exists taken,
    IDQ = taken ++ sel_IDQ sel
    /\ (renamerUops sel = acc ++ concat (getFusedUops <$> taken)
        \/ (taken = [] /\ acc = []
            /\ exists lamUop rest first others,
                 IDQ = lamUop :: rest
                 /\ getUnfusedUops lamUop = first :: others
                 /\ renamerUops sel
                    = mergeUopsOf first idx
                        (regMergeUopPropertiesList (u_instr first))
                 /\ lastRegMergeIssued sel = Some (u_idx first)
                 /\ last <> Some (u_idx first)))
    /\ Forall (fun lamUop =>
                 forall first others,
                   getUnfusedUops lamUop = first :: others ->
                   isFirstUopOfInstr (u_prop first) = true ->
                   isSerializingInstr (u_instr first) = true ->
                   rbEmpty = true) taken.
Proof.
  induction IDQ as [|lamUop rest IH]; intros acc last idx merges sel Hrun;
    simpl in Hrun.
  { simplify_eq. exists []. simpl. rewrite app_nil_r. split; [done|].
    split; [by left|constructor]. }
  destruct (getUnfusedUops lamUop) as [|first others] eqn:Hun; [done|].
  assert (Hstop : forall sel0,
    sel0 = {| renamerUops := acc; sel_IDQ := lamUop :: rest;
              lastRegMergeIssued := last; sel_idx_iter := idx;
              regMergeUops := merges |} ->
    exists taken,
      lamUop :: rest = taken ++ sel_IDQ sel0
      /\ (renamerUops sel0 = acc ++ concat (getFusedUops <$> taken)
          \/ (taken = [] /\ acc = []
              /\ exists lamUop0 rest0 first0 others0,
                   lamUop :: rest = lamUop0 :: rest0
                   /\ getUnfusedUops lamUop0 = first0 :: others0
                   /\ renamerUops sel0
                      = mergeUopsOf first0 idx
                          (regMergeUopPropertiesList (u_instr first0))
                   /\ lastRegMergeIssued sel0 = Some (u_idx first0)
                   /\ last <> Some (u_idx first0)))
      /\ Forall (fun lamUop =>
                   forall first others,
                     getUnfusedUops lamUop = first :: others ->
                     isFirstUopOfInstr (u_prop first) = true ->
                     isSerializingInstr (u_instr first) = true ->
                     rbEmpty = true) taken).
  { intros sel0 ->. exists []. simpl. rewrite app_nil_r.
    split; [done|]. split; [by left|constructor]. }
  assert (Htake :
    (if isFirstUopOfInstr (u_prop first) && isSerializingInstr (u_instr first)
        && negb rbEmpty
     then Some {| renamerUops := acc; sel_IDQ := lamUop :: rest;
                  lastRegMergeIssued := last; sel_idx_iter := idx;
                  regMergeUops := merges |}
     else if issueWidth cfg
             <? Z.of_nat (length acc + length (getFusedUops lamUop))
          then Some {| renamerUops := acc; sel_IDQ := lamUop :: rest;
                       lastRegMergeIssued := last; sel_idx_iter := idx;
                       regMergeUops := merges |}
          else selectUops cfg rbEmpty rest (acc ++ getFusedUops lamUop)
                 last idx merges) = Some sel ->
    exists taken,
      lamUop :: rest = taken ++ sel_IDQ sel
      /\ (renamerUops sel = acc ++ concat (getFusedUops <$> taken)
          \/ (taken = [] /\ acc = []
              /\ exists lamUop0 rest0 first0 others0,
                   lamUop :: rest = lamUop0 :: rest0
                   /\ getUnfusedUops lamUop0 = first0 :: others0
                   /\ renamerUops sel
                      = mergeUopsOf first0 idx
                          (regMergeUopPropertiesList (u_instr first0))
                   /\ lastRegMergeIssued sel = Some (u_idx first0)
                   /\ last <> Some (u_idx first0)))
      /\ Forall (fun lamUop =>
                   forall first others,
                     getUnfusedUops lamUop = first :: others ->
                     isFirstUopOfInstr (u_prop first) = true ->
                     isSerializingInstr (u_instr first) = true ->
                     rbEmpty = true) taken).
  { intros H.
    destruct (isFirstUopOfInstr (u_prop first)
              && isSerializingInstr (u_instr first) && negb rbEmpty) eqn:Hser.
    { simplify_eq. by apply Hstop. }
    destruct (issueWidth cfg <? _) eqn:Hw.
    { simplify_eq. by apply Hstop. }
    apply IH in H as (taken & H1 & H2 & H3).
    exists (lamUop :: taken). split; [by rewrite H1|]. split.
    - destruct H2 as [H2|(-> & Hacc & _)].
      + left. rewrite H2. rewrite fmap_cons. simpl. by rewrite <- app_assoc.
      + left. apply app_eq_nil in Hacc as [-> Hf].
        simpl in H1. subst rest.
        exfalso. unfold getUnfusedUops in Hun. rewrite Hf in Hun. done.
    - constructor; [|done]. intros f o Hf Hfirst Hs.
      rewrite Hun in Hf. simplify_eq. rewrite Hfirst, Hs in Hser.
      by destruct rbEmpty. }
  destruct (isFirstUopOfInstr (u_prop first)
            && nonempty (regMergeUopPropertiesList (u_instr first)));
    [|by apply Htake].
  destruct (nonempty acc) eqn:Hne.
  { simplify_eq. by apply Hstop. }
  case_bool_decide as Hlast; [by apply Htake|].
  simplify_eq. destruct acc; [|done]. exists []. simpl.
  split; [done|]. split; [|constructor].
  right. split; [done|]. split; [done|].
  exists lamUop, rest, first, others. done.
Qed.

(** X2. The loop at the top of [Renamer.cycle] issues uops in order and
    within the issue width: what stays in the IDQ is a suffix of it; the
    fused uops issued are those of the laminated uops taken, in their order,
    or else nothing was taken and the issued uops are the register-merge
    uops of the instruction at the head (issued once per head uop); and
    when no instruction has more than [issueWidth] register-merge uops, at
    most [issueWidth] fused uops are issued. *)
Theorem selectUops_in_order (cfg : MicroArchConfig) (rbEmpty : bool)
    (IDQ : list LaminatedUop) (last : option nat) (idx : nat)
    (merges : gmap nat (list LaminatedUop)) (sel : Selection) :
  0 <= issueWidth cfg ->
  selectUops cfg rbEmpty IDQ [] last idx merges = Some sel ->
  (exists taken,
     IDQ = taken ++ sel_IDQ sel
     /\ (renamerUops sel = concat (getFusedUops <$> taken)
         \/ (taken = []
             /\ exists lamUop rest first others,
                  IDQ = lamUop :: rest
                  /\ getUnfusedUops lamUop = first :: others
                  /\ renamerUops sel
                     = mergeUopsOf first idx
                         (regMergeUopPropertiesList (u_instr first))
                  /\ lastRegMergeIssued sel = Some (u_idx first)
                  /\ last <> Some (u_idx first))))
  /\ (mergesWithinIssueWidth cfg IDQ ->
      Z.of_nat (length (renamerUops sel)) <= issueWidth cfg).
Proof.
  intros Hw Hrun. split.
  - destruct (selectUops_taken _ _ _ _ _ _ _ _ Hrun) as (taken & H1 & H2 & _).
    exists taken. split; [done|].
    destruct H2 as [H2|(-> & _ & H2)]; [by left|right; by split].
  - intros Hm.
    apply selectUops_spec in Hrun as [H _]; [exact H|done|simpl; lia].
Qed.

Lemma selectUops_in_order_witness :
  exists sel,
    selectUops sampleConfig true
      [sampleLamUop 0; sampleLamUop 1; sampleLamUop 2; sampleLamUop 3;
       sampleLamUop 4] [] None 5 ∅ = Some sel
    /\ length (renamerUops sel) = 4%nat
    /\ sel_IDQ sel = [sampleLamUop 4].
Proof.
  eexists. split; [vm_compute; reflexivity|].
  split; [reflexivity|].
  destruct (selectUops_in_order sampleConfig true
              [sampleLamUop 0; sampleLamUop 1; sampleLamUop 2; sampleLamUop 3;
               sampleLamUop 4] None 5 ∅ _ ltac:(vm_compute; discriminate)
              ltac:(vm_compute; reflexivity)) as [_ _].
  reflexivity.
Defined.

(** X3. A serializing instruction waits for the reorder buffer to drain:
    the renamer takes the first uop of a serializing instruction out of the
    IDQ only when the reorder buffer is empty. *)
Theorem selectUops_serializing (cfg : MicroArchConfig) (rbEmpty : bool)
    (IDQ : list LaminatedUop) (last : option nat) (idx : nat)
    (merges : gmap nat (list LaminatedUop)) (sel : Selection) :
  selectUops cfg rbEmpty IDQ [] last idx merges = Some sel ->
  exists taken,
    IDQ = taken ++ sel_IDQ sel
    /\ forall lamUop first others,
         lamUop ∈ taken ->
         getUnfusedUops lamUop = first :: others ->
         isFirstUopOfInstr (u_prop first) = true ->
         isSerializingInstr (u_instr first) = true ->
         rbEmpty = true.
Proof.
  intros Hrun.
  destruct (selectUops_taken _ _ _ _ _ _ _ _ Hrun) as (taken & H1 & _ & H3).
  exists taken. split; [done|]. intros lamUop first others Hin.
  rewrite Forall_forall in H3. by apply H3.
Qed.

Lemma selectUops_serializing_witness :
  exists sel,
    selectUops sampleConfig false [sampleLamUop 0; sampleFenceUop]
      [] None 8 ∅ = Some sel
    /\ sel_IDQ sel = [sampleFenceUop].
Proof.
  eexists. split; [vm_compute; reflexivity|].
  destruct (selectUops_serializing sampleConfig false
              [sampleLamUop 0; sampleFenceUop] None 8 ∅ _
              ltac:(vm_compute; reflexivity)) as (taken & Heq & Hser).
  reflexivity.
Defined.

(** ** The reorder buffer and the scheduler at issue *)

(** X4. The reorder buffer stays within [RBWidth]: [FrontEnd.cycle] issues
    nothing when the buffer is full (or the scheduler is), and a buffer that
    is not full has room for [issueWidth] fused uops; so a buffer within
    [RBWidth] that is handed at most [issueWidth] fused uops is within
    [RBWidth] after [ReorderBuffer.cycle]. *)
Theorem ReorderBuffer_cycle_within_RBWidth (cfg : MicroArchConfig) (clock : Z)
    (issueUops : list nat) (rb rb' : ReorderBuffer.t) (rs : Scheduler.t)
    (h h' : Heap) :
  Z.of_nat (length (ReorderBuffer.uops rb)) <= RBWidth cfg ->
  Z.of_nat (length issueUops) <= issueWidth cfg ->
  (mayIssue cfg rb rs = false -> issueUops = []) ->
  ReorderBuffer.cycle cfg clock issueUops rb h = Some (rb', h') ->
  Z.of_nat (length (ReorderBuffer.uops rb')) <= RBWidth cfg.
Proof.
  intros Hrb Hissue Hgate Hrun.
  apply ReorderBuffer_cycle_length in Hrun.
  destruct (mayIssue cfg rb rs) eqn:Hm.
  - unfold mayIssue in Hm. apply andb_true_iff in Hm as [Hm _].
    apply negb_true_iff in Hm. unfold ReorderBuffer.isFull in Hm.
    rewrite Z.gtb_ltb in Hm. apply Z.ltb_ge in Hm. lia.
  - rewrite (Hgate eq_refl) in Hrun. simpl in Hrun. lia.
Qed.

Lemma ReorderBuffer_cycle_within_RBWidth_witness :
  exists rb' h',
    ReorderBuffer.cycle sampleConfig 1 [0%nat; 1%nat] ReorderBuffer.init
      sampleRetireHeap = Some (rb', h')
    /\ Z.of_nat (length (ReorderBuffer.uops rb')) <= 224.
Proof.
  eexists _, _. split; [vm_compute; reflexivity|].
  eapply (ReorderBuffer_cycle_within_RBWidth sampleConfig 1 [0%nat; 1%nat]
            ReorderBuffer.init _ sampleScheduler sampleRetireHeap).
  - simpl. lia.
  - simpl. lia.
  - vm_compute. discriminate.
  - vm_compute. reflexivity.
Defined.





(** ** The uops that enter the IDQ *)

Lemma addStackSyncUop_IDQ (getCanonicalReg : string -> string)
    (cfg : MicroArchConfig) (clock : Z) (uop : UopNode) (fe : FrontEnd) :
  exists sync,
    IDQ (addStackSyncUop getCanonicalReg cfg clock uop fe) = IDQ fe ++ sync
    /\ (length sync <= 1)%nat
    /\ Forall (isSyncEntry clock) sync.
Proof.
  unfold addStackSyncUop.
  repeat match goal with
         | |- context [if ?c then _ else _] => destruct c; simpl
         end;
    try (exists []; rewrite app_nil_r; split; [done|];
         split; [simpl; lia|constructor]);
    (eexists [_]; split; [done|]; split; [simpl; lia|];
     constructor; [|constructor];
     split; [done|]; split; [done|]; eexists; split; done).
Qed.

Lemma appendNewUops_spec (getCanonicalReg : string -> string)
    (cfg : MicroArchConfig) (clock : Z) (newUops : list LaminatedUop) :
  forall fe fe',
  appendNewUops getCanonicalReg cfg clock newUops fe = Some fe' ->
  exists syncs,
    length syncs = length newUops
    /\ Forall (fun sync => (length sync <= 1)%nat
                           /\ Forall (isSyncEntry clock) sync) syncs
    /\ IDQ fe'
       = IDQ fe
         ++ concat (zip_with (fun sync lamUop =>
                                sync ++ [set_addedToIDQ clock lamUop])
                             syncs newUops).
Proof.
  induction newUops as [|lamUop rest IH]; intros fe fe' Hrun; simpl in Hrun.
  { simplify_eq. exists []. simpl. rewrite app_nil_r. done. }
  destruct (getUnfusedUops lamUop) as [|uop others]; [done|].
  apply IH in Hrun as (syncs & Hlen & Hall & Heq).
  destruct (addStackSyncUop_IDQ getCanonicalReg cfg clock uop fe)
    as (sync & Hs & Hl & Hf).
  exists (sync :: syncs). split; [simpl; by rewrite Hlen|].
  split; [by constructor|].
  rewrite Heq. simpl. rewrite Hs. by rewrite <- !app_assoc.
Qed.

Lemma interleaved_length {A} (f : list A -> A -> list A) (syncs : list (list A))
    (l : list A) :
  length syncs = length l ->
  Forall (fun sync => (length sync <= 1)%nat) syncs ->
  (forall sync x, length (f sync x) = S (length sync)) ->
  (length l <= length (concat (zip_with f syncs l)) <= 2 * length l)%nat.
Proof.
  intros Hlen Hall Hf. revert l Hlen.
  induction Hall as [|sync syncs Hs _ IH]; intros [|x l] Hlen; simpl in *;
    try done; try lia.
  rewrite length_app, Hf. specialize (IH l ltac:(lia)). lia.
Qed.

(** X6. The uops that [FrontEnd.cycle] appends to the IDQ from the decoders,
    the DSB or the microcode sequencer: when the IDQ has no room for
    [DSBWidth] more uops nothing is appended; otherwise the new uops are
    appended in order, stamped with the clock, each preceded by at most one
    stack-synchronisation uop.  The IDQ therefore grows by at least the
    number of new uops and at most twice that number, which the test made
    before (room for [DSBWidth] uops) does not account for. *)
Theorem fillIDQ_appends (getCanonicalReg : string -> string)
    (cfg : MicroArchConfig) (clock : Z) (newUops : list LaminatedUop)
    (fe fe' : FrontEnd) :
  fillIDQ getCanonicalReg cfg clock (UopSupply newUops) fe = Some fe' ->
  (IDQFull cfg fe = true -> fe' = fe)
  /\ (IDQFull cfg fe = false ->
      (exists syncs,
         length syncs = length newUops
         /\ Forall (fun sync => (length sync <= 1)%nat
                                /\ Forall (isSyncEntry clock) sync) syncs
         /\ IDQ fe'
            = IDQ fe
              ++ concat (zip_with (fun sync lamUop =>
                                     sync ++ [set_addedToIDQ clock lamUop])
                                  syncs newUops))
      /\ (length (IDQ fe) + length newUops <= length (IDQ fe')
          <= length (IDQ fe) + 2 * length newUops)%nat
      /\ Z.of_nat (length (IDQ fe'))
         <= IDQWidth cfg - DSBWidth cfg + 2 * Z.of_nat (length newUops)).
Proof.
  unfold fillIDQ. intros Hrun. destruct (IDQFull cfg fe) eqn:Hfull.
  { split; [intros _; by simplify_eq|done]. }
  split; [done|]. intros _.
  apply appendNewUops_spec in Hrun as (syncs & Hlen & Hall & Heq).
  assert (Hgrow :
    (length newUops
     <= length (concat (zip_with (fun sync lamUop =>
                                    sync ++ [set_addedToIDQ clock lamUop])
                                 syncs newUops))
     <= 2 * length newUops)%nat).
  { apply interleaved_length; [done| |].
    - eapply Forall_impl; [exact Hall|]. by intros ? [? _].
    - intros sync x. rewrite length_app. simpl. lia. }
  split; [by exists syncs|].
  rewrite Heq, length_app. split; [lia|].
  unfold IDQFull in Hfull. rewrite Z.gtb_ltb in Hfull.
  apply Z.ltb_ge in Hfull. lia.
Qed.

(** An IDQ with room for exactly [DSBWidth] uops that receives [DSBWidth]
    uops, the first of which needs a stack synchronisation, ends with more
    than [IDQWidth] entries. *)
Lemma fillIDQ_appends_witness :
  exists fe',
    fillIDQ (fun r => r) sampleConfig 9
      (UopSupply [samplePopUop 1; sampleLamUop 2; sampleLamUop 3;
                  sampleLamUop 4; sampleLamUop 5; sampleLamUop 6])
      sampleBusyFrontEnd = Some fe'
    /\ length (IDQ fe') = 65%nat
    /\ (length (IDQ sampleBusyFrontEnd) + 6 <= length (IDQ fe'))%nat.
Proof.
  eexists. split; [vm_compute; reflexivity|]. split; [reflexivity|].
  destruct (fillIDQ_appends (fun r => r) sampleConfig 9
              [samplePopUop 1; sampleLamUop 2; sampleLamUop 3;
               sampleLamUop 4; sampleLamUop 5; sampleLamUop 6]
              sampleBusyFrontEnd _ ltac:(vm_compute; reflexivity))
    as [_ Hgrow].
  destruct (Hgrow ltac:(vm_compute; reflexivity)) as (_ & [Hlow _] & _).
  exact Hlow.
Defined.

Lemma appendUnfused_spec (getCanonicalReg : string -> string)
    (cfg : MicroArchConfig) (clock : Z) (lamUops : list LaminatedUop) :
  forall fe fe',
  appendUnfused getCanonicalReg cfg clock lamUops fe = Some fe' ->
  exists added, IDQ fe' = IDQ fe ++ added /\ Forall singleUop added
                /\ (length lamUops <= length added)%nat.
Proof.
  induction lamUops as [|lamUop rest IH]; intros fe fe' Hrun; simpl in Hrun.
  { simplify_eq. exists []. by rewrite app_nil_r. }
  destruct (getUnfusedUops lamUop) as [|uop others] eqn:Hun; [done|].
  apply IH in Hrun as (added & Heq & Hall & Hlen).
  destruct (addStackSyncUop_IDQ getCanonicalReg cfg clock uop fe)
    as (sync & Hs & Hl & Hf).
  set (split :=
         (fun uop0 => {| getFusedUops := [[uop0]]; addedToIDQ := None;
                         uopSource := None |}) <$> (uop :: others)) in *.
  assert (Hsplit : Forall singleUop split /\ (1 <= length split)%nat).
  { unfold split. rewrite length_fmap. split; [|simpl; lia].
    apply Forall_fmap, Forall_forall. intros u _. by exists u. }
  destruct Hsplit as [Hsplit Hlsplit].
  exists (sync ++ split ++ added). split.
  { rewrite Heq. cbn [IDQ extend_IDQ]. rewrite Hs, <- !app_assoc. done. }
  split.
  - rewrite !Forall_app. split; [|split; [done|done]].
    eapply Forall_impl; [exact Hf|]. intros l (_ & _ & u & Hu & _).
    by exists u.
  - rewrite !length_app. simpl. lia.
Qed.

(** X7. The simple front end: [FrontEnd.cycle] leaves an IDQ that already
    holds [issueWidth] entries alone; otherwise it appends whole cache
    blocks until the IDQ holds at least [issueWidth] entries, with no upper
    limit, and every entry it appends holds exactly one unfused uop
    (laminated and fused uops are split, stack-synchronisation uops
    included). *)
Theorem simpleFill_entries (getCanonicalReg : string -> string)
    (cfg : MicroArchConfig) (clock : Z)
    (cacheBlocks : list (list InstrInstance)) :
  forall fe fe',
  simpleFill getCanonicalReg cfg clock cacheBlocks fe = Some fe' ->
  issueWidth cfg <= Z.of_nat (length (IDQ fe'))
  /\ (issueWidth cfg <= Z.of_nat (length (IDQ fe)) -> fe' = fe)
  /\ exists added, IDQ fe' = IDQ fe ++ added /\ Forall singleUop added.
Proof.
  induction cacheBlocks as [|cacheBlock rest IH]; intros fe fe' Hrun;
    simpl in Hrun.
  - destruct (Z.ltb_spec (Z.of_nat (length (IDQ fe))) (issueWidth cfg));
      [done|].
    simplify_eq. split; [done|]. split; [done|].
    exists []. by rewrite app_nil_r.
  - destruct (Z.ltb_spec (Z.of_nat (length (IDQ fe))) (issueWidth cfg)).
    + destruct (appendUnfused _ _ _ _ fe) as [fe1|] eqn:H1; [|done].
      apply appendUnfused_spec in H1 as (added1 & Heq1 & Hall1 & _).
      apply IH in Hrun as (Hw & _ & added & Heq & Hall).
      split; [done|]. split; [lia|].
      exists (added1 ++ added). split.
      * by rewrite Heq, Heq1, <- app_assoc.
      * by apply Forall_app.
    + simplify_eq. split; [done|]. split; [done|].
      exists []. by rewrite app_nil_r.
Qed.

Lemma simpleFill_entries_witness :
  exists fe',
    simpleFill (fun r => r) sampleConfig 0 [samplePopBlock] (sampleFrontEnd 0)
    = Some fe'
    /\ 4 <= Z.of_nat (length (IDQ fe')).
Proof.
  eexists. split; [vm_compute; reflexivity|].
  destruct (simpleFill_entries (fun r => r) sampleConfig 0 [samplePopBlock]
              (sampleFrontEnd 0) _ ltac:(vm_compute; reflexivity))
    as (Hw & _).
  exact Hw.
Defined.

(** ** Dispatch: one uop per port *)

Lemma releasePorts_heap (us : list nat) :
  forall (usage usage' : gmap Port Z) (h h' : Heap),
  Scheduler.releasePorts us usage h = Some (usage', h') -> h' = h.
Proof.
  induction us as [|u rest IH]; intros usage usage' h h' Hrun; simpl in Hrun.
  { unfold ret in Hrun. by simplify_eq. }
  unfold bind, get_uop, raise in Hrun. simpl in Hrun.
  destruct (h_uops h !! u) as [uo|]; [|done]. simpl in Hrun.
  destruct (actualPort uo) as [p|]; [|done].
  destruct (usage !! p) as [n|]; [|done]. by eapply IH.
Qed.

Lemma dispatchLoop_effect (clock : Z) (ports : list Port) :
  forall (s s' : Scheduler.t) (log log' : list (Port * nat)) (h h' : Heap),
  Scheduler.dispatchLoop clock ports s log h = Some ((s', log'), h') ->
  exists new,
    log' = log ++ new
    /\ new.*1 `sublist_of` ports
    /\ NoDup new.*2
    /\ (forall u, u ∈ new.*2 -> u ∈ Scheduler.uops s)
    /\ Scheduler.uops s' = Scheduler.uops s ∖ list_to_set new.*2
    /\ Scheduler.pendingUops s'
       = Scheduler.pendingUops s ∪ list_to_set new.*2
    /\ (forall u, u ∈ new.*2 ->
          exists uo, h_uops h' !! u = Some uo /\ dispatched uo = Some clock)
    /\ (forall u, u ∉ new.*2 -> h_uops h' !! u = h_uops h !! u).
Proof.
  induction ports as [|port ports IH]; intros s s' log log' h h' Hrun;
    simpl in Hrun.
  { unfold ret in Hrun. simplify_eq. exists []. rewrite app_nil_r. simpl.
    repeat split; try done.
    - constructor.
    - intros u Hu. by apply elem_of_nil in Hu.
    - set_solver.
    - set_solver.
    - intros u Hu. by apply elem_of_nil in Hu. }
  destruct (Scheduler.readyQueue s !! port) as [q|] eqn:Hq; [|done].
  destruct (heapq.heappop _) as [[uop queue']|] eqn:Hpop.
  - unfold bind, get_uop, put_uop in Hrun. simpl in Hrun.
    destruct (h_uops h !! uop) as [uo|] eqn:Huo; [|done]. simpl in Hrun.
    case_bool_decide as Hin; [|done].
    apply IH in Hrun
      as (new & -> & Hsub & Hnd & Hmem & Huops & Hpend & Hstamp & Hframe).
    simpl in Hmem, Huops, Hpend, Hstamp, Hframe.
    assert (Hfresh : uop ∉ new.*2).
    { intros Hu. apply Hmem in Hu. set_solver. }
    exists ((port, uop) :: new). simpl.
    split; [by rewrite <- app_assoc|].
    split; [by apply sublist_skip|].
    split; [by apply NoDup_cons|].
    split.
    { intros u Hu. apply elem_of_cons in Hu as [->|Hu]; [done|].
      apply Hmem in Hu. set_solver. }
    split; [rewrite Huops; set_solver|].
    split; [rewrite Hpend; set_solver|].
    split.
    + intros u Hu. apply elem_of_cons in Hu as [->|Hu]; [|by apply Hstamp].
      rewrite (Hframe uop Hfresh), lookup_insert_eq. by eexists.
    + intros u Hu. apply not_elem_of_cons in Hu as [Hne Hu].
      rewrite (Hframe u Hu). by rewrite lookup_insert_ne.
  - apply IH in Hrun
      as (new & -> & Hsub & Hnd & Hmem & Huops & Hpend & Hstamp & Hframe).
    exists new. split; [done|]. split; [by apply sublist_cons|]. done.
Qed.

(** X8. One call of [Scheduler.dispatchUops] dispatches at most one uop per
    port, each through a port of the configuration and each uop once; the
    dispatched uops leave [self.uops] (they were all in it, so the occupancy
    drops by their number), join [self.pendingUops], are remembered in
    [uopsDispatchedInPrevCycle], and are stamped [dispatched = clock]; no
    other uop is touched. *)
Theorem dispatchUops_one_per_port (cfg : MicroArchConfig) (clock : Z)
    (s s' : Scheduler.t) (log : list (Port * nat)) (h h' : Heap) :
  NoDup (allPorts cfg) ->
  Scheduler.dispatchUops cfg clock s h = Some ((s', log), h') ->
  NoDup log.*1
  /\ (forall p, p ∈ log.*1 -> p ∈ allPorts cfg)
  /\ NoDup log.*2
  /\ (forall u, u ∈ log.*2 -> u ∈ Scheduler.uops s)
  /\ Scheduler.uops s' = Scheduler.uops s ∖ list_to_set log.*2
  /\ (size (Scheduler.uops s') + length log = size (Scheduler.uops s))%nat
  /\ Scheduler.pendingUops s' = Scheduler.pendingUops s ∪ list_to_set log.*2
  /\ Scheduler.uopsDispatchedInPrevCycle s' = log.*2
  /\ (forall u, u ∈ log.*2 ->
        exists uo, h_uops h' !! u = Some uo /\ dispatched uo = Some clock)
  /\ (forall u, u ∉ log.*2 -> h_uops h' !! u = h_uops h !! u).
Proof.
  intros Hnd Hrun. unfold Scheduler.dispatchUops, bind in Hrun.
  destruct (Scheduler.applicablePorts cfg s h) as [[ports h1]|] eqn:Hap;
    [|done].
  apply applicablePorts_spec in Hap as (-> & Hndp & Hsub & _); [|done].
  destruct (Scheduler.dispatchLoop clock ports s [] h) as [[[s1 log1] h1]|]
    eqn:Hloop; [|done].
  simpl in Hrun.
  destruct (Scheduler.releasePorts _ _ h1) as [[usage h2]|] eqn:Hrel; [|done].
  apply releasePorts_heap in Hrel as ->.
  unfold ret in Hrun. simplify_eq.
  apply dispatchLoop_effect in Hloop
    as (new & Heq & Hsl & Hnd2 & Hmem & Huops & Hpend & Hstamp & Hframe).
  simpl in Heq. subst new. simpl.
  split; [by eapply sublist_NoDup|].
  split.
  { intros p Hp. apply Hsub. by eapply elem_of_sublist. }
  split; [done|]. split; [done|]. split; [done|].
  split.
  { rewrite Huops, size_difference.
    - rewrite size_list_to_set by done. rewrite length_fmap.
      assert (size (list_to_set log.*2 : gset nat) <= size (Scheduler.uops s))%nat.
      { apply subseteq_size. intros u Hu. apply elem_of_list_to_set in Hu.
        by apply Hmem. }
      rewrite size_list_to_set in H by done. rewrite length_fmap in H. lia.
    - intros u Hu. apply elem_of_list_to_set in Hu. by apply Hmem. }
  done.
Qed.

Lemma dispatchUops_one_per_port_witness :
  exists s' h',
    Scheduler.dispatchUops sampleConfig10 4 sampleScheduler (sampleStoreHeap 8)
    = Some ((s', [("4"%string, 10%nat); ("9"%string, 11%nat)]), h')
    /\ size (Scheduler.uops s') = 0%nat.
Proof.
  eexists _, _. split; [vm_compute; reflexivity|].
  destruct (dispatchUops_one_per_port sampleConfig10 4 sampleScheduler _
              [("4"%string, 10%nat); ("9"%string, 11%nat)]
              (sampleStoreHeap 8) _ sampleConfig10_NoDup
              ltac:(vm_compute; reflexivity))
    as (_ & _ & _ & _ & _ & Hsize & _).
  simpl in Hsize. vm_compute in Hsize. vm_compute. lia.
Defined.

(** ** The report *)

Lemma foldlO_raises {A B : Type} (f : B -> A -> option B) (l : list A)
    (x : A) :
  x ∈ l -> (forall b, f b x = None) -> forall b, foldlO f l b = None.
Proof.
  intros Hin Hx. induction l as [|y l IH]; intros b; simpl.
  - by apply elem_of_nil in Hin.
  - apply elem_of_cons in Hin as [<-|Hin]; [by rewrite Hx|].
    destruct (f b y); [by apply IH|done].
Qed.

(** X9. [getUopsTableColumns] cannot produce the table when a line has no
    instruction: for the lines that [main] adds for register-merge and
    stack-synchronisation uops ([instr] is [None]) the test
    [tld.instr.macroFusedWithPrevInstr] raises, whatever the other lines
    are. *)
Theorem getUopsTableColumns_no_instr (cfg : MicroArchConfig) (h : Heap)
    (tableLineData : list TableLineData) (tld : TableLineData) :
  tld ∈ tableLineData -> tld_instr tld = None ->
  getUopsTableColumns cfg h tableLineData = None.
Proof.
  intros Hin Hnone. unfold getUopsTableColumns.
  destruct (anyDivCycles tableLineData) as [hasDiv|]; [|done].
  rewrite (foldlO_raises (tableLine h) tableLineData tld Hin); [done|].
  intros columns. unfold tableLine. by rewrite Hnone.
Qed.

Lemma getUopsTableColumns_no_instr_witness :
  getUopsTableColumns sampleConfig sampleRetireHeap
    (sampleTable
     ++ [ {| tld_string := "<Stack Sync Uop>"; tld_instr := None;
             tld_url := None; uopsForRnd := [[sampleLamUop 1]] |} ])
  = None.
Proof.
  apply (getUopsTableColumns_no_instr sampleConfig sampleRetireHeap _
           {| tld_string := "<Stack Sync Uop>"; tld_instr := None;
              tld_url := None; uopsForRnd := [[sampleLamUop 1]] |}).
  - apply elem_of_app. right. by apply list_elem_of_singleton.
  - reflexivity.
Defined.

(** ** Ready cycles *)

(** X10. [RenamedOperand.getReadyCycle] is stable once it has answered: a
    query that answers a cycle changes nothing in the store but the memo of
    the operand asked, and every later query of that operand answers the
    same cycle and changes nothing at all. *)
Theorem getReadyCycle_idempotent (h h' : Heap) (self : nat) (v : Z) :
  getReadyCycle self h = Some (Some v, h') ->
  getReadyCycle self h' = Some (Some v, h')
  /\ h_uops h' = h_uops h /\ h_fused h' = h_fused h /\ h_sb h' = h_sb h
  /\ (forall r, r <> self -> h_ren h' !! r = h_ren h !! r).
Proof.
  intros Hrun. apply getReadyCycle_known in Hrun as (o & Ho & ->).
  split.
  - unfold getReadyCycle, bind, get_ren, with_ren. simpl.
    rewrite lookup_insert_eq. done.
  - repeat split; try done. intros r Hr. unfold with_ren. simpl.
    by rewrite lookup_insert_ne.
Qed.

Lemma getReadyCycle_idempotent_witness :
  exists h', getReadyCycle 0 sampleLoadHeap = Some (Some 14, h')
             /\ getReadyCycle 0 h' = Some (Some 14, h').
Proof.
  eexists. split; [vm_compute; reflexivity|].
  destruct (getReadyCycle_idempotent sampleLoadHeap _ 0 14
              ltac:(vm_compute; reflexivity)) as [H _].
  exact H.
Defined.

Lemma getReadyCycle_frame (h h' : Heap) (self : nat) (r : option Z) :
  getReadyCycle self h = Some (r, h') ->
  h_uops h' = h_uops h /\ h_fused h' = h_fused h /\ h_sb h' = h_sb h.
Proof.
  intros Hrun. destruct r as [v|].
  - apply getReadyCycle_known in Hrun as (o & _ & ->). done.
  - apply getReadyCycle_unknown in Hrun as ->. done.
Qed.

Lemma getReadyCycle_memo_kept (h h' : Heap) (self : nat) (r : option Z)
    (x : nat) (o : RenamedOperand) (c : Z) :
  getReadyCycle self h = Some (r, h') ->
  h_ren h !! x = Some o -> ro_ready o = Some c ->
  exists o', h_ren h' !! x = Some o' /\ ro_ready o' = Some c.
Proof.
  intros Hrun Ho Hc. destruct r as [v|].
  - pose proof Hrun as Hk.
    apply getReadyCycle_known in Hk as (o0 & Ho0 & ->).
    destruct (decide (x = self)) as [->|Hne].
    + assert (o0 = o) as -> by congruence.
      unfold getReadyCycle, bind, get_ren in Hrun.
      rewrite Ho0, Hc in Hrun. unfold ret in Hrun.
      assert (v = c) as -> by congruence.
      unfold with_ren. simpl. rewrite lookup_insert_eq. by eexists.
    + unfold with_ren. simpl. rewrite lookup_insert_ne by done. by exists o.
  - apply getReadyCycle_unknown in Hrun as ->. by exists o.
Qed.

Lemma getReadyCycle_answer_memo (h h' : Heap) (self : nat) (v : Z) :
  getReadyCycle self h = Some (Some v, h') ->
  exists o', h_ren h' !! self = Some o' /\ ro_ready o' = Some v.
Proof.
  intros Hrun. apply getReadyCycle_known in Hrun as (o & _ & ->).
  unfold with_ren. simpl. rewrite lookup_insert_eq. by eexists.
Qed.

Lemma inputsReadyCycle_max (ops : list nat) :
  forall (acc : Z) (h h' : Heap) (m : Z),
  inputsReadyCycle ops acc h = Some (Some m, h') ->
  acc <= m
  /\ h_uops h' = h_uops h /\ h_fused h' = h_fused h
  /\ (forall x, x ∈ ops ->
        exists o c, h_ren h' !! x = Some o /\ ro_ready o = Some c /\ c <= m)
  /\ (forall x o c, h_ren h !! x = Some o -> ro_ready o = Some c ->
        exists o', h_ren h' !! x = Some o' /\ ro_ready o' = Some c).
Proof.
  induction ops as [|r rest IH]; intros acc h h' m Hrun; simpl in Hrun.
  { unfold ret in Hrun. simplify_eq. split; [lia|]. split; [done|].
    split; [done|]. split.
    - intros x Hx. by apply elem_of_nil in Hx.
    - intros x o c Ho Hc. by exists o. }
  unfold bind at 1 in Hrun.
  destruct (getReadyCycle r h) as [[[v1|] h1]|] eqn:E1; [| |done].
  2: { unfold ret in Hrun. done. }
  unfold bind at 1 in Hrun.
  destruct (getReadyCycle r h1) as [[[c|] h2]|] eqn:E2; [| |done].
  2: { unfold raise in Hrun. done. }
  destruct (getReadyCycle_frame _ _ _ _ E1) as (Hu1 & Hf1 & _).
  destruct (getReadyCycle_frame _ _ _ _ E2) as (Hu2 & Hf2 & _).
  destruct (getReadyCycle_answer_memo _ _ _ _ E2) as (o2 & Ho2 & Hc2).
  apply IH in Hrun as (Hacc & Hu & Hf & Hin & Hkept).
  split; [lia|]. split; [congruence|]. split; [congruence|]. split.
  - intros x Hx. apply elem_of_cons in Hx as [->|Hx].
    + destruct (Hkept r o2 c Ho2 Hc2) as (o' & Ho' & Hc').
      exists o', c. repeat split; [done|done|lia].
    + by apply Hin.
  - intros x o c0 Ho Hc.
    destruct (getReadyCycle_memo_kept _ _ _ _ _ _ _ E1 Ho Hc) as (o1 & Ho1 & Hc1).
    destruct (getReadyCycle_memo_kept _ _ _ _ _ _ _ E2 Ho1 Hc1) as (o3 & Ho3 & Hc3).
    by eapply Hkept.
Qed.

(** X11. A cycle answered by [Scheduler.getReadyForDispatchCycle] is later
    than the current clock, not earlier than [issueDispatchDelay] cycles
    after the issue of the uop's fused uop, and not earlier than the ready
    cycle of any renamed input operand, all of which are memoized when the
    call returns; the call writes no uop and no fused uop. *)
Theorem getReadyForDispatchCycle_bounds (cfg : MicroArchConfig) (clock : Z)
    (u : nat) (h h' : Heap) (r : Z) :
  getReadyForDispatchCycle cfg clock u h = Some (Some r, h') ->
  clock < r
  /\ h_uops h' = h_uops h /\ h_fused h' = h_fused h
  /\ exists uo f iss,
       h_uops h !! u = Some uo /\ h_fused h !! fusedUop uo = Some f
       /\ issued f = Some iss
       /\ iss + issueDispatchDelay cfg <= r
       /\ forall x, x ∈ renamedInputOperands uo ->
            exists o c, h_ren h' !! x = Some o /\ ro_ready o = Some c
                        /\ c <= r.
Proof.
  unfold getReadyForDispatchCycle. intros Hrun.
  unfold bind at 1, get_uop in Hrun.
  destruct (h_uops h !! u) as [uo|] eqn:Hu; [|done]. simpl in Hrun.
  unfold bind at 1 in Hrun.
  destruct (inputsReadyCycle (renamedInputOperands uo) (-1) h)
    as [[[m|] h1]|] eqn:Hin; [| |done].
  2: { unfold ret in Hrun. done. }
  apply inputsReadyCycle_max in Hin as (Hm & Hu1 & Hf1 & Hops & _).
  unfold bind, get_fused in Hrun. simpl in Hrun.
  destruct (h_fused h1 !! fusedUop uo) as [f|] eqn:Hf; [|done].
  simpl in Hrun. destruct (issued f) as [iss|] eqn:Hiss; [|done].
  unfold ret in Hrun. simplify_eq.
  split; [lia|]. split; [done|]. split; [done|].
  exists uo, f, iss. rewrite <- Hf1. repeat split; try done.
  - repeat case_match; lia.
  - intros x Hx. destruct (Hops x Hx) as (o & c & Ho & Hc & Hle).
    exists o, c. repeat split; [done|done|].
    repeat case_match; lia.
Qed.

Lemma getReadyForDispatchCycle_bounds_witness :
  exists h', getReadyForDispatchCycle sampleConfig 2 1 sampleChainHeap
             = Some (Some 8, h')
             /\ 2 < 8.
Proof.
  eexists. split; [vm_compute; reflexivity|].
  destruct (getReadyForDispatchCycle_bounds sampleConfig 2 1 sampleChainHeap
              _ 8 ltac:(vm_compute; reflexivity)) as [H _].
  exact H.
Defined.

(** ** When [computeUopProperties] raises *)

Lemma padAndFlag_raises (slots : Z) (base : list UopProperties) :
  padAndFlag slots base = None <-> base = [] /\ slots <= 0.
Proof.
  unfold padAndFlag. split.
  - destruct (base ++ replicate _ portlessUop) eqn:E; [|done]. intros _.
    apply app_eq_nil in E as [-> E]. split; [done|].
    apply (f_equal length) in E. rewrite length_replicate in E.
    simpl in E. lia.
  - intros [-> Hs]. simpl.
    destruct (Z.to_nat _) eqn:E; [done|lia].
Qed.

(** X12. The one way [computeUopProperties] raises: for an instruction that
    is not fused with its predecessor, the loop body fails (at
    [instr.UopPropertiesList[0]]) exactly when no uop was built from the
    port data and [retireSlots] is not positive; in particular an
    instruction without port data is processed exactly when it has at least
    one retire slot. *)
Theorem computeUopPropertiesOf_raises (instr : Instr) (next : nat) :
  (computeUopPropertiesOf instr next = None <->
   (uopPropertiesOf instr next).1 = [] /\ retireSlots instr <= 0)
  /\ (portData instr = [] ->
      (computeUopPropertiesOf instr next = None <-> retireSlots instr <= 0)).
Proof.
  assert (Hiff : computeUopPropertiesOf instr next = None <->
                 (uopPropertiesOf instr next).1 = [] /\ retireSlots instr <= 0).
  { unfold computeUopPropertiesOf.
    destruct (uopPropertiesOf instr next) as [base n]. simpl.
    rewrite <- padAndFlag_raises.
    destruct (padAndFlag (retireSlots instr) base); split; done. }
  split; [done|]. intros Hports. rewrite Hiff.
  assert (Hnil : (uopPropertiesOf instr next).1 = []).
  { unfold uopPropertiesOf. rewrite Hports. reflexivity. }
  rewrite Hnil. tauto.
Qed.

(** ** Splitting cache blocks *)









(** ** The immediate *)

Lemma land_bit (a k : Z) :
  0 <= k ->
  Z.land a (Z.shiftl 1 k) = if Z.testbit a k then 2 ^ k else 0.
Proof.
  intros Hk. rewrite Z.shiftl_1_l. apply Z.bits_inj'. intros n Hn.
  rewrite Z.land_spec, Z.pow2_bits_eqb by done.
  destruct (Z.eqb_spec k n) as [->|Hne].
  - destruct (Z.testbit a n) eqn:Hb.
    + rewrite Z.pow2_bits_true by done. done.
    + rewrite Z.bits_0. done.
  - rewrite andb_false_r. destruct (Z.testbit a k).
    + rewrite Z.pow2_bits_false by done. done.
    + by rewrite Z.bits_0.
Qed.

Lemma top_bit (a w : Z) :
  1 <= w -> 0 <= a < 2 ^ w ->
  Z.testbit a (w - 1) = (2 ^ (w - 1) <=? a).
Proof.
  intros Hw Ha. rewrite Z.testbit_eqb by lia.
  assert (Hp : 2 ^ w = 2 * 2 ^ (w - 1)).
  { rewrite <- Z.pow_succ_r by lia. f_equal. lia. }
  assert (Hpos : 0 < 2 ^ (w - 1)) by (apply Z.pow_pos_nonneg; lia).
  destruct (Z.leb_spec (2 ^ (w - 1)) a) as [Hle|Hlt].
  - assert (a / 2 ^ (w - 1) = 1) as ->; [|done].
    symmetry. apply (Z.div_unique a (2 ^ (w - 1)) 1 (a - 2 ^ (w - 1))); lia.
  - rewrite Z.div_small by lia. done.
Qed.

(** X14. The immediate of an instruction is read as a two's-complement
    number of [immediateWidth] bits: for a width of at least one bit and an
    unsigned value that fits the width, the value kept is the one number in
    [-2^(w-1), 2^(w-1)) that is congruent to it modulo [2^w] (values below
    [2^(w-1)] are kept as they are); for a width below one (the attribute
    [IMM_WIDTH] missing while [IMM0] is there) the shift raises. *)
Theorem signedImmediate_spec (immediate immediateWidth : Z) :
  (immediateWidth < 1 -> signedImmediate immediate immediateWidth = None)
  /\ (1 <= immediateWidth -> 0 <= immediate < 2 ^ immediateWidth ->
      exists r,
        signedImmediate immediate immediateWidth = Some r
        /\ - 2 ^ (immediateWidth - 1) <= r < 2 ^ (immediateWidth - 1)
        /\ r `mod` 2 ^ immediateWidth = immediate
        /\ (immediate < 2 ^ (immediateWidth - 1) -> r = immediate)).
Proof.
  unfold signedImmediate. split.
  - intros Hw. destruct (Z.ltb_spec (immediateWidth - 1) 0); [done|lia].
  - intros Hw Ha. destruct (Z.ltb_spec (immediateWidth - 1) 0); [lia|].
    rewrite land_bit by lia. rewrite top_bit by lia.
    rewrite Z.shiftl_1_l.
    assert (Hp : 2 ^ immediateWidth = 2 * 2 ^ (immediateWidth - 1)).
    { rewrite <- Z.pow_succ_r by lia. f_equal. lia. }
    assert (Hpos : 0 < 2 ^ (immediateWidth - 1))
      by (apply Z.pow_pos_nonneg; lia).
    destruct (Z.leb_spec (2 ^ (immediateWidth - 1)) immediate) as [Hle|Hlt].
    + destruct (Z.eqb_spec (2 ^ (immediateWidth - 1)) 0); [lia|]. simpl.
      eexists. split; [done|]. split; [lia|]. split; [|lia].
      symmetry.
      apply (Z.mod_unique _ _ (-1)); [left; lia|lia].
    + simpl. eexists. split; [done|]. split; [lia|]. split; [|done].
      apply Z.mod_small. lia.
Qed.

Lemma signedImmediate_spec_witness :
  signedImmediate 255 8 = Some (-1) /\ (-1) `mod` 2 ^ 8 = 255.
Proof.
  destruct (signedImmediate_spec 255 8) as [_ H].
  destruct (H ltac:(lia) ltac:(lia)) as (r & Hr & _ & Hm & _).
  vm_compute in Hr. injection Hr as <-. split; [reflexivity|exact Hm].
Defined.

(** ** The uops of an instruction instance *)

Lemma fuseUops_spec (retireSlots : Z) (n : nat) :
  forall i unfused fused unfused' fused',
  fuseUops retireSlots n i unfused fused = Some (unfused', fused') ->
  concat fused' ++ unfused' = concat fused ++ unfused
  /\ length fused' = (length fused + n)%nat
  /\ (Forall (fun f => f <> []) fused -> Forall (fun f => f <> []) fused').
Proof.
  induction n as [|n IH]; intros i unfused fused unfused' fused' Hrun;
    simpl in Hrun.
  { simplify_eq. split; [done|]. split; [lia|done]. }
  destruct unfused as [|uop rest]; [done|].
  destruct (usesPort237 uop && _).
  - destruct rest as [|uop2 rest']; [done|].
    apply IH in Hrun as (Hc & Hl & Hne). split.
    + rewrite Hc, concat_app. simpl. by rewrite <- app_assoc.
    + rewrite Hl, length_app. simpl. split; [lia|].
      intros Hf. apply Hne. apply Forall_app. split; [done|].
      by repeat constructor.
  - apply IH in Hrun as (Hc & Hl & Hne). split.
    + rewrite Hc, concat_app. simpl. by rewrite <- app_assoc.
    + rewrite Hl, length_app. simpl. split; [lia|].
      intros Hf. apply Hne. apply Forall_app. split; [done|].
      by repeat constructor.
Qed.

Lemma fuseUops_total (retireSlots : Z) (n : nat) :
  forall i unfused fused,
  n = 0%nat \/ Z.of_nat n + 1 <= retireSlots - i ->
  (n + 1 <= length unfused)%nat ->
  exists unfused' fused',
    fuseUops retireSlots n i unfused fused = Some (unfused', fused')
    /\ unfused' <> [].
Proof.
  induction n as [|n IH]; intros i unfused fused Hn Hlen; simpl.
  { exists unfused, fused. split; [done|]. intros ->. simpl in Hlen. lia. }
  destruct Hn as [Hn|Hn]; [done|].
  destruct unfused as [|uop rest]; [simpl in Hlen; lia|]. simpl in Hlen.
  destruct (usesPort237 uop && _) eqn:Hc.
  - apply andb_true_iff in Hc as [_ Hc]. apply Z.leb_le in Hc.
    destruct rest as [|uop2 rest']; [simpl in Hc; lia|]. simpl in Hc.
    apply IH; [|lia]. destruct n; [by left|right; lia].
  - apply IH; [|lia]. destruct n; [by left|right; lia].
Qed.

Lemma laminateUops_spec (nLam : Z) (n : nat) :
  forall i fused lams fused' lams',
  laminateUops nLam n i fused lams = Some (fused', lams') ->
  concat (getFusedUops <$> lams') ++ fused'
  = concat (getFusedUops <$> lams) ++ fused
  /\ length lams' = (length lams + n)%nat.
Proof.
  induction n as [|n IH]; intros i fused lams fused' lams' Hrun;
    simpl in Hrun.
  { simplify_eq. split; [done|lia]. }
  destruct fused as [|fusedUop rest]; [done|].
  destruct (fusedUsesPort237 fusedUop && _).
  - destruct rest as [|fusedUop2 rest']; [done|].
    apply IH in Hrun as (Hc & Hl). split.
    + rewrite Hc, fmap_app, concat_app. simpl. by rewrite <- app_assoc.
    + rewrite Hl, length_app. simpl. lia.
  - apply IH in Hrun as (Hc & Hl). split.
    + rewrite Hc, fmap_app, concat_app. simpl. by rewrite <- app_assoc.
    + rewrite Hl, length_app. simpl. lia.
Qed.

Lemma laminateUops_total (nLam : Z) (n : nat) :
  forall i fused lams,
  n = 0%nat \/ Z.of_nat n + 1 <= nLam - i ->
  (n + 1 <= length fused)%nat ->
  exists fused' lams',
    laminateUops nLam n i fused lams = Some (fused', lams') /\ fused' <> [].
Proof.
  induction n as [|n IH]; intros i fused lams Hn Hlen; simpl.
  { exists fused, lams. split; [done|]. intros ->. simpl in Hlen. lia. }
  destruct Hn as [Hn|Hn]; [done|].
  destruct fused as [|fusedUop rest]; [simpl in Hlen; lia|]. simpl in Hlen.
  destruct (fusedUsesPort237 fusedUop && _) eqn:Hc.
  - apply andb_true_iff in Hc as [_ Hc]. apply Z.leb_le in Hc.
    destruct rest as [|fusedUop2 rest']; [simpl in Hc; lia|]. simpl in Hc.
    apply IH; [|lia]. destruct n; [by left|right; lia].
  - apply IH; [|lia]. destruct n; [by left|right; lia].
Qed.

Lemma concat_getUnfusedUops (lamUops : list LaminatedUop) :
  concat (getUnfusedUops <$> lamUops)
  = concat (concat (getFusedUops <$> lamUops)).
Proof.
  induction lamUops as [|l lamUops IH]; [done|].
  rewrite !fmap_cons. simpl. rewrite concat_app, IH. done.
Qed.

(** X15. [InstrInstance.__generateUops] keeps every uop, in order: when it
    returns, the unfused uops of the laminated uops, read from left to
    right, are the uops made from [UopPropertiesList], one per entry.  When
    the list is not empty and has at least [retireSlots] entries (what
    [computeUopProperties] establishes) it does return, the instruction
    instance has exactly [max(retireSlots, 1)] fused uops, none of them
    empty, and [max(min(uopsMITE + uopsMS, fused uops), 1)] laminated
    uops. *)
Theorem generateUops_keeps_uops (instr : Instr) (instrI idx : nat) :
  (forall lamUops,
     generateUops instr instrI idx = Some lamUops ->
     concat (getUnfusedUops <$> lamUops) = newUopsOf instr instrI idx)
  /\ (UopPropertiesList instr <> [] ->
      retireSlots instr <= Z.of_nat (length (UopPropertiesList instr)) ->
      exists lamUops,
        generateUops instr instrI idx = Some lamUops
        /\ let fusedUops := concat (getFusedUops <$> lamUops) in
           Z.of_nat (length fusedUops) = Z.max (retireSlots instr) 1
           /\ Forall (fun f => f <> []) fusedUops
           /\ Z.of_nat (length lamUops)
              = Z.max (Z.min (uopsMITE instr + uopsMS instr)
                             (Z.of_nat (length fusedUops))) 1).
Proof.
  assert (Hlen : length (newUopsOf instr instrI idx)
                 = length (UopPropertiesList instr)).
  { unfold newUopsOf. apply length_imap. }
  split.
  - intros lamUops Hrun. unfold generateUops in Hrun.
    destruct (UopPropertiesList instr) as [|p ps] eqn:Hprops.
    { simplify_eq. unfold newUopsOf. by rewrite Hprops. }
    destruct (fuseUops _ _ 0 _ []) as [[unfused fused]|] eqn:Hf; [|done].
    destruct (laminateUops _ _ 0 _ []) as [[fused' lams]|] eqn:Hl; [|done].
    simplify_eq.
    apply fuseUops_spec in Hf as (Hf & _).
    apply laminateUops_spec in Hl as (Hl & _). simpl in Hf, Hl.
    rewrite concat_getUnfusedUops, fmap_app, concat_app. simpl.
    rewrite app_nil_r, Hl, concat_app. simpl. rewrite app_nil_r. done.
  - intros Hne Hslots. unfold generateUops.
    destruct (UopPropertiesList instr) as [|p ps] eqn:Hprops; [done|].
    rewrite <- Hprops in *. clear Hne.
    assert (Hpos : (1 <= length (UopPropertiesList instr))%nat).
    { rewrite Hprops. simpl. lia. }
    destruct (fuseUops_total (retireSlots instr)
                (Z.to_nat (retireSlots instr - 1)) 0
                (newUopsOf instr instrI idx) [])
      as (unfused & fused & Hf & Hnonempty).
    { destruct (Z.to_nat (retireSlots instr - 1)) eqn:E; [by left|right; lia]. }
    { rewrite Hlen. lia. }
    rewrite Hf.
    pose proof (fuseUops_spec _ _ _ _ _ _ _ Hf) as (_ & Hfl & Hfne).
    simpl in Hfl.
    set (fusedAll := fused ++ [unfused]) in *.
    assert (Hall : length fusedAll = S (Z.to_nat (retireSlots instr - 1))).
    { unfold fusedAll. rewrite length_app, Hfl. simpl. lia. }
    assert (Hallne : Forall (fun f => f <> []) fusedAll).
    { unfold fusedAll. apply Forall_app. split; [by apply Hfne|].
      by repeat constructor. }
    set (nLam := Z.min (uopsMITE instr + uopsMS instr)
                       (Z.of_nat (length fusedAll))) in *.
    destruct (laminateUops_total nLam (Z.to_nat (nLam - 1)) 0 fusedAll [])
      as (fused' & lams & Hl & Hfused').
    { destruct (Z.to_nat (nLam - 1)) eqn:E; [by left|right; lia]. }
    { unfold nLam. lia. }
    rewrite Hl. eexists. split; [done|].
    pose proof (laminateUops_spec _ _ _ _ _ _ _ Hl) as (Hlc & Hll).
    simpl in Hlc, Hll.
    assert (Hfusedeq : concat (getFusedUops <$> lams ++ [LaminatedUop_of fused'])
                       = fusedAll).
    { rewrite fmap_app, concat_app. simpl. by rewrite app_nil_r. }
    cbv zeta. unfold FusedNode in *. rewrite Hfusedeq.
    split; [lia|]. split; [done|].
    rewrite length_app, Hll. simpl. fold nLam. lia.
Qed.

Lemma generateUops_keeps_uops_witness :
  exists lamUops,
    generateUops samplePushed 0 10 = Some lamUops
    /\ length (concat (getFusedUops <$> lamUops)) = 3%nat
    /\ (u_idx <$> concat (getUnfusedUops <$> lamUops)) = [10; 11; 12]%nat.
Proof.
  destruct (generateUops_keeps_uops samplePushed 0 10) as [Hkeep Hret].
  destruct Hret as (lamUops & Hrun & Hfused & _).
  { vm_compute. discriminate. }
  { vm_compute. discriminate. }
  exists lamUops. split; [exact Hrun|]. split.
  - apply Nat2Z.inj. exact Hfused.
  - rewrite (Hkeep lamUops Hrun). reflexivity.
Defined.

(** ** The microcode sequencer *)

Lemma takeUops_spec (queue uops : list LaminatedUop) :
  MicrocodeSequencer.takeUops queue uops
  = (uops ++ take (4 - length uops) queue, drop (4 - length uops) queue).
Proof.
  revert uops. induction queue as [|lamUop rest IH]; intros uops; simpl.
  - by rewrite take_nil, drop_nil, app_nil_r.
  - destruct (Z.of_nat (length uops) <? 4) eqn:E.
    + apply Z.ltb_lt in E. rewrite IH, length_app. simpl.
      destruct (4 - length uops)%nat as [|k] eqn:Ek; [lia|].
      replace (4 - (length uops + 1))%nat with k by lia.
      simpl. by rewrite <- app_assoc.
    + apply Z.ltb_ge in E.
      replace (4 - length uops)%nat with 0%nat by lia.
      by rewrite take_0, drop_0, app_nil_r.
Qed.

Lemma MS_cycle_stalled (ms : MicrocodeSequencer.t) :
  MicrocodeSequencer.stalled ms <> 0 ->
  MicrocodeSequencer.cycle ms
  = ([], {| MicrocodeSequencer.uopQueue := MicrocodeSequencer.uopQueue ms;
            MicrocodeSequencer.stalled := MicrocodeSequencer.stalled ms - 1;
            MicrocodeSequencer.postStall := MicrocodeSequencer.postStall ms |}).
Proof.
  intros H. unfold MicrocodeSequencer.cycle.
  by destruct (Z.eqb_spec (MicrocodeSequencer.stalled ms) 0).
Qed.

Lemma MS_cycle_ready (ms : MicrocodeSequencer.t) :
  MicrocodeSequencer.stalled ms = 0 ->
  MicrocodeSequencer.uopQueue ms <> [] ->
  MicrocodeSequencer.cycle ms
  = (take 4 (MicrocodeSequencer.uopQueue ms),
     {| MicrocodeSequencer.uopQueue := drop 4 (MicrocodeSequencer.uopQueue ms);
        MicrocodeSequencer.stalled :=
          if nonempty (drop 4 (MicrocodeSequencer.uopQueue ms))
          then 0 else MicrocodeSequencer.postStall ms;
        MicrocodeSequencer.postStall := MicrocodeSequencer.postStall ms |}).
Proof.
  intros Hs Hq. unfold MicrocodeSequencer.cycle.
  rewrite Hs. simpl.
  destruct (MicrocodeSequencer.uopQueue ms) as [|u q] eqn:E; [done|].
  cbn [nonempty]. rewrite takeUops_spec. reflexivity.
Qed.

(** Once the stall is over, the queue is emptied in order, four laminated
    uops per call. *)
Lemma MS_cycles_ready (k : nat) (ms : MicrocodeSequencer.t) :
  (length (MicrocodeSequencer.uopQueue ms) <= k)%nat ->
  MicrocodeSequencer.stalled ms = 0 ->
  let n := ((length (MicrocodeSequencer.uopQueue ms) + 3) / 4)%nat in
  let r := MicrocodeSequencer.cycles n ms in
  concat r.1 = MicrocodeSequencer.uopQueue ms
  /\ length r.1 = n
  /\ Forall (fun uops => 0 < length uops <= 4)%nat r.1
  /\ MicrocodeSequencer.uopQueue r.2 = []
  /\ MicrocodeSequencer.postStall r.2 = MicrocodeSequencer.postStall ms
  /\ (MicrocodeSequencer.uopQueue ms <> [] ->
      MicrocodeSequencer.stalled r.2 = MicrocodeSequencer.postStall ms).
Proof.
  revert ms. induction k as [|k IH]; intros ms Hlen Hs.
  - destruct (MicrocodeSequencer.uopQueue ms) as [|u q] eqn:E;
      [|simpl in Hlen; lia].
    simpl. rewrite E. repeat split; auto. done.
  - destruct (MicrocodeSequencer.uopQueue ms) as [|u q] eqn:E.
    { simpl. rewrite E. repeat split; auto. done. }
    assert (Hq : MicrocodeSequencer.uopQueue ms <> []) by (by rewrite E).
    rewrite <- E in *.
    set (queue := MicrocodeSequencer.uopQueue ms) in *.
    assert (Hn : ((length queue + 3) / 4
                  = S ((length (drop 4 queue) + 3) / 4))%nat).
    { rewrite length_drop.
      assert (0 < length queue)%nat by (subst queue; rewrite E; simpl; lia).
      destruct (le_lt_dec 4 (length queue)) as [Hge|Hlt].
      - replace (length queue + 3)%nat
          with ((length queue - 4 + 3) + 1 * 4)%nat by lia.
        rewrite Nat.div_add by lia. lia.
      - replace (length queue - 4)%nat with 0%nat by lia.
        assert ((length queue + 3) / 4 = 1)%nat as ->; [|done].
        symmetry. apply Nat.div_unique with (r := (length queue - 1)%nat); lia. }
    assert (Hpos : (0 < length queue)%nat) by (rewrite E; simpl; lia).
    cbv zeta. rewrite Hn. cbn [MicrocodeSequencer.cycles].
    rewrite (MS_cycle_ready ms Hs Hq). cbn beta iota. fold queue.
    destruct (drop 4 queue) as [|u' q'] eqn:Ed.
    + simpl.
      assert (Ht : take 4 queue = queue).
      { rewrite <- (take_drop 4 queue) at 2. by rewrite Ed, app_nil_r. }
      rewrite app_nil_r, Ht. repeat split; auto.
      constructor; [|done].
      assert (length queue <= 4)%nat.
      { pose proof (length_drop queue 4) as Hd. rewrite Ed in Hd.
        simpl in Hd. lia. }
      lia.
    + cbn [nonempty].
      set (ms1 := {| MicrocodeSequencer.uopQueue := u' :: q';
                     MicrocodeSequencer.stalled := 0;
                     MicrocodeSequencer.postStall :=
                       MicrocodeSequencer.postStall ms |}).
      assert (Hlen1 : (length (MicrocodeSequencer.uopQueue ms1) <= k)%nat).
      { subst ms1. cbn [MicrocodeSequencer.uopQueue].
        rewrite <- Ed, length_drop. lia. }
      assert (Hs1 : MicrocodeSequencer.stalled ms1 = 0) by done.
      destruct (IH ms1 Hlen1 Hs1) as (Hc & Hl & Hf & Hq1 & Hp & Hst).
      change (MicrocodeSequencer.uopQueue ms1) with (u' :: q') in *.
      destruct (MicrocodeSequencer.cycles
                  ((length (u' :: q') + 3) / 4) ms1) as [outs ms2].
      cbn [fst snd concat length] in *.
      rewrite Hc, <- Ed, take_drop. repeat split; auto.
      * constructor; [|done]. rewrite length_take. lia.
Qed.

Lemma MS_cycles_stalled (s m : nat) (ms : MicrocodeSequencer.t) :
  MicrocodeSequencer.stalled ms = Z.of_nat s ->
  MicrocodeSequencer.cycles (s + m) ms
  = let r := MicrocodeSequencer.cycles m
               {| MicrocodeSequencer.uopQueue := MicrocodeSequencer.uopQueue ms;
                  MicrocodeSequencer.stalled := 0;
                  MicrocodeSequencer.postStall :=
                    MicrocodeSequencer.postStall ms |} in
    (replicate s [] ++ r.1, r.2).
Proof.
  revert ms. induction s as [|s IH]; intros ms Hs.
  - simpl. destruct ms as [q st p]. simpl in Hs. subst st.
    by destruct (MicrocodeSequencer.cycles m _).
  - cbn [Nat.add MicrocodeSequencer.cycles].
    rewrite MS_cycle_stalled by lia.
    rewrite IH by (simpl; lia). simpl.
    by destruct (MicrocodeSequencer.cycles m _).
Qed.

(** X16. A microcode sequencer that is stalled for [s] more cycles and holds
    the queue [q] delivers nothing in its next [s] calls of [cycle] and then
    the whole queue in order, between one and four laminated uops per call;
    after these [s + ceil(len(q)/4)] calls the queue is empty, and if there
    was something to deliver the sequencer is stalled for [postStall]
    cycles.  [addUops] puts the new uops, marked ['MS'], behind the ones that
    are queued. *)
Theorem MS_cycle_delivers_in_order (ms : MicrocodeSequencer.t) :
  0 <= MicrocodeSequencer.stalled ms ->
  let s := Z.to_nat (MicrocodeSequencer.stalled ms) in
  let q := MicrocodeSequencer.uopQueue ms in
  let r := MicrocodeSequencer.cycles (s + (length q + 3) / 4) ms in
  take s r.1 = replicate s []
  /\ Forall (fun uops => 0 < length uops <= 4)%nat (drop s r.1)
  /\ concat r.1 = q
  /\ MicrocodeSequencer.uopQueue r.2 = []
  /\ (q <> [] -> MicrocodeSequencer.stalled r.2 = MicrocodeSequencer.postStall ms)
  /\ (forall dcfg uops prevUopSource,
        MicrocodeSequencer.uopQueue
          (MicrocodeSequencer.addUops dcfg uops prevUopSource ms)
        = q ++ (set_uopSource "MS" <$> uops)).
Proof.
  intros Hs s q r.
  assert (Hr : r = MicrocodeSequencer.cycles (s + (length q + 3) / 4) ms) by done.
  rewrite (MS_cycles_stalled s _ ms) in Hr by (subst s; lia).
  set (ms0 := {| MicrocodeSequencer.uopQueue := MicrocodeSequencer.uopQueue ms;
                 MicrocodeSequencer.stalled := 0 |}) in Hr.
  destruct (MS_cycles_ready (length q) ms0) as (Hc & Hl & Hf & Hq & Hp & Hst);
    [done|done|].
  change (MicrocodeSequencer.uopQueue ms0) with q in *.
  cbv zeta in Hr.
  destruct (MicrocodeSequencer.cycles ((length q + 3) / 4) ms0) as [outs ms1].
  simpl in *. clearbody r. subst r. simpl.
  repeat split.
  - by rewrite take_app_length' by (by rewrite length_replicate).
  - by rewrite drop_app_length' by (by rewrite length_replicate).
  - rewrite concat_app, Hc.
    assert (concat (replicate s (@nil LaminatedUop)) = []) as ->; [|done].
    clear. induction s; simpl; auto.
  - done.
  - done.
  - intros dcfg uops prevUopSource. unfold MicrocodeSequencer.addUops.
    by repeat case_match.
Qed.
(** ** The decoders *)

Lemma decodedInstrs_fused (i : InstrInstance) (taken : list InstrInstance) :
  macroFusedWithPrevInstr (ii_instr i) = true ->
  Decoder.decodedInstrs (i :: taken) = Decoder.decodedInstrs taken.
Proof.
  intros H. unfold Decoder.decodedInstrs.
  rewrite filter_cons_False; [done|]. by rewrite H.
Qed.

Lemma decodedInstrs_own (i : InstrInstance) (taken : list InstrInstance) :
  macroFusedWithPrevInstr (ii_instr i) = false ->
  Decoder.decodedInstrs (i :: taken) = i :: Decoder.decodedInstrs taken.
Proof.
  intros H. unfold Decoder.decodedInstrs. by rewrite filter_cons_True.
Qed.

Lemma entries_nonempty (clock : Z) (i : InstrInstance) :
  ii_uops i <> [] -> 0 <= uopsMITE (ii_instr i) ->
  Decoder.entries clock i <> [].
Proof.
  intros Hu Hk. unfold Decoder.entries.
  destruct (Z.eqb_spec (uopsMITE (ii_instr i)) 0) as [|Hne]; [done|].
  cbn [negb]. unfold slice_to, sliceIndex.
  destruct (Z.ltb_spec (uopsMITE (ii_instr i)) 0) as [|_]; [lia|].
  destruct (ii_uops i) as [|u us]; [done|].
  destruct (Z.to_nat (uopsMITE (ii_instr i))) as [|k] eqn:Ek; [lia|].
  done.
Qed.

Lemma notYetDecodable_false (dcfg : DecoderConfig) (clock : Z)
    (i : InstrInstance) :
  Decoder.notYetDecodable dcfg clock i = Some false ->
  exists p, predecoded i = Some p /\ p + predecodeDecodeDelay dcfg <= clock.
Proof.
  unfold Decoder.notYetDecodable. destruct (predecoded i) as [p|]; [|done].
  intros [= H]. exists p. split; [done|].
  rewrite Z.gtb_ltb in H. by apply Z.ltb_ge in H.
Qed.

Lemma mustWaitForFusion_false (dcfg : DecoderConfig) (clock : Z)
    (instr : Instr) (rest : list InstrInstance) (nD : Z) :
  Decoder.mustWaitForFusion dcfg clock instr rest nD = Some false ->
  macroFusibleInstrCanBeDecodedAsLastInstr dcfg = false ->
  macroFusibleWith instr <> [] ->
  nD <> nDecoders dcfg - 1.
Proof.
  unfold Decoder.mustWaitForFusion. intros H Hlast Hf. rewrite Hlast in H.
  destruct (macroFusibleWith instr); [done|]. cbn in H.
  destruct (Z.eqb_spec nD (nDecoders dcfg - 1)); [done|done].
Qed.

Lemma decodeLoop_spec (dcfg : DecoderConfig) (clock : Z)
    (q : list InstrInstance) :
  forall ul rm nD rem ms r,
    Decoder.decodeLoop dcfg clock q ul rm nD rem ms = Some r ->
    exists taken,
      let d := Decoder.decodedInstrs taken in
      q = taken ++ Decoder.dec_instructionQueue r
      /\ Decoder.removed r = rm ++ (Decoder.leave clock <$> taken)
      /\ Decoder.uopsList r = ul ++ concat (Decoder.entries clock <$> d)
      /\ Z.of_nat (length d) <= Z.max rem 1
      /\ Forall (fun i => exists p, predecoded i = Some p
                           /\ p + predecodeDecodeDelay dcfg <= clock) d
      /\ Decoder.dec_MS r
         = match last d with
           | Some i =>
             if negb (uopsMS (ii_instr i) =? 0)
             then MicrocodeSequencer.addUops dcfg
                    (slice_from (ii_uops i) (uopsMITE (ii_instr i))) "MITE" ms
             else ms
           | None => ms
           end
      /\ (forall j i, d !! j = Some i -> (S j < length d)%nat ->
            uopsMS (ii_instr i) = 0
            /\ isBranchInstr (ii_instr i) = false
            /\ macroFusedWithNextInstr (ii_instr i) = false)
      /\ (forall i n, d !! 0%nat = Some i ->
            complexDecoder (ii_instr i) = true ->
            nAvailableSimpleDecoders (ii_instr i) = Some n ->
            Z.of_nat (length d) <= Z.max (n + 1) 1)
      /\ (macroFusibleInstrCanBeDecodedAsLastInstr dcfg = false ->
          forall j i, d !! j = Some i ->
            macroFusibleWith (ii_instr i) <> [] ->
            nD + Z.of_nat j <> nDecoders dcfg - 1)
      /\ (Forall (fun i => ii_uops i <> [] /\ 0 <= uopsMITE (ii_instr i)) q ->
          forall j i, d !! j = Some i ->
            complexDecoder (ii_instr i) = true -> j = 0%nat /\ ul = []).
Proof.
  assert (Hstop : forall q ul rm nD rem ms r,
    Some {| Decoder.uopsList := ul; Decoder.removed := rm;
            Decoder.dec_instructionQueue := q; Decoder.dec_MS := ms |}
    = Some r ->
    exists taken,
      let d := Decoder.decodedInstrs taken in
      q = taken ++ Decoder.dec_instructionQueue r
      /\ Decoder.removed r = rm ++ (Decoder.leave clock <$> taken)
      /\ Decoder.uopsList r = ul ++ concat (Decoder.entries clock <$> d)
      /\ Z.of_nat (length d) <= Z.max rem 1
      /\ Forall (fun i => exists p, predecoded i = Some p
                           /\ p + predecodeDecodeDelay dcfg <= clock) d
      /\ Decoder.dec_MS r
         = match last d with
           | Some i =>
             if negb (uopsMS (ii_instr i) =? 0)
             then MicrocodeSequencer.addUops dcfg
                    (slice_from (ii_uops i) (uopsMITE (ii_instr i))) "MITE" ms
             else ms
           | None => ms
           end
      /\ (forall j i, d !! j = Some i -> (S j < length d)%nat ->
            uopsMS (ii_instr i) = 0
            /\ isBranchInstr (ii_instr i) = false
            /\ macroFusedWithNextInstr (ii_instr i) = false)
      /\ (forall i n, d !! 0%nat = Some i ->
            complexDecoder (ii_instr i) = true ->
            nAvailableSimpleDecoders (ii_instr i) = Some n ->
            Z.of_nat (length d) <= Z.max (n + 1) 1)
      /\ (macroFusibleInstrCanBeDecodedAsLastInstr dcfg = false ->
          forall j i, d !! j = Some i ->
            macroFusibleWith (ii_instr i) <> [] ->
            nD + Z.of_nat j <> nDecoders dcfg - 1)
      /\ (Forall (fun i => ii_uops i <> [] /\ 0 <= uopsMITE (ii_instr i)) q ->
          forall j i, d !! j = Some i ->
            complexDecoder (ii_instr i) = true -> j = 0%nat /\ ul = [])).
  { intros q0 ul rm nD rem ms r [= <-]. exists []. cbn.
    rewrite !app_nil_r. repeat split; try done; lia. }
  induction q as [|i rest IH]; intros ul rm nD rem ms r Hrun.
  { by eapply Hstop. }
  cbn [Decoder.decodeLoop] in Hrun.
  destruct (macroFusedWithPrevInstr (ii_instr i)) eqn:Hprev.
  { apply IH in Hrun as (taken & Hq & Hrm & Hul & Hlen & Hready & Hms & Hlast
                         & Hcomplex & Hfus & Hfirst).
    exists (i :: taken). cbv zeta in *.
    rewrite (decodedInstrs_fused i taken Hprev).
    split; [by rewrite Hq at 1|].
    split. { rewrite Hrm, <- app_assoc. rewrite fmap_cons.
             unfold Decoder.leave at 2. by rewrite Hprev. }
    do 7 (split; [assumption|]).
    intros Hall. apply Hfirst. by inversion Hall. }
  destruct (Decoder.notYetDecodable dcfg clock i) as [[|]|] eqn:Hnot;
    [by eapply Hstop| |done].
  destruct (nonempty ul && complexDecoder (ii_instr i)) eqn:Hcx;
    [by eapply Hstop|].
  destruct (Decoder.mustWaitForFusion dcfg clock (ii_instr i) rest nD)
    as [[|]|] eqn:Hwait; [by eapply Hstop| |done].
  apply notYetDecodable_false in Hnot.
  assert (Hone : Decoder.decodedInstrs [i] = [i]).
  { by rewrite (decodedInstrs_own i [] Hprev). }
  assert (Hleave : Decoder.leave clock i = Decoder.decoded clock i).
  { unfold Decoder.leave. by rewrite Hprev. }
  assert (Hfirst0 : complexDecoder (ii_instr i) = true -> ul = []).
  { intros Hc. rewrite Hc, andb_true_r in Hcx. by destruct ul. }
  destruct (negb (uopsMS (ii_instr i) =? 0)) eqn:HMS.
  { injection Hrun as <-. exists [i]. cbv zeta. rewrite Hone.
    pose proof HMS as HMS'.
    split; [reflexivity|].
    split; [simpl; by rewrite Hleave|].
    split; [simpl; by rewrite app_nil_r|].
    split; [simpl; lia|].
    split; [constructor; [exact Hnot|constructor]|].
    split; [simpl; by rewrite HMS'|].
    split; [intros j i0 _ Hlt; simpl in Hlt; lia|].
    split; [intros; simpl; lia|].
    split.
    { intros Hcan j i0 Hj Hf. destruct j; [|done]. injection Hj as <-.
      rewrite Z.add_0_r. by eapply mustWaitForFusion_false. }
    intros _ j i0 Hj Hc. destruct j; [|done]. injection Hj as <-. auto. }
  apply negb_false_iff, Z.eqb_eq in HMS.
  destruct (if complexDecoder (ii_instr i)
            then match nAvailableSimpleDecoders (ii_instr i) with
                 | Some n => Some (Z.min (rem - 1) n)
                 | None => None
                 end
            else Some (rem - 1)) as [rem'|] eqn:Hslots; [|done].
  assert (Hrem' : rem' <= rem - 1
                  /\ forall n, complexDecoder (ii_instr i) = true ->
                       nAvailableSimpleDecoders (ii_instr i) = Some n ->
                       rem' <= n).
  { destruct (complexDecoder (ii_instr i)).
    - destruct (nAvailableSimpleDecoders (ii_instr i)) as [n|]; [|done].
      injection Hslots as <-. split; [lia|]. intros n' _ [= <-]. lia.
    - injection Hslots as <-. split; [lia|]. done. }
  destruct Hrem' as [Hrem1 Hrem2].
  destruct ((rem' <=? 0) || isBranchInstr (ii_instr i)
            || macroFusedWithNextInstr (ii_instr i)) eqn:Hbreak.
  { injection Hrun as <-. exists [i]. cbv zeta. rewrite Hone.
    assert (HMS' : negb (uopsMS (ii_instr i) =? 0) = false).
    { apply negb_false_iff. by apply Z.eqb_eq. }
    split; [reflexivity|].
    split; [simpl; by rewrite Hleave|].
    split; [simpl; by rewrite app_nil_r|].
    split; [simpl; lia|].
    split; [constructor; [exact Hnot|constructor]|].
    split; [simpl; by rewrite HMS'|].
    split; [intros j i0 _ Hlt; simpl in Hlt; lia|].
    split; [intros; simpl; lia|].
    split.
    { intros Hcan j i0 Hj Hf. destruct j; [|done]. injection Hj as <-.
      rewrite Z.add_0_r. by eapply mustWaitForFusion_false. }
    intros _ j i0 Hj Hc. destruct j; [|done]. injection Hj as <-. auto. }
  apply orb_false_iff in Hbreak as [Hbreak Hnext].
  apply orb_false_iff in Hbreak as [Hpos Hbranch].
  apply Z.leb_gt in Hpos.
  apply IH in Hrun as (taken & Hq & Hrm & Hul & Hlen & Hready & Hms & Hlast
                       & Hcomplex & Hfus & Hfirst).
  exists (i :: taken). cbv zeta in *.
  rewrite (decodedInstrs_own i taken Hprev).
  set (d := Decoder.decodedInstrs taken) in *.
  split; [by rewrite Hq at 1|].
  split. { rewrite Hrm, <- app_assoc. cbn. by rewrite Hleave. }
  split. { rewrite Hul, <- app_assoc. by rewrite fmap_cons. }
  split. { cbn [length]. lia. }
  split. { by constructor. }
  split.
  { rewrite Hms. destruct d as [|i' d'] eqn:Hd.
    - cbn. by rewrite HMS.
    - by rewrite last_cons_cons. }
  split.
  { intros j i0 Hj Hlt. destruct j as [|j].
    - injection Hj as <-. done.
    - cbn in Hj, Hlt. apply (Hlast j i0 Hj). lia. }
  split.
  { intros i0 n [= <-] Hc Hn. specialize (Hrem2 n Hc Hn).
    cbn [length]. lia. }
  split.
  { intros Hcan j i0 Hj Hf. destruct j as [|j].
    - injection Hj as <-. rewrite Z.add_0_r.
      by eapply mustWaitForFusion_false.
    - cbn in Hj. specialize (Hfus Hcan j i0 Hj Hf). lia. }
  intros Hall j i0 Hj Hc. inversion Hall as [|? ? [Hu Hk] Hall']; subst.
  destruct j as [|j].
  - injection Hj as <-. auto.
  - cbn in Hj. destruct (Hfirst Hall' j i0 Hj Hc) as [_ Hnil].
    apply app_eq_nil in Hnil as [_ Hnil].
    by apply entries_nonempty in Hnil.
Qed.
Lemma MS_cycle_delivers_in_order_witness :
  0 <= MicrocodeSequencer.stalled sampleMS
  /\ length <$> (MicrocodeSequencer.cycles 3 sampleMS).1 = [0; 4; 1]%nat
  /\ concat (MicrocodeSequencer.cycles 3 sampleMS).1
     = MicrocodeSequencer.uopQueue sampleMS.
Proof.
  split; [vm_compute; discriminate|].
  split; [vm_compute; reflexivity|].
  destruct (MS_cycle_delivers_in_order sampleMS
              ltac:(vm_compute; discriminate)) as (_ & _ & Hc & _).
  exact Hc.
Defined.

Lemma decodeLoop_returns (dcfg : DecoderConfig) (clock : Z)
    (q : list InstrInstance) :
  Forall (fun i => is_Some (predecoded i)
                   /\ (complexDecoder (ii_instr i) = true ->
                       is_Some (nAvailableSimpleDecoders (ii_instr i)))) q ->
  forall ul rm nD rem ms,
    is_Some (Decoder.decodeLoop dcfg clock q ul rm nD rem ms).
Proof.
  induction 1 as [|i rest [[p Hp] Hn] Hall IH]; intros ul rm nD rem ms.
  { done. }
  cbn [Decoder.decodeLoop].
  destruct (macroFusedWithPrevInstr (ii_instr i)); [apply IH|].
  unfold Decoder.notYetDecodable at 1. rewrite Hp.
  destruct (p + predecodeDecodeDelay dcfg >? clock); [done|].
  destruct (nonempty ul && complexDecoder (ii_instr i)); [done|].
  assert (Hw : is_Some (Decoder.mustWaitForFusion dcfg clock (ii_instr i)
                          rest nD)).
  { unfold Decoder.mustWaitForFusion.
    destruct (nonempty (macroFusibleWith (ii_instr i))
              && negb (macroFusibleInstrCanBeDecodedAsLastInstr dcfg));
      [|done].
    destruct (nD =? nDecoders dcfg - 1); [done|].
    destruct Hall as [|i' rest' [[p' Hp'] _] _]; [done|].
    unfold Decoder.notYetDecodable. by rewrite Hp'. }
  destruct Hw as [w ->]. destruct w; [done|].
  destruct (negb (uopsMS (ii_instr i) =? 0)); [done|].
  destruct (complexDecoder (ii_instr i)).
  - destruct Hn as [n ->]; [done|].
    destruct ((Z.min (rem - 1) n <=? 0) || isBranchInstr (ii_instr i)
              || macroFusedWithNextInstr (ii_instr i)); [done|apply IH].
  - destruct ((rem - 1 <=? 0) || isBranchInstr (ii_instr i)
              || macroFusedWithNextInstr (ii_instr i)); [done|apply IH].
Qed.

(** X17. [Decoder.cycle] returns whenever every instruction in the queue was
    predecoded and every complex one knows its number of simple decoders.
    When it returns it has taken a prefix of the instruction queue and
    stamped each taken instance with [removedFromIQ]; not counting the second
    halves of macro-fused pairs, it decodes at most [max(nDecoders, 1)]
    instructions in a call, each of them predecoded at least
    [predecodeDecodeDelay] cycles ago, and the list it returns consists of
    their entries, in the order of the queue. *)
Theorem Decoder_cycle_takes_prefix (dcfg : DecoderConfig) (clock : Z)
    (instructionQueue : list InstrInstance) (MS : MicrocodeSequencer.t) :
  (Forall (fun i => is_Some (predecoded i)
                    /\ (complexDecoder (ii_instr i) = true ->
                        is_Some (nAvailableSimpleDecoders (ii_instr i))))
          instructionQueue ->
   is_Some (Decoder.cycle dcfg clock instructionQueue MS))
  /\ forall r,
       Decoder.cycle dcfg clock instructionQueue MS = Some r ->
       exists taken,
         let d := Decoder.decodedInstrs taken in
         instructionQueue = taken ++ Decoder.dec_instructionQueue r
         /\ Decoder.removed r = Decoder.leave clock <$> taken
         /\ Forall (fun i => removedFromIQ i = Some clock) (Decoder.removed r)
         /\ Decoder.uopsList r = concat (Decoder.entries clock <$> d)
         /\ Z.of_nat (length d) <= Z.max (nDecoders dcfg) 1
         /\ Forall (fun i => exists p, predecoded i = Some p
                              /\ p + predecodeDecodeDelay dcfg <= clock) d.
Proof.
  split.
  { intros Hall. by apply decodeLoop_returns. }
  intros r Hrun. unfold Decoder.cycle in Hrun.
  apply decodeLoop_spec in Hrun
    as (taken & Hq & Hrm & Hul & Hlen & Hready & _).
  exists taken. cbv zeta. rewrite app_nil_l in Hrm, Hul.
  repeat split; try assumption.
  rewrite Hrm. apply Forall_fmap, Forall_forall. intros i _.
  unfold Decoder.leave. simpl. by destruct (macroFusedWithPrevInstr _).
Qed.

Lemma Decoder_cycle_takes_prefix_witness :
  exists r,
    Decoder.cycle sampleDecoderConfig 3 sampleIQ MicrocodeSequencer.init
    = Some r
    /\ length (Decoder.dec_instructionQueue r) = 2%nat
    /\ exists taken,
         sampleIQ = taken ++ Decoder.dec_instructionQueue r
         /\ Z.of_nat (length (Decoder.decodedInstrs taken)) <= 4.
Proof.
  eexists. split; [vm_compute; reflexivity|].
  split; [vm_compute; reflexivity|].
  destruct (proj2 (Decoder_cycle_takes_prefix sampleDecoderConfig 3 sampleIQ
                     MicrocodeSequencer.init) _
              ltac:(vm_compute; reflexivity))
    as (taken & H1 & _ & _ & _ & H4 & _).
  exists taken. split; [exact H1|exact H4].
Defined.

(** X18. The rules of a decode group.  Of the instructions that one call of
    [Decoder.cycle] decodes, only the first can need the complex decoder
    (given that every instruction has laminated uops and a non-negative
    [uopsMITE]); only the last can have microcode uops, be a branch or be
    macro-fused with its successor; after a complex first instruction at most
    [nAvailableSimpleDecoders] more are decoded; where a macro-fusible
    instruction cannot go to the last decoder, none is decoded as number
    [nDecoders]; and the microcode sequencer is left as it was unless the
    last instruction has microcode uops, which are then queued with
    [addUops(instrI.uops[uopsMITE:], 'MITE')]. *)
Theorem Decoder_cycle_group_rules (dcfg : DecoderConfig) (clock : Z)
    (instructionQueue : list InstrInstance) (MS : MicrocodeSequencer.t)
    (r : Decoder.Decoded) :
  Decoder.cycle dcfg clock instructionQueue MS = Some r ->
  exists taken,
    let d := Decoder.decodedInstrs taken in
    instructionQueue = taken ++ Decoder.dec_instructionQueue r
    /\ (Forall (fun i => ii_uops i <> [] /\ 0 <= uopsMITE (ii_instr i))
               instructionQueue ->
        forall j i, d !! j = Some i ->
          complexDecoder (ii_instr i) = true -> j = 0%nat)
    /\ (forall j i, d !! j = Some i -> (S j < length d)%nat ->
          uopsMS (ii_instr i) = 0
          /\ isBranchInstr (ii_instr i) = false
          /\ macroFusedWithNextInstr (ii_instr i) = false)
    /\ (forall i n, d !! 0%nat = Some i ->
          complexDecoder (ii_instr i) = true ->
          nAvailableSimpleDecoders (ii_instr i) = Some n ->
          Z.of_nat (length d) <= Z.max (n + 1) 1)
    /\ (macroFusibleInstrCanBeDecodedAsLastInstr dcfg = false ->
        forall j i, d !! j = Some i ->
          macroFusibleWith (ii_instr i) <> [] ->
          Z.of_nat j <> nDecoders dcfg - 1)
    /\ Decoder.dec_MS r
       = match last d with
         | Some i =>
           if negb (uopsMS (ii_instr i) =? 0)
           then MicrocodeSequencer.addUops dcfg
                  (slice_from (ii_uops i) (uopsMITE (ii_instr i))) "MITE" MS
           else MS
         | None => MS
         end.
Proof.
  intros Hrun. unfold Decoder.cycle in Hrun.
  apply decodeLoop_spec in Hrun
    as (taken & Hq & _ & _ & _ & _ & Hms & Hlast & Hcomplex & Hfus & Hfirst).
  exists taken. cbv zeta.
  split; [exact Hq|].
  split. { intros Hall j i Hj Hc. by destruct (Hfirst Hall j i Hj Hc). }
  split; [exact Hlast|].
  split; [exact Hcomplex|].
  split; [|exact Hms].
  intros Hcan j i Hj Hf. specialize (Hfus Hcan j i Hj Hf). lia.
Qed.

Lemma Decoder_cycle_group_rules_witness :
  exists r,
    Decoder.cycle sampleDecoderConfig 3 sampleMicrocodedIQ
      MicrocodeSequencer.init = Some r
    /\ Decoder.dec_instructionQueue r = [samplePredecoded 2]
    /\ length (MicrocodeSequencer.uopQueue (Decoder.dec_MS r)) = 2%nat
    /\ exists taken,
         sampleMicrocodedIQ = taken ++ Decoder.dec_instructionQueue r
         /\ Decoder.dec_MS r
            = match last (Decoder.decodedInstrs taken) with
              | Some i =>
                if negb (uopsMS (ii_instr i) =? 0)
                then MicrocodeSequencer.addUops sampleDecoderConfig
                       (slice_from (ii_uops i) (uopsMITE (ii_instr i)))
                       "MITE" MicrocodeSequencer.init
                else MicrocodeSequencer.init
              | None => MicrocodeSequencer.init
              end.
Proof.
  eexists. split; [vm_compute; reflexivity|].
  split; [vm_compute; reflexivity|].
  split; [vm_compute; reflexivity|].
  destruct (Decoder_cycle_group_rules sampleDecoderConfig 3
              sampleMicrocodedIQ MicrocodeSequencer.init _
              ltac:(vm_compute; reflexivity))
    as (taken & H1 & _ & _ & _ & _ & H6).
  exists taken. split; [exact H1|exact H6].
Defined.

(** ** [computeUopProperties]: the store uops *)

Lemma balanceStores_fuel (fuel : nat) (pcs : PortCombinations) :
  (length (storeDataPcs pcs) - length (storeAddressPcs pcs) <= fuel)%nat ->
  let m := (length (storeDataPcs pcs) - length (storeAddressPcs pcs))%nat in
  let k := (length (loadPcs pcs) - m)%nat in
  balanceStores fuel pcs
  = {| loadPcs := take k (loadPcs pcs);
       storeAddressPcs := storeAddressPcs pcs ++ reverse (drop k (loadPcs pcs));
       storeDataPcs :=
         take (length (storeAddressPcs pcs) + length (loadPcs pcs))
              (storeDataPcs pcs);
       nonMemPcs := nonMemPcs pcs |}.
Proof.
  revert pcs. induction fuel as [|fuel IH]; intros pcs Hfuel m k;
    destruct pcs as [loads addr data nonMem];
    cbn [loadPcs storeAddressPcs storeDataPcs nonMemPcs] in *.
  - cbn [balanceStores]. subst k. replace m with 0%nat by lia.
    rewrite Nat.sub_0_r, take_ge, drop_ge, take_ge by lia.
    by rewrite app_nil_r.
  - cbn [balanceStores loadPcs storeAddressPcs storeDataPcs nonMemPcs].
    destruct (Nat.ltb_spec (length addr) (length data)) as [Hlt|Hge].
    + destruct (last loads) as [pc|] eqn:Hlast.
      * apply last_Some in Hlast as [loads' ->].
        rewrite removelast_last, IH
          by (cbn [storeAddressPcs storeDataPcs]; rewrite length_app;
              simpl; lia).
        cbn [loadPcs storeAddressPcs storeDataPcs nonMemPcs].
        subst k m. rewrite !length_app. cbn [length].
        replace (length loads' - (length data - (length addr + 1)))%nat
          with (length loads' + 1 - (length data - length addr))%nat by lia.
        set (k := (length loads' + 1 - (length data - length addr))%nat).
        assert (Hk : (k <= length loads')%nat) by (subst k; lia).
        rewrite (take_app_le loads' [pc] k Hk), (drop_app_le loads' [pc] k Hk).
        rewrite reverse_app, <- app_assoc. simpl.
        f_equal. f_equal. lia.
      * apply last_None in Hlast as ->.
        destruct (decide (data = [])) as [->|Hne]; [simpl in Hlt; lia|].
        destruct (exists_last Hne) as (data' & x & ->).
        rewrite removelast_last, IH
          by (cbn [storeAddressPcs storeDataPcs]; rewrite length_app in Hfuel;
              simpl in Hfuel; lia).
        cbn [loadPcs storeAddressPcs storeDataPcs nonMemPcs length].
        rewrite length_app in Hlt. simpl in Hlt.
        rewrite !take_nil, !drop_nil, Nat.add_0_r.
        by rewrite take_app_le by lia.
    + subst k. replace m with 0%nat by (subst m; lia).
      rewrite Nat.sub_0_r, take_ge, drop_ge, take_ge by lia.
      by rewrite app_nil_r.
Qed.

(** X19. The loop [while len(storeDataPcs) > len(storeAddressPcs)] of
    [computeUopProperties].  With [m] the number of store-data port
    combinations that lack a store-address partner, the loop moves the last
    [m] load port combinations (as many as there are), the last one first, to
    the end of [storeAddressPcs], and only then drops store-data port
    combinations from the end.  Afterwards no store-data port combination
    lacks a partner, and [zip(storeAddressPcs, storeDataPcs)] has
    [min(len(storeDataPcs), len(storeAddressPcs) + len(loadPcs))] pairs, with
    the lengths taken before the loop; [m] iterations are enough. *)
Theorem balanceStores_spec (pcs : PortCombinations) :
  let pcs' := balanceStores (length (storeDataPcs pcs)) pcs in
  let m := (length (storeDataPcs pcs) - length (storeAddressPcs pcs))%nat in
  let k := (length (loadPcs pcs) - m)%nat in
  loadPcs pcs' = take k (loadPcs pcs)
  /\ storeAddressPcs pcs'
     = storeAddressPcs pcs ++ reverse (drop k (loadPcs pcs))
  /\ storeDataPcs pcs'
     = take (length (storeAddressPcs pcs) + length (loadPcs pcs))
            (storeDataPcs pcs)
  /\ nonMemPcs pcs' = nonMemPcs pcs
  /\ (length (storeDataPcs pcs') <= length (storeAddressPcs pcs'))%nat
  /\ length (zip (storeAddressPcs pcs') (storeDataPcs pcs'))
     = (length (storeDataPcs pcs)
        `min` (length (storeAddressPcs pcs) + length (loadPcs pcs)))%nat
  /\ forall fuel, (m <= fuel)%nat -> balanceStores fuel pcs = pcs'.
Proof.
  intros pcs' m k.
  assert (Hpcs' : pcs' = balanceStores (length (storeDataPcs pcs)) pcs) by done.
  rewrite balanceStores_fuel in Hpcs' by lia. fold m k in Hpcs'.
  clearbody pcs'. subst pcs'.
  cbn [loadPcs storeAddressPcs storeDataPcs nonMemPcs].
  assert (Hlen : (length (take (length (storeAddressPcs pcs)
                                + length (loadPcs pcs)) (storeDataPcs pcs))
                  <= length (storeAddressPcs pcs
                             ++ reverse (drop k (loadPcs pcs))))%nat).
  { rewrite length_take, length_app, length_reverse, length_drop.
    subst k m. lia. }
  repeat split; try done.
  - rewrite length_zip_with, Nat.min_r by done.
    rewrite length_take. lia.
  - intros fuel Hfuel. by rewrite balanceStores_fuel by (fold m; lia).
Qed.

Lemma balanceStores_spec_witness :
  let pcs := classifyPorts [("23", 1); ("49", 2)]%string in
  length (loadPcs pcs) = 1%nat /\ length (storeDataPcs pcs) = 2%nat
  /\ length (zip (storeAddressPcs (balanceStores 2 pcs))
                 (storeDataPcs (balanceStores 2 pcs))) = 1%nat
  /\ balanceStores 5 pcs = balanceStores 2 pcs.
Proof.
  intros pcs.
  split; [vm_compute; reflexivity|]. split; [vm_compute; reflexivity|].
  destruct (balanceStores_spec pcs) as (_ & _ & _ & _ & _ & Hzip & Hfuel).
  split; [exact Hzip|]. apply Hfuel. vm_compute. lia.
Defined.
Lemma loadUops_memKind (instr : Instr) (hasNonMem : bool)
    (pcs : list (list Port)) :
  forall i next,
    memKind <$> (loadUops instr hasNonMem pcs i next).1.1
    = replicate (length pcs) (true, false, false).
Proof.
  induction pcs as [|pc rest IH]; intros i next; [done|].
  cbn [loadUops]. destruct hasNonMem.
  - specialize (IH (S i) (S next)).
    destruct (loadUops instr true rest (S i) (S next)) as [[ps pseudos] n'].
    cbn in *. by rewrite IH.
  - specialize (IH (S i) next).
    destruct (loadUops instr false rest (S i) next) as [[ps pseudos] n'].
    cbn in *. by rewrite IH.
Qed.

Lemma storeUops_memKind (instr : Instr) (hasNonMem : bool)
    (pcs : list (list Port * list Port)) :
  forall i next,
    memKind <$> (storeUops instr hasNonMem pcs i next).1.1
    = concat (replicate (length pcs)
                [(false, true, false); (false, false, true)]).
Proof.
  induction pcs as [|[stAPc stDPc] rest IH]; intros i next; [done|].
  cbn [storeUops]. destruct hasNonMem.
  - specialize (IH (S i) (S next)).
    destruct (storeUops instr true rest (S i) (S next)) as [[ps pseudos] n'].
    cbn in *. by rewrite IH.
  - specialize (IH (S i) next).
    destruct (storeUops instr false rest (S i) next) as [[ps pseudos] n'].
    cbn in *. by rewrite IH.
Qed.

Lemma otherNonMemUops_memKind (classes : gmap Z (list Operand))
    (ins : list Operand) (minLatLevel : Z) (pcs : list (list Port)) :
  forall levels next,
    let r := otherNonMemUops classes ins minLatLevel pcs levels next in
    Forall (fun p => memKind p = (false, false, false)) (r.1.1.1 ++ r.1.1.2)
    /\ (length r.1.1.1 + length r.1.1.2 = length pcs)%nat.
Proof.
  induction pcs as [|pc rest IH]; intros levels next; cbv zeta;
    [split; [constructor|done]|].
  cbn [otherNonMemUops]. destruct levels as [|latLevel levels'].
  - specialize (IH [] next). cbv zeta in IH.
    destruct (otherNonMemUops classes ins minLatLevel rest [] next)
      as [[[front back] pseudos] n'].
    cbn [fst snd length] in *. destruct IH as [IH1 IH2].
    apply Forall_app in IH1 as [IH1 IH3]. split; [|lia].
    apply Forall_app. split; [done|by constructor].
  - specialize (IH levels' (S next)). cbv zeta in IH.
    destruct (otherNonMemUops classes ins minLatLevel rest levels' (S next))
      as [[[front back] pseudos] n'].
    cbn [fst snd] in *. destruct IH as [IH1 IH2].
    apply Forall_app in IH1 as [IH1 IH3]. split.
    + rewrite !Forall_app. split; [split; [done|by repeat constructor]|done].
    + rewrite length_app. cbn [length]. lia.
Qed.

Lemma Forall_memKind (l : list UopProperties) (k : bool * bool * bool) :
  Forall (fun p => memKind p = k) l -> memKind <$> l = replicate (length l) k.
Proof.
  induction 1 as [|p l Hp _ IH]; [done|].
  rewrite fmap_cons, IH, Hp. done.
Qed.

Lemma nonMemUops_memKind (instr : Instr) (nonMem : list (list Port))
    (loadPseudoOps storePseudoOps : list Operand) (next : nat) :
  memKind <$> (nonMemUops instr nonMem loadPseudoOps storePseudoOps next).1
  = replicate (length nonMem) (false, false, false).
Proof.
  unfold nonMemUops. destruct nonMem as [|pc0 others]; [done|].
  destruct (isShiftLike instr (pc0 :: others)) eqn:Hshift.
  { unfold isShiftLike in Hshift.
    do 8 (apply andb_prop in Hshift as [Hshift _]).
    apply andb_prop in Hshift as [_ Hlen]. apply bool_decide_eq_true in Hlen.
    rewrite Hlen. reflexivity. }
  match goal with
  | |- context [merge_sort Z.le ?ks] => destruct (merge_sort Z.le ks) as [|l ls]
  end.
  - match goal with
    | |- context [otherNonMemUops ?c ?i ?m ?p ?lv ?n] =>
      pose proof (otherNonMemUops_memKind c i m p lv n) as [H1 H2];
      destruct (otherNonMemUops c i m p lv n) as [[[front back] pseudos] n']
    end.
    cbn [fst snd] in *. apply Forall_app in H1 as [H1 H3].
    rewrite (Forall_memKind _ (false, false, false)).
    + rewrite !length_app. cbn [length]. f_equal. lia.
    + rewrite !Forall_app. split; [done|]. split; [by repeat constructor|done].
  - match goal with
    | |- context [otherNonMemUops ?c ?i ?m ?p ?lv ?n] =>
      pose proof (otherNonMemUops_memKind c i m p lv n) as [H1 H2];
      destruct (otherNonMemUops c i m p lv n) as [[[front back] pseudos] n']
    end.
    cbn [fst snd] in *. apply Forall_app in H1 as [H1 H3].
    rewrite (Forall_memKind _ (false, false, false)).
    + rewrite !length_app. cbn [length]. f_equal. lia.
    + rewrite !Forall_app. split; [done|]. split; [by repeat constructor|done].
Qed.

Lemma length_concat_pairs {A : Type} (n : nat) (a b : A) :
  length (concat (replicate n [a; b])) = (2 * n)%nat.
Proof.
  induction n as [|n IH]; [done|].
  cbn [replicate concat]. rewrite length_app, IH. simpl. lia.
Qed.

Lemma uopPropertiesOf_memKind (instr : Instr) (next : nat) :
  let pcs := classifyPorts (portData instr) in
  let nLoads := (length (loadPcs pcs)
                 - (length (storeDataPcs pcs) - length (storeAddressPcs pcs)))%nat in
  let nStores := (length (storeDataPcs pcs)
                  `min` (length (storeAddressPcs pcs) + length (loadPcs pcs)))%nat in
  memKind <$> (uopPropertiesOf instr next).1
  = replicate nLoads (true, false, false)
    ++ replicate (length (nonMemPcs pcs)) (false, false, false)
    ++ concat (replicate nStores [(false, true, false); (false, false, true)]).
Proof.
  intros pcs nLoads nStores. unfold uopPropertiesOf. fold pcs.
  pose proof (balanceStores_fuel (length (storeDataPcs pcs)) pcs ltac:(lia))
    as Hb. cbv zeta in Hb.
  set (pcs' := balanceStores (length (storeDataPcs pcs)) pcs) in *.
  assert (HL : length (loadPcs pcs') = nLoads).
  { rewrite Hb. cbn [loadPcs]. rewrite length_take. subst nLoads. lia. }
  assert (HS : length (zip (storeAddressPcs pcs') (storeDataPcs pcs')) = nStores).
  { rewrite Hb. cbn [storeAddressPcs storeDataPcs].
    rewrite length_zip_with, length_take, length_app, length_reverse,
      length_drop. subst nStores. lia. }
  assert (HN : nonMemPcs pcs' = nonMemPcs pcs) by (by rewrite Hb).
  clearbody pcs'.
  match goal with
  | |- context [loadUops ?a ?b ?c ?d ?e] =>
    pose proof (loadUops_memKind a b c d e) as Hl;
    destruct (loadUops a b c d e) as [[loadUopProps loadPseudoOps] n1]
  end.
  match goal with
  | |- context [storeUops ?a ?b ?c ?d ?e] =>
    pose proof (storeUops_memKind a b c d e) as Hs;
    destruct (storeUops a b c d e) as [[storeUopProps storePseudoOps] n2]
  end.
  match goal with
  | |- context [nonMemUops ?a ?b ?c ?d ?e] =>
    pose proof (nonMemUops_memKind a b c d e) as Hn;
    destruct (nonMemUops a b c d e) as [nonMemUopProps n3]
  end.
  cbn [fst snd] in *.
  rewrite !fmap_app, Hl, Hs, Hn, HL, HS, HN. done.
Qed.

(** X20. The shape of [UopPropertiesList] after [computeUopProperties], read
    off the port data of the instruction.  With [L], [A], [D] and [N] the
    numbers of load, store-address, store-data and other port combinations in
    [portData], the list holds, in this order, [L - (D - A)] load uops (none
    if that is negative; no subtraction if [D <= A]), [N] uops that touch no
    memory, [min(D, A + L)] stores, each a store-address uop immediately
    followed by its store-data uop, and then portless uops up to
    [retireSlots] entries. *)
Theorem computeUopProperties_shape (instr instr' : Instr) (next next' : nat) :
  computeUopPropertiesOf instr next = Some (instr', next') ->
  let pcs := classifyPorts (portData instr) in
  let nLoads := (length (loadPcs pcs)
                 - (length (storeDataPcs pcs) - length (storeAddressPcs pcs)))%nat in
  let nOthers := length (nonMemPcs pcs) in
  let nStores := (length (storeDataPcs pcs)
                  `min` (length (storeAddressPcs pcs) + length (loadPcs pcs)))%nat in
  let nPadding :=
    Z.to_nat (retireSlots instr - Z.of_nat (nLoads + nOthers + 2 * nStores)) in
  memKind <$> UopPropertiesList instr'
  = replicate nLoads (true, false, false)
    ++ replicate nOthers (false, false, false)
    ++ concat (replicate nStores [(false, true, false); (false, false, true)])
    ++ replicate nPadding (false, false, false).
Proof.
  intros Hrun pcs nLoads nOthers nStores nPadding.
  apply computeUopPropertiesOf_spec in Hrun as (l & -> & _ & Hpad).
  cbn [UopPropertiesList set_UopPropertiesList].
  unfold paddedFrom in Hpad.
  assert (Hk : memKind <$> l = memKind <$> (clearFlags <$> l)).
  { rewrite <- list_fmap_compose. by apply list_fmap_ext. }
  rewrite Hk, Hpad, fmap_app, fmap_replicate.
  pose proof (uopPropertiesOf_memKind instr next) as Hbase. cbv zeta in Hbase.
  fold pcs nLoads nOthers nStores in Hbase.
  assert (Hlen : length (uopPropertiesOf instr next).1
                 = (nLoads + nOthers + 2 * nStores)%nat).
  { rewrite <- (length_fmap memKind), Hbase, !length_app, !length_replicate.
    rewrite length_concat_pairs. lia. }
  rewrite Hbase, Hlen, <- !app_assoc. reflexivity.
Qed.

Lemma computeUopProperties_shape_witness :
  exists instr' next',
    computeUopPropertiesOf samplePush3 0 = Some (instr', next')
    /\ memKind <$> UopPropertiesList instr'
       = [(false, true, false); (false, false, true); (false, false, false)].
Proof.
  eexists _, _. split; [vm_compute; reflexivity|].
  rewrite (computeUopProperties_shape samplePush3 _ 0%nat _
             ltac:(vm_compute; reflexivity)).
  vm_compute. reflexivity.
Defined.

(** ** [getInstructions]: the flags of macro-fusion *)

Lemma fusibleAt_app_lt (src ext : list Instr) (k : nat) :
  (S k < length src)%nat -> fusibleAt (src ++ ext) k = fusibleAt src k.
Proof.
  intros Hk. unfold fusibleAt. by rewrite !lookup_app_l by lia.
Qed.

Lemma fusibleAt_ge (src : list Instr) (k : nat) :
  (length src <= S k)%nat -> fusibleAt src k = false.
Proof.
  intros Hk. unfold fusibleAt.
  rewrite (lookup_ge_None_2 src (S k)) by lia. by destruct (src !! k).
Qed.

Lemma fusibleAt_snoc (src0 ext : list Instr) (p n : Instr) :
  fusibleAt ((src0 ++ [p]) ++ n :: ext) (length src0)
  = bool_decide (instrStr n ∈ macroFusibleWith p).
Proof.
  unfold fusibleAt.
  assert (H1 : ((src0 ++ [p]) ++ n :: ext) !! length src0 = Some p).
  { rewrite <- app_assoc. cbn [app]. by apply list_lookup_middle. }
  assert (H2 : ((src0 ++ [p]) ++ n :: ext) !! S (length src0) = Some n).
  { replace (S (length src0)) with (length (src0 ++ [p]))
      by (rewrite length_app; simpl; lia).
    by apply list_lookup_middle. }
  by rewrite H1, H2.
Qed.

Lemma fusionFlagsSet_snoc (src0 l0 : list Instr) (p prev prev' n n' : Instr)
    (b : bool) :
  fusionFlagsSet (src0 ++ [p]) (l0 ++ [prev]) ->
  b = bool_decide (instrStr n ∈ macroFusibleWith p) ->
  asm prev' = asm prev -> opcode prev' = opcode prev ->
  instrStr prev' = instrStr prev ->
  macroFusibleWith prev' = macroFusibleWith prev ->
  isFirstInstruction prev' = isFirstInstruction prev ->
  macroFusedWithPrevInstr prev' = macroFusedWithPrevInstr prev ->
  macroFusedWithNextInstr prev' = b ->
  asm n' = asm n -> opcode n' = opcode n -> instrStr n' = instrStr n ->
  macroFusibleWith n' = macroFusibleWith n ->
  isFirstInstruction n' = false ->
  macroFusedWithNextInstr n' = false ->
  macroFusedWithPrevInstr n' = b ->
  fusionFlagsSet ((src0 ++ [p]) ++ [n]) (l0 ++ [prev'; n']).
Proof.
  intros [Hlen Hinv] Hb Ha Ho Hs Hm Hf Hp Hn Ha' Ho' Hs' Hm' Hf' Hn' Hp'.
  rewrite !length_app in Hlen. simpl in Hlen.
  assert (Hl0 : length l0 = length src0) by lia.
  split. { rewrite !length_app. simpl. lia. }
  intros k instr Hk.
  destruct (lt_eq_lt_dec k (length l0)) as [[Hlt|Heq]|Hgt].
  - rewrite lookup_app_l in Hk by done.
    destruct (Hinv k instr) as (c & Hc & H1 & H2 & H3 & H4 & H5 & H6 & H7).
    { by rewrite lookup_app_l. }
    exists c. rewrite lookup_app_l by (rewrite length_app; simpl; lia).
    rewrite fusibleAt_app_lt by (rewrite length_app; simpl; lia).
    repeat (split; [done|]).
    destruct k as [|k']; [done|].
    by rewrite fusibleAt_app_lt by (rewrite length_app; simpl; lia).
  - subst k. rewrite list_lookup_middle in Hk by done. injection Hk as <-.
    destruct (Hinv (length l0) prev) as (c & Hc & H1 & H2 & H3 & H4 & H5 & H6 & H7).
    { by rewrite list_lookup_middle. }
    rewrite Hl0, list_lookup_middle in Hc by done. injection Hc as <-.
    exists p. rewrite Hl0.
    split. { rewrite lookup_app_l by (rewrite length_app; simpl; lia).
             by rewrite list_lookup_middle. }
    rewrite fusibleAt_snoc, Ha, Ho, Hs, Hm, Hf, Hp, Hn, <- Hb.
    rewrite Hl0 in H5, H7.
    repeat (split; [done|]).
    rewrite H7. destruct (length src0) as [|k'] eqn:Ek; [done|].
    by rewrite (fusibleAt_app_lt (src0 ++ [p]) [n])
      by (rewrite length_app; simpl; lia).
  - destruct (decide (k = S (length l0))) as [->|Hne].
    + change (l0 ++ [prev'; n']) with (l0 ++ [prev'] ++ [n']) in Hk.
      rewrite app_assoc in Hk.
      rewrite (list_lookup_middle (l0 ++ [prev']) [] n') in Hk
        by (rewrite length_app; simpl; lia).
      injection Hk as <-. exists n.
      split. { apply list_lookup_middle. rewrite length_app. simpl. lia. }
      rewrite Ha', Ho', Hs', Hm', Hf', Hn', Hp'.
      rewrite fusibleAt_ge by (rewrite !length_app; simpl; lia).
      rewrite Hl0, fusibleAt_snoc, <- Hb. done.
    + apply lookup_lt_Some in Hk. rewrite length_app in Hk. simpl in Hk. lia.
Qed.

Lemma addInstruction_step (src l l' : list Instr) (n : Instr) :
  fusionFlagsSet src l -> freshInstr n ->
  addInstruction l n = Some l' ->
  fusionFlagsSet (src ++ [n]) l'.
Proof.
  intros Hinv (Hn1 & Hn2 & Hn3) Hrun. unfold addInstruction in Hrun.
  destruct (last l) as [prev|] eqn:Hlast.
  - apply last_Some in Hlast as [l0 ->].
    pose proof Hinv as [Hlen Hlook].
    rewrite length_app in Hlen. simpl in Hlen.
    destruct (decide (src = [])) as [->|Hne]; [simpl in Hlen; lia|].
    destruct (exists_last Hne) as (src0 & p & ->).
    rewrite length_app in Hlen. simpl in Hlen.
    destruct (Hlook (length l0) prev) as (c & Hc & H1 & H2 & H3 & H4 & H5 & H6 & H7).
    { by rewrite list_lookup_middle. }
    rewrite list_lookup_middle in Hc by lia. injection Hc as <-.
    assert (H6' : macroFusedWithNextInstr prev = false).
    { rewrite H6. apply fusibleAt_ge. rewrite length_app. simpl. lia. }
    destruct (bool_decide (instrStr n ∈ macroFusibleWith prev)) eqn:Hfus.
    + destruct (portData n) as [|[instrPorts u] ports]; [done|].
      injection Hrun as <-. rewrite removelast_last.
      eapply (fusionFlagsSet_snoc src0 l0 p prev _ n _ true); try done.
      * by rewrite <- H4, Hfus.
      * unfold fuseWithNext. by destruct (instr_uops prev =? 0).
      * unfold fuseWithNext. by destruct (instr_uops prev =? 0).
      * unfold fuseWithNext. by destruct (instr_uops prev =? 0).
      * unfold fuseWithNext. by destruct (instr_uops prev =? 0).
      * unfold fuseWithNext. by destruct (instr_uops prev =? 0).
      * unfold fuseWithNext. by destruct (instr_uops prev =? 0).
      * unfold fuseWithNext. by destruct (instr_uops prev =? 0).
    + injection Hrun as <-. rewrite <- (app_assoc l0 [prev] [n]).
      eapply (fusionFlagsSet_snoc src0 l0 p prev prev n n false); try done.
      by rewrite <- H4, Hfus.
  - apply last_None in Hlast as ->. injection Hrun as <-.
    destruct Hinv as [Hlen _]. destruct src; [|done].
    split; [done|]. intros k instr Hk.
    destruct k as [|k]; [|done]. injection Hk as <-.
    exists n. simpl. unfold fusibleAt. simpl. by rewrite Hn1, Hn2.
Qed.

Lemma addInstructions_from (rest : list Instr) :
  forall src l,
    fusionFlagsSet src l -> Forall freshInstr rest ->
    (forall l', foldlO addInstruction rest l = Some l' ->
                fusionFlagsSet (src ++ rest) l')
    /\ ((forall k c, fusibleAt (src ++ rest) k = true ->
                     (src ++ rest) !! S k = Some c -> portData c <> []) ->
        is_Some (foldlO addInstruction rest l)).
Proof.
  induction rest as [|n rest IH]; intros src l Hinv Hfresh.
  { rewrite app_nil_r. split; [by intros l' [= <-]|done]. }
  inversion Hfresh as [|? ? Hn Hfresh']; subst.
  cbn [foldlO]. split.
  - intros l' Hrun.
    destruct (addInstruction l n) as [l1|] eqn:Hadd; [|done].
    pose proof (addInstruction_step src l l1 n Hinv Hn Hadd) as Hinv1.
    destruct (IH (src ++ [n]) l1 Hinv1 Hfresh') as [Hok _].
    rewrite <- app_assoc in Hok. by apply Hok.
  - intros Hports.
    assert (Hadd : is_Some (addInstruction l n)).
    { unfold addInstruction. destruct (last l) as [prev|] eqn:Hlast; [|done].
      destruct (bool_decide (instrStr n ∈ macroFusibleWith prev)) eqn:Hfus;
        [|done].
      destruct (portData n) as [|[instrPorts u] ports] eqn:Hpd; [|done].
      exfalso. apply last_Some in Hlast as [l0 ->].
      destruct Hinv as [Hlen Hlook].
      rewrite length_app in Hlen. simpl in Hlen.
      destruct (decide (src = [])) as [->|Hne]; [simpl in Hlen; lia|].
      destruct (exists_last Hne) as (src0 & p & ->).
      rewrite length_app in Hlen. simpl in Hlen.
      destruct (Hlook (length l0) prev)
        as (c & Hc & H1 & H2 & H3 & H4 & H5 & H6 & H7).
      { by rewrite list_lookup_middle. }
      rewrite list_lookup_middle in Hc by lia. injection Hc as <-.
      apply (Hports (length src0) n).
      - by rewrite fusibleAt_snoc, <- H4.
      - replace (S (length src0)) with (length (src0 ++ [p]))
          by (rewrite length_app; simpl; lia).
        by apply list_lookup_middle.
      - done. }
    destruct Hadd as [l1 Hadd]. rewrite Hadd.
    pose proof (addInstruction_step src l l1 n Hinv Hn Hadd) as Hinv1.
    destruct (IH (src ++ [n]) l1 Hinv1 Hfresh') as [_ Hsome].
    apply Hsome. by rewrite <- app_assoc.
Qed.

(** X21. The flags that the loop of [getInstructions] sets.  If every
    instruction is constructed with the default flags, then in the list that
    the loop returns instruction [k] keeps its [asm], [opcode], [instrStr]
    and [macroFusibleWith]; [isFirstInstruction] is set for the first
    instruction and no other; [macroFusedWithNextInstr] of instruction [k]
    equals [macroFusedWithPrevInstr] of instruction [k + 1], and both are
    set exactly when [instrStr] of instruction [k + 1] is in
    [macroFusibleWith] of instruction [k]; the first instruction is never
    fused with a predecessor, the last never with a successor.  The loop
    returns provided that every instruction that is fused with its
    predecessor has port data. *)
Theorem getInstructions_fusion_flags (constructed : list Instr) :
  Forall freshInstr constructed ->
  (forall instructions,
     addInstructions constructed = Some instructions ->
     fusionFlagsSet constructed instructions)
  /\ ((forall k c, fusibleAt constructed k = true ->
                   constructed !! S k = Some c -> portData c <> []) ->
      is_Some (addInstructions constructed)).
Proof.
  intros Hfresh. unfold addInstructions.
  apply (addInstructions_from constructed [] []); [|done].
  split; [done|]. intros k instr Hk. done.
Qed.
Lemma getInstructions_fusion_flags_witness :
  exists instructions,
    addInstructions [sampleCmp; sampleJz; sampleMov] = Some instructions
    /\ macroFusedWithNextInstr <$> instructions = [true; false; false]
    /\ macroFusedWithPrevInstr <$> instructions = [false; true; false]
    /\ portData <$> instructions
       = [[("06"%string, 1)]; [("06"%string, 1)]; [("0156"%string, 1)]]
    /\ fusionFlagsSet [sampleCmp; sampleJz; sampleMov] instructions.
Proof.
  eexists. split; [vm_compute; reflexivity|].
  split; [vm_compute; reflexivity|].
  split; [vm_compute; reflexivity|].
  split; [vm_compute; reflexivity|].
  apply (proj1 (getInstructions_fusion_flags [sampleCmp; sampleJz; sampleMov]
                  ltac:(by repeat constructor))).
  vm_compute. reflexivity.
Defined.

(** ** The cache block generators *)

Lemma newInstrInstance_fields (instr : Instr) (addr r : Z) (id idx idx' : nat)
    (instrI : InstrInstance) :
  newInstrInstance instr addr r id idx = Some (instrI, idx') ->
  ii_id instrI = id /\ ii_instr instrI = instr /\ address instrI = addr
  /\ rnd instrI = r
  /\ generateUops instr id idx = Some (ii_uops instrI)
  /\ idx' = (idx + length (UopPropertiesList instr))%nat.
Proof.
  unfold newInstrInstance.
  destruct (generateUops instr id idx) as [uops|]; [|done].
  intros [= <- <-]. done.
Qed.

Lemma nextCacheBlock_no_instructions (fuel : nat) (unroll : bool) (off : Z) :
  forall g cacheBlock id idx r,
    CacheBlocks.nextCacheBlock fuel [] unroll off g cacheBlock id idx
    <> CacheBlocks.Yield r.
Proof.
  induction fuel as [|fuel IH]; intros g cacheBlock id idx r; [done|].
  cbn [CacheBlocks.nextCacheBlock]. rewrite lookup_nil. apply IH.
Qed.

Lemma endAddr_cons (addr : Z) (instrI : InstrInstance)
    (block : list InstrInstance) :
  CacheBlocks.endAddr addr (instrI :: block)
  = CacheBlocks.endAddr (addr + instrLen (ii_instr instrI)) block.
Proof. reflexivity. Qed.

Lemma nextCacheBlock_inv (instructions : list Instr) (unroll : bool)
    (off : Z) (fuel : nat) :
  let n := length instructions in
  forall g cacheBlock id idx block g' id' idx',
    (CacheBlocks.g_pos g <= n)%nat ->
    CacheBlocks.nextCacheBlock fuel instructions unroll off g cacheBlock id idx
    = CacheBlocks.Yield (block, g', id', idx') ->
    exists new,
      block = cacheBlock ++ new /\ new <> []
      /\ CacheBlocks.consecutive (CacheBlocks.g_nextAddr g) new
      /\ Forall (fun i => address i `div` 64
                          = CacheBlocks.g_nextAddr g `div` 64) new
      /\ (forall k i, new !! k = Some i ->
            ii_id i = (id + k)%nat
            /\ instructions !! ((CacheBlocks.g_pos g + k) mod n)%nat
               = Some (ii_instr i)
            /\ rnd i = CacheBlocks.g_rnd g
                       + Z.of_nat ((CacheBlocks.g_pos g + k) / n)%nat
            /\ exists idx0, generateUops (ii_instr i) (ii_id i) idx0
                            = Some (ii_uops i))
      /\ id' = (id + length new)%nat
      /\ (0 < CacheBlocks.g_pos g' <= n)%nat
      /\ CacheBlocks.g_pos g'
         = S ((CacheBlocks.g_pos g + length new - 1) mod n)
      /\ CacheBlocks.g_rnd g'
         = CacheBlocks.g_rnd g
           + Z.of_nat ((CacheBlocks.g_pos g + length new - 1) / n)%nat
      /\ (unroll = false ->
          ((CacheBlocks.g_pos g) mod n + length new <= n)%nat)
      /\ CacheBlocks.g_nextAddr g'
         = (if negb unroll && bool_decide (CacheBlocks.g_pos g' = n)
            then off
            else CacheBlocks.endAddr (CacheBlocks.g_nextAddr g) new)
      /\ (negb unroll && bool_decide (CacheBlocks.g_pos g' = n) = false ->
          CacheBlocks.endAddr (CacheBlocks.g_nextAddr g) new `div` 64
          <> CacheBlocks.g_nextAddr g `div` 64).
Proof.
  intros n. destruct (decide (n = 0%nat)) as [Hn0|Hn0].
  { intros g cacheBlock id idx block g' id' idx' _ Hrun. exfalso.
    apply length_zero_iff_nil in Hn0. rewrite Hn0 in Hrun.
    by apply nextCacheBlock_no_instructions in Hrun. }
  assert (Hnpos : (0 < n)%nat) by lia.
  induction fuel as [|fuel IH];
    intros g cacheBlock id idx block g' id' idx' Hpos Hrun; [done|].
  cbn [CacheBlocks.nextCacheBlock] in Hrun.
  destruct g as [r pos nextAddr].
  cbn [CacheBlocks.g_rnd CacheBlocks.g_pos CacheBlocks.g_nextAddr] in *.
  destruct (instructions !! pos) as [instr|] eqn:Hinstr.
  - assert (Hlt : (pos < n)%nat) by (by apply lookup_lt_Some in Hinstr).
    destruct (newInstrInstance instr nextAddr r id idx) as [[instrI idx1]|]
      eqn:Hnew; [|done].
    apply newInstrInstance_fields in Hnew as (Hid & Hii & Haddr & Hrnd & Hgen & _).
    assert (Hmod : (pos mod n = pos)%nat) by (by apply Nat.mod_small).
    assert (Hdiv : (pos / n = 0)%nat) by (by apply Nat.div_small).
    assert (Hsingle :
      forall k i, [instrI] !! k = Some i ->
        ii_id i = (id + k)%nat
        /\ instructions !! ((pos + k) mod n)%nat = Some (ii_instr i)
        /\ rnd i = r + Z.of_nat ((pos + k) / n)%nat
        /\ exists idx0, generateUops (ii_instr i) (ii_id i) idx0
                        = Some (ii_uops i)).
    { intros k i Hk. destruct k; [|done]. injection Hk as <-.
      rewrite !Nat.add_0_r, Hmod, Hdiv, Hid, Hii, Hrnd.
      repeat split; try done; try lia. by exists idx. }
    destruct (negb unroll && bool_decide (S pos = length instructions))
      eqn:Hlast.
    + injection Hrun as <- <- <- <-.
      apply andb_prop in Hlast as [Hun Hend].
      apply bool_decide_eq_true in Hend.
      exists [instrI].
      cbn [CacheBlocks.g_rnd CacheBlocks.g_pos CacheBlocks.g_nextAddr].
      split; [done|]. split; [done|]. split; [by split|].
      split; [by repeat constructor; rewrite Haddr|].
      split; [exact Hsingle|]. split; [simpl; lia|].
      split; [fold n in Hend; lia|].
      cbn [length]. replace (pos + 1 - 1)%nat with pos by lia.
      rewrite Hmod, Hdiv.
      split; [done|]. split; [lia|].
      split; [intros _; simpl; lia|].
      rewrite Hun. fold n in Hend.
      rewrite (bool_decide_eq_true_2 _ Hend). done.
    + destruct (negb (nextAddr `div` 64
                      =? (nextAddr + instrLen instr) `div` 64)) eqn:Hcross.
      * injection Hrun as <- <- <- <-.
        apply negb_true_iff, Z.eqb_neq in Hcross.
        exists [instrI].
        cbn [CacheBlocks.g_rnd CacheBlocks.g_pos CacheBlocks.g_nextAddr].
        fold n in Hlast. rewrite Hlast.
        split; [done|]. split; [done|]. split; [by split|].
        split; [by repeat constructor; rewrite Haddr|].
        split; [exact Hsingle|]. split; [simpl; lia|].
        split; [lia|].
        cbn [length]. replace (pos + 1 - 1)%nat with pos by lia.
        rewrite Hmod, Hdiv.
        split; [done|]. split; [lia|].
        split; [intros _; simpl; lia|].
        unfold CacheBlocks.endAddr. simpl. rewrite Hii.
        split; [done|]. intros _. congruence.
      * apply negb_false_iff, Z.eqb_eq in Hcross.
        apply IH in Hrun
          as (new & Hblock & Hne & Hcons & Hline & Hidx & Hid' & Hpos'
              & Hp' & Hr' & Hround & Hnext & Hother);
          [|cbn [CacheBlocks.g_pos]; lia].
        cbn [CacheBlocks.g_rnd CacheBlocks.g_pos CacheBlocks.g_nextAddr] in *.
        exists (instrI :: new).
        split; [by rewrite Hblock, <- app_assoc|]. split; [done|].
        split. { split; [done|]. by rewrite Hii. }
        split. { constructor; [by rewrite Haddr|]. by rewrite Hcross. }
        split.
        { intros k i Hk. destruct k as [|k].
          - by apply (Hsingle 0%nat).
          - cbn in Hk. destruct (Hidx k i Hk) as (H1 & H2 & H3 & H4).
            replace (pos + S k)%nat with (S pos + k)%nat by lia.
            repeat split; try done. lia. }
        split; [simpl; lia|]. split; [done|].
        assert (Hlen1 : (0 < length new)%nat) by (destruct new; [done|simpl; lia]).
        cbn [length].
        replace (pos + S (length new) - 1)%nat
          with (S pos + length new - 1)%nat by lia.
        split; [done|]. split; [done|].
        split.
        { intros Hun. rewrite Hun in Hlast. simpl in Hlast.
          apply bool_decide_eq_false in Hlast. fold n in Hlast.
          specialize (Hround Hun).
          rewrite Nat.mod_small in Hround by lia.
          rewrite Hmod. simpl. lia. }
        rewrite endAddr_cons, Hii. split; [done|].
        intros Hc. rewrite Hcross. by apply Hother.
  - apply lookup_ge_None_1 in Hinstr. fold n in Hinstr.
    assert (pos = n) as -> by lia.
    apply IH in Hrun
      as (new & Hblock & Hne & Hcons & Hline & Hidx & Hid' & Hpos'
          & Hp' & Hr' & Hround & Hnext & Hother);
      [|cbn [CacheBlocks.g_pos]; lia].
    cbn [CacheBlocks.g_rnd CacheBlocks.g_pos CacheBlocks.g_nextAddr] in *.
    exists new. do 4 (split; [done|]).
    split.
    { intros k i Hk. destruct (Hidx k i Hk) as (H1 & H2 & H3 & H4).
      simpl in H2, H3.
      replace (n + k)%nat with (k + 1 * n)%nat by lia.
      rewrite Nat.Div0.mod_add, Nat.div_add by lia.
      repeat split; try done. lia. }
    split; [done|]. split; [done|].
    assert (Hlen1 : (0 < length new)%nat) by (destruct new; [done|simpl; lia]).
    simpl in Hp', Hr'.
    replace (n + length new - 1)%nat with (length new - 1 + 1 * n)%nat by lia.
    rewrite Nat.Div0.mod_add, Nat.div_add by lia.
    split; [done|]. split; [lia|].
    split.
    { intros Hun. specialize (Hround Hun).
      rewrite Nat.Div0.mod_same. rewrite Nat.Div0.mod_0_l in Hround. done. }
    done.
Qed.

Lemma nextCacheBlock_yields (instructions : list Instr) (off : Z)
    (fuel : nat) :
  let n := length instructions in
  (0 < n)%nat ->
  Forall (fun instr => forall id idx, is_Some (generateUops instr id idx))
         instructions ->
  forall g cacheBlock id idx,
    (CacheBlocks.g_pos g <= n)%nat ->
    ((if bool_decide (CacheBlocks.g_pos g < n)%nat
      then n - CacheBlocks.g_pos g else n + 1) <= fuel)%nat ->
    exists r,
      CacheBlocks.nextCacheBlock fuel instructions false off g cacheBlock
        id idx = CacheBlocks.Yield r.
Proof.
  intros n Hn Hgen.
  induction fuel as [|fuel IH]; intros g cacheBlock id idx Hpos Hfuel.
  { exfalso. destruct (bool_decide _) eqn:E; [|lia].
    apply bool_decide_eq_true in E. lia. }
  cbn [CacheBlocks.nextCacheBlock].
  destruct (instructions !! CacheBlocks.g_pos g) as [instr|] eqn:Hinstr.
  - assert (Hlt : (CacheBlocks.g_pos g < n)%nat)
      by (by apply lookup_lt_Some in Hinstr).
    rewrite bool_decide_eq_true_2 in Hfuel by done.
    assert (Hsome : is_Some (generateUops instr id idx)).
    { eapply Forall_forall in Hgen; [apply Hgen|].
      by eapply list_elem_of_lookup_2. }
    unfold newInstrInstance. destruct Hsome as [uops ->].
    cbn [negb andb].
    destruct (bool_decide (S (CacheBlocks.g_pos g) = length instructions))
      eqn:Hlast; [by eexists|].
    apply bool_decide_eq_false in Hlast. fold n in Hlast.
    destruct (negb _); [by eexists|].
    apply IH; cbn [CacheBlocks.g_pos]; [lia|].
    rewrite bool_decide_eq_true_2 by lia. lia.
  - apply lookup_ge_None_1 in Hinstr. fold n in Hinstr.
    rewrite bool_decide_eq_false_2 in Hfuel by lia.
    apply IH; cbn [CacheBlocks.g_pos]; [lia|].
    rewrite bool_decide_eq_true_2 by lia. lia.
Qed.
(** Without unrolling, a block is a segment of one round. *)
Lemma nextCacheBlock_round (instructions : list Instr) (off : Z) (fuel : nat)
    (g g' : CacheBlocks.Generator) (id idx id' idx' : nat)
    (block : list InstrInstance) :
  let n := length instructions in
  let p0 := (CacheBlocks.g_pos g mod n)%nat in
  let r0 := CacheBlocks.g_rnd g
            + (if bool_decide (CacheBlocks.g_pos g = n) then 1 else 0) in
  (CacheBlocks.g_pos g <= n)%nat ->
  CacheBlocks.nextCacheBlock fuel instructions false off g [] id idx
  = CacheBlocks.Yield (block, g', id', idx') ->
  block <> []
  /\ ii_instr <$> block = take (length block) (drop p0 instructions)
  /\ Forall (fun i => rnd i = r0) block
  /\ CacheBlocks.g_pos g' = (p0 + length block)%nat
  /\ (CacheBlocks.g_pos g' <= n)%nat
  /\ CacheBlocks.g_rnd g' = r0.
Proof.
  intros n p0 r0 Hpos Hrun.
  destruct (nextCacheBlock_inv instructions false off fuel g [] id idx
              block g' id' idx' Hpos Hrun)
    as (new & Hblock & Hne & _ & _ & Hidx & _ & Hpos' & Hp' & Hr' & Hround & _).
  rewrite app_nil_l in Hblock. subst new. fold n in Hidx, Hp', Hr', Hround, Hpos'.
  specialize (Hround eq_refl). fold p0 in Hround.
  assert (Hlen : (0 < length block)%nat) by (destruct block; [done|simpl; lia]).
  assert (Hn : (0 < n)%nat) by lia.
  assert (Hcase : (CacheBlocks.g_pos g < n /\ p0 = CacheBlocks.g_pos g
                   /\ r0 = CacheBlocks.g_rnd g)%nat
                  \/ (CacheBlocks.g_pos g = n /\ p0 = 0%nat
                      /\ r0 = CacheBlocks.g_rnd g + 1)).
  { destruct (decide (CacheBlocks.g_pos g = n)) as [Heq|Hneq].
    - right. subst p0 r0. rewrite Heq, Nat.Div0.mod_same.
      by rewrite bool_decide_eq_true_2.
    - left. subst p0 r0. rewrite Nat.mod_small by lia.
      rewrite bool_decide_eq_false_2 by done. split; [lia|]. split; [done|lia]. }
  assert (Hk : forall k, (k < length block)%nat ->
             ((CacheBlocks.g_pos g + k) mod n = p0 + k)%nat
             /\ Z.of_nat ((CacheBlocks.g_pos g + k) / n)%nat
                = r0 - CacheBlocks.g_rnd g).
  { intros k Hk. destruct Hcase as [(H1 & H2 & H3)|(H1 & H2 & H3)].
    - rewrite Nat.mod_small, Nat.div_small by lia. split; [lia|lia].
    - rewrite H1. replace (n + k)%nat with (k + 1 * n)%nat by lia.
      rewrite Nat.Div0.mod_add, Nat.div_add by lia.
      rewrite Nat.mod_small, Nat.div_small by lia. split; lia. }
  split; [done|]. split.
  { apply list_eq. intros k. rewrite list_lookup_fmap.
    destruct (block !! k) as [i|] eqn:Hi.
    - destruct (Hidx k i Hi) as (_ & H2 & _).
      apply lookup_lt_Some in Hi as Hlt.
      destruct (Hk k Hlt) as [Hm _]. rewrite Hm in H2.
      rewrite lookup_take_lt by done. rewrite lookup_drop. simpl. by rewrite H2.
    - apply lookup_ge_None_1 in Hi. simpl. symmetry.
      apply lookup_ge_None_2. rewrite length_take. lia. }
  split.
  { apply Forall_lookup. intros k i Hi.
    destruct (Hidx k i Hi) as (_ & _ & H3 & _).
    apply lookup_lt_Some in Hi as Hlt.
    destruct (Hk k Hlt) as [_ Hd]. lia. }
  destruct (Hk (length block - 1)%nat ltac:(lia)) as [Hm Hd].
  replace (CacheBlocks.g_pos g + (length block - 1))%nat
    with (CacheBlocks.g_pos g + length block - 1)%nat in Hm, Hd by lia.
  split; [lia|]. split; [lia|]. lia.
Qed.

(** X22. A block that [CacheBlockGenerator] yields is not empty; its
    instances are the next instructions of the program in order (instruction
    [(pos + k) mod n] in round [rnd + (pos + k) div n], with the uops that
    [__generateUops] makes for it); their addresses follow one another from
    [nextAddr] on, and all of them start in the same 64-byte line.  The next
    block starts at [alignmentOffset] after the last instruction of a round
    when the code is not unrolled, and otherwise where this block ends, which
    is in another 64-byte line. *)
Theorem CacheBlockGenerator_block (instructions : list Instr) (unroll : bool)
    (alignmentOffset : Z) (fuel : nat) (g g' : CacheBlocks.Generator)
    (id idx id' idx' : nat) (block : list InstrInstance) :
  let n := length instructions in
  (CacheBlocks.g_pos g <= n)%nat ->
  CacheBlocks.nextCacheBlock fuel instructions unroll alignmentOffset g []
    id idx = CacheBlocks.Yield (block, g', id', idx') ->
  block <> []
  /\ CacheBlocks.consecutive (CacheBlocks.g_nextAddr g) block
  /\ Forall (fun i => address i `div` 64
                      = CacheBlocks.g_nextAddr g `div` 64) block
  /\ (forall k i, block !! k = Some i ->
        ii_id i = (id + k)%nat
        /\ instructions !! ((CacheBlocks.g_pos g + k) mod n)%nat
           = Some (ii_instr i)
        /\ rnd i = CacheBlocks.g_rnd g
                   + Z.of_nat ((CacheBlocks.g_pos g + k) / n)%nat
        /\ exists idx0, generateUops (ii_instr i) (ii_id i) idx0
                        = Some (ii_uops i))
  /\ id' = (id + length block)%nat
  /\ (0 < CacheBlocks.g_pos g' <= n)%nat
  /\ CacheBlocks.g_nextAddr g'
     = (if negb unroll && bool_decide (CacheBlocks.g_pos g' = n)
        then alignmentOffset
        else CacheBlocks.endAddr (CacheBlocks.g_nextAddr g) block)
  /\ (negb unroll && bool_decide (CacheBlocks.g_pos g' = n) = false ->
      CacheBlocks.endAddr (CacheBlocks.g_nextAddr g) block `div` 64
      <> CacheBlocks.g_nextAddr g `div` 64).
Proof.
  intros n Hpos Hrun.
  destruct (nextCacheBlock_inv instructions unroll alignmentOffset fuel g []
              id idx block g' id' idx' Hpos Hrun)
    as (new & Hblock & Hne & Hcons & Hline & Hidx & Hid' & Hpos' & _ & _ & _
        & Hnext & Hother).
  rewrite app_nil_l in Hblock. subst new. done.
Qed.

(** X23. Without unrolling, [CacheBlockGenerator] never mixes rounds.  If
    creating an instance raises for no instruction of a non-empty program,
    then [next] returns after at most [n + 1] steps of the loop, and the
    block it yields is a segment of the program that lies in one round: it
    begins where the previous block ended (at the first instruction, in the
    next round, if that was the end of a round) and the generator is then
    at most at the end of this round. *)
Theorem CacheBlockGenerator_rounds (instructions : list Instr)
    (alignmentOffset : Z) (fuel : nat) (g : CacheBlocks.Generator)
    (id idx : nat) :
  let n := length instructions in
  let p0 := (CacheBlocks.g_pos g mod n)%nat in
  let r0 := CacheBlocks.g_rnd g
            + (if bool_decide (CacheBlocks.g_pos g = n) then 1 else 0) in
  instructions <> [] ->
  Forall (fun instr => forall id idx, is_Some (generateUops instr id idx))
         instructions ->
  (CacheBlocks.g_pos g <= n)%nat ->
  (n + 1 <= fuel)%nat ->
  exists block g' id' idx',
    CacheBlocks.nextCacheBlock fuel instructions false alignmentOffset g []
      id idx = CacheBlocks.Yield (block, g', id', idx')
    /\ block <> []
    /\ ii_instr <$> block = take (length block) (drop p0 instructions)
    /\ Forall (fun i => rnd i = r0) block
    /\ CacheBlocks.g_pos g' = (p0 + length block)%nat
    /\ (CacheBlocks.g_pos g' <= n)%nat
    /\ CacheBlocks.g_rnd g' = r0.
Proof.
  intros n p0 r0 Hne Hgen Hpos Hfuel.
  assert (Hn : (0 < n)%nat).
  { subst n. destruct instructions; [done|simpl; lia]. }
  destruct (nextCacheBlock_yields instructions alignmentOffset fuel Hn Hgen
              g [] id idx Hpos) as [[[[block g'] id'] idx'] Hrun].
  { cbv zeta. unfold n in *.
    destruct (bool_decide (CacheBlocks.g_pos g < length instructions)%nat);
      lia. }
  exists block, g', id', idx'. split; [exact Hrun|].
  by apply (nextCacheBlock_round instructions alignmentOffset fuel g g'
              id idx id' idx').
Qed.
Lemma CacheBlockGenerator_block_witness :
  exists block g' id' idx',
    CacheBlocks.nextCacheBlock 5 sampleProgram true 60 (CacheBlocks.start 60)
      [] 0 0 = CacheBlocks.Yield (block, g', id', idx')
    /\ address <$> block = [60]
    /\ CacheBlocks.g_nextAddr g' = 65
    /\ Forall (fun i => address i `div` 64 = 0) block.
Proof.
  eexists _, _, _, _. split; [vm_compute; reflexivity|].
  split; [vm_compute; reflexivity|]. split; [vm_compute; reflexivity|].
  destruct (CacheBlockGenerator_block sampleProgram true 60 5
              (CacheBlocks.start 60) _ 0 0 _ _ _
              ltac:(vm_compute; lia) ltac:(vm_compute; reflexivity))
    as (_ & _ & Hline & _).
  exact Hline.
Defined.

Lemma sampleProgram_instances :
  Forall (fun instr => forall id idx, is_Some (generateUops instr id idx))
         sampleProgram.
Proof.
  repeat constructor; intros id idx; eexists; vm_compute; reflexivity.
Defined.

Lemma CacheBlockGenerator_rounds_witness :
  exists block g' id' idx',
    CacheBlocks.nextCacheBlock 3 sampleProgram false 0
      {| CacheBlocks.g_rnd := 4; CacheBlocks.g_pos := 2;
         CacheBlocks.g_nextAddr := 0 |} [] 7 20
    = CacheBlocks.Yield (block, g', id', idx')
    /\ ii_instr <$> block = sampleProgram
    /\ Forall (fun i => rnd i = 5) block.
Proof.
  destruct (CacheBlockGenerator_rounds sampleProgram 0 3
              {| CacheBlocks.g_rnd := 4; CacheBlocks.g_pos := 2;
                 CacheBlocks.g_nextAddr := 0 |} 7 20
              ltac:(done) sampleProgram_instances
              ltac:(vm_compute; lia) ltac:(vm_compute; lia))
    as (block & g' & id' & idx' & Hrun & _ & Hseg & Hrnd & _).
  exists block, g', id', idx'. split; [exact Hrun|]. split; [|exact Hrnd].
  rewrite Hseg.
  assert (Hlen : length block = 2%nat).
  { vm_compute in Hrun. by injection Hrun as <- _ _ _. }
  rewrite Hlen. reflexivity.
Defined.
Lemma consecutive_app (addr : Z) (l1 l2 : list InstrInstance) :
  CacheBlocks.consecutive addr l1 ->
  CacheBlocks.consecutive (CacheBlocks.endAddr addr l1) l2 ->
  CacheBlocks.consecutive addr (l1 ++ l2).
Proof.
  revert addr. induction l1 as [|i l1 IH]; intros addr H1 H2; [done|].
  destruct H1 as [Ha H1]. split; [done|]. apply IH; [done|].
  by rewrite endAddr_cons in H2.
Qed.

Lemma endAddr_app (addr : Z) (l1 l2 : list InstrInstance) :
  CacheBlocks.endAddr addr (l1 ++ l2)
  = CacheBlocks.endAddr (CacheBlocks.endAddr addr l1) l2.
Proof. unfold CacheBlocks.endAddr. by rewrite foldl_app. Qed.

Lemma take_take_drop_app {A : Type} (l : list A) (a b : nat) :
  take a l ++ take b (drop a l) = take (a + b) l.
Proof.
  revert a. induction l as [|x l IH]; intros a.
  - by rewrite drop_nil, !take_nil.
  - destruct a as [|a]; [done|]. simpl. by rewrite IH.
Qed.

Lemma collectRound_spec (instructions : list Instr) (off r : Z)
    (steps : nat) :
  let n := length instructions in
  instructions <> [] ->
  Forall (fun instr => forall id idx, is_Some (generateUops instr id idx))
         instructions ->
  (n + 1 <= steps)%nat ->
  forall fuel g cacheBlocks id idx,
    CacheBlocks.g_rnd g = r ->
    CacheBlocks.g_pos g = length (concat cacheBlocks) ->
    (CacheBlocks.g_pos g <= n)%nat ->
    ii_instr <$> concat cacheBlocks
    = take (length (concat cacheBlocks)) instructions ->
    Forall (fun i => rnd i = r) (concat cacheBlocks) ->
    CacheBlocks.consecutive off (concat cacheBlocks) ->
    CacheBlocks.g_nextAddr g
    = (if bool_decide (CacheBlocks.g_pos g = n) then off
       else CacheBlocks.endAddr off (concat cacheBlocks)) ->
    Forall (fun b => b <> []
                     /\ exists line, Forall (fun i => address i `div` 64 = line) b)
           cacheBlocks ->
    (n - CacheBlocks.g_pos g + 1 <= fuel)%nat ->
    exists blocks rg' id' idx',
      CacheBlocks.collectRound fuel steps instructions off g cacheBlocks r
        id idx = CacheBlocks.Yield (blocks, rg', id', idx')
      /\ ii_instr <$> concat blocks = instructions
      /\ Forall (fun i => rnd i = r) (concat blocks)
      /\ CacheBlocks.consecutive off (concat blocks)
      /\ Forall (fun b => b <> []
                          /\ exists line,
                               Forall (fun i => address i `div` 64 = line) b)
                blocks
      /\ CacheBlocks.atRound instructions off (r + 1) rg'.
Proof.
  intros n Hne Hgen Hsteps.
  assert (Hn : (0 < n)%nat).
  { subst n. destruct instructions; [done|simpl; lia]. }
  induction fuel as [|fuel IH];
    intros g cacheBlocks id idx Hr Hp Hle Hinstr Hrnd Hcons Hnext Hblocks Hfuel;
    [lia|].
  cbn [CacheBlocks.collectRound].
  destruct (nextCacheBlock_yields instructions off steps Hn Hgen g [] id idx Hle)
    as [[[[block g'] id'] idx'] Hrun].
  { cbv zeta. unfold n in *.
    destruct (bool_decide (CacheBlocks.g_pos g < length instructions)%nat);
      lia. }
  rewrite Hrun.
  destruct (nextCacheBlock_round instructions off steps g g' id idx id' idx'
              block Hle Hrun) as (Hbne & Hseg & Hbrnd & Hp' & Hle' & Hr').
  destruct (nextCacheBlock_inv instructions false off steps g [] id idx
              block g' id' idx' Hle Hrun)
    as (new & Hblock & _ & Hbcons & Hline & _ & _ & _ & _ & _ & _ & Hnext' & _).
  rewrite app_nil_l in Hblock. subst new. fold n in Hseg, Hbrnd, Hp', Hle', Hr', Hnext'.
  cbn [negb andb] in Hnext'.
  destruct (last block) as [instrI|] eqn:Hlast;
    [|by apply last_None in Hlast].
  assert (HinstrI : rnd instrI
                    = CacheBlocks.g_rnd g
                      + (if bool_decide (CacheBlocks.g_pos g = n) then 1 else 0)).
  { apply last_Some in Hlast as [l' ->].
    apply Forall_app in Hbrnd as [_ Hb]. by inversion Hb. }
  destruct (decide (CacheBlocks.g_pos g = n)) as [Hend|Hmid].
  - rewrite bool_decide_eq_true_2 in HinstrI, Hbrnd, Hr', Hnext by done.
    rewrite Hend, Nat.Div0.mod_same in Hseg, Hp'. rewrite drop_0 in Hseg.
    assert ((r =? rnd instrI) = false) as ->.
    { apply Z.eqb_neq. lia. }
    cbn [negb]. eexists _, _, _, _. split; [reflexivity|].
    split. { rewrite Hinstr, <- Hp, Hend. by rewrite take_ge. }
    split; [done|]. split; [done|]. split; [done|].
    unfold CacheBlocks.atRound. cbn.
    rewrite Hnext in Hbcons, Hline, Hnext'.
    rewrite Hr in Hbrnd, Hr', HinstrI.
    repeat split; try done; try lia.
  - rewrite bool_decide_eq_false_2 in HinstrI, Hbrnd, Hr', Hnext by done.
    rewrite Nat.mod_small in Hseg, Hp' by lia.
    rewrite Z.add_0_r in HinstrI, Hbrnd, Hr'.
    assert ((r =? rnd instrI) = true) as ->.
    { apply Z.eqb_eq. lia. }
    cbn [negb].
    apply IH.
    + lia.
    + rewrite concat_app, length_app. simpl. rewrite app_nil_r. lia.
    + done.
    + rewrite concat_app, fmap_app, length_app. simpl. rewrite !app_nil_r.
      rewrite Hinstr, Hseg, Hp. apply take_take_drop_app.
    + rewrite concat_app. simpl. rewrite app_nil_r.
      apply Forall_app. split; [done|]. by rewrite <- Hr.
    + rewrite concat_app. simpl. rewrite app_nil_r.
      apply consecutive_app; [done|]. by rewrite <- Hnext.
    + rewrite Hnext'. rewrite concat_app. simpl.
      rewrite app_nil_r, endAddr_app, Hnext. done.
    + apply Forall_app. split; [done|]. constructor; [|done].
      split; [done|]. by eexists.
    + assert (0 < length block)%nat by (destruct block; [done|simpl; lia]).
      lia.
Qed.

(** X24. [CacheBlocksForNextRoundGenerator] delivers the program round by
    round.  It starts at round 0, and when it is about to deliver round [r]
    (and creating an instance raises for no instruction of the non-empty
    program) [next] returns the cache blocks of round [r]: put together they
    are one instance of every instruction, in program order and all of round
    [r], at addresses that follow one another from [alignmentOffset] on;
    no block is empty and the instances of a block start in the same 64-byte
    line.  Afterwards the generator is about to deliver round [r + 1]. *)
Theorem CacheBlocksForNextRound_delivers_round (instructions : list Instr)
    (alignmentOffset r : Z) (fuel steps : nat)
    (rg : CacheBlocks.RoundGenerator) (id idx : nat) :
  let n := length instructions in
  CacheBlocks.atRound instructions alignmentOffset 0
    (CacheBlocks.startRounds alignmentOffset)
  /\ (instructions <> [] ->
      Forall (fun instr => forall id idx, is_Some (generateUops instr id idx))
             instructions ->
      CacheBlocks.atRound instructions alignmentOffset r rg ->
      (n + 1 <= fuel)%nat -> (n + 1 <= steps)%nat ->
      exists cacheBlocks rg' id' idx',
        CacheBlocks.nextRound fuel steps instructions alignmentOffset rg
          id idx = CacheBlocks.Yield (cacheBlocks, rg', id', idx')
        /\ ii_instr <$> concat cacheBlocks = instructions
        /\ Forall (fun i => rnd i = r) (concat cacheBlocks)
        /\ CacheBlocks.consecutive alignmentOffset (concat cacheBlocks)
        /\ Forall (fun b => b <> []
                            /\ exists line,
                                 Forall (fun i => address i `div` 64 = line) b)
                  cacheBlocks
        /\ CacheBlocks.atRound instructions alignmentOffset (r + 1) rg').
Proof.
  intros n. split; [done|].
  intros Hne Hgen Hat Hfuel Hsteps.
  assert (Hn : (0 < n)%nat).
  { subst n. destruct instructions; [done|simpl; lia]. }
  unfold CacheBlocks.nextRound. unfold CacheBlocks.atRound in Hat.
  destruct (CacheBlocks.rg_fetched rg) as [[cacheBlock curRnd]|].
  - destruct Hat as (-> & Hr & Hbne & Hseg & Hp & Hle & Hrnd & Hcons & Hline
                     & Hnext).
    apply (collectRound_spec instructions alignmentOffset r steps Hne Hgen
             Hsteps); simpl; rewrite ?app_nil_r; try done.
    + repeat constructor; [done|by eexists].
    + fold n. lia.
  - destruct Hat as (Hg & Hprev & ->). rewrite Hg, Hprev.
    apply (collectRound_spec instructions alignmentOffset 0 steps Hne Hgen
             Hsteps); simpl; try done.
    + lia.
    + rewrite bool_decide_eq_false_2; [done|]. fold n. lia.
    + fold n. lia.
Qed.

Lemma CacheBlocksForNextRound_delivers_round_witness :
  exists (cacheBlocks : list (list InstrInstance)) rg' id' idx',
    CacheBlocks.nextRound 3 3 sampleProgram 60 (CacheBlocks.startRounds 60)
      0 0 = CacheBlocks.Yield (cacheBlocks, rg', id', idx')
    /\ (fun b : list InstrInstance => address <$> b) <$> cacheBlocks = [[60]; [65]]
    /\ ii_instr <$> concat cacheBlocks = sampleProgram
    /\ CacheBlocks.atRound sampleProgram 60 1 rg'.
Proof.
  destruct (proj2 (CacheBlocksForNextRound_delivers_round sampleProgram 60 0
                     3 3 (CacheBlocks.startRounds 60) 0 0)
              ltac:(done) sampleProgram_instances
              ltac:(done) ltac:(vm_compute; lia) ltac:(vm_compute; lia))
    as (cacheBlocks & rg' & id' & idx' & Hrun & Hinstr & _ & _ & _ & Hat).
  exists cacheBlocks, rg', id', idx'. split; [exact Hrun|].
  split; [|split; [exact Hinstr|exact Hat]].
  vm_compute in Hrun. by injection Hrun as <- _ _ _.
Defined.
